(** * JewelCraft mesh helpers and localization table: a shallow embedding

    The development follows [lib/mesh.py] and [localization.py].

    - A Python float is represented by the rational it stands for ([Q]),
      and the arithmetic of Python floats is exact.  The components of a
      [mathutils.Vector], which hold the coordinates of a vertex, are C
      floats: a Python float is rounded to single precision when it is
      stored in one (section Numbers).  Python floats that are infinite
      or not a number are not represented.
    - Python code that mutates host objects and may raise is written in a
      state-and-exception monad [M S A]: a computation takes the store,
      and gives back an outcome (a value or a raised exception) together
      with the store as it is at that moment.  A raised exception keeps
      every mutation made before it, as in Python.
    - The editable mesh ([bmesh.types.BMesh]) is an arena: vertices, edges
      and faces are addressed by their index of creation. *)

From Stdlib Require Import QArith Qabs Qpower ZArith Lia Lqa.
From stdpp Require Import base option list gmap strings.

Set Default Proof Using "Type".

(* ===================================================================== *)
(** * Part I: definitions                                                 *)
(* ===================================================================== *)

(** ** Outcomes and the state-and-exception monad *)

Inductive exn : Type :=
  | IndexError
  | ValueError
  | TypeError
  | AttributeError
  | RuntimeError
  | ReferenceError
  | MemoryError.

Inductive outcome (A : Type) : Type :=
  | Ret (a : A)
  | Raise (e : exn).
Arguments Ret {A} a.
Arguments Raise {A} e.

Definition M (S A : Type) : Type := S -> outcome A * S.

Definition ret {S A} (a : A) : M S A := fun s => (Ret a, s).
Definition raise {S A} (e : exn) : M S A := fun s => (Raise e, s).
Definition bind {S A B} (m : M S A) (k : A -> M S B) : M S B :=
  fun s =>
    match m s with
    | (Ret a, s') => k a s'
    | (Raise e, s') => (Raise e, s')
    end.
Definition get {S} : M S S := fun s => (Ret s, s).
Definition put {S} (s : S) : M S unit := fun _ => (Ret tt, s).
Definition lift {S A} (o : outcome A) : M S A := fun s => (o, s).

Declare Scope py_scope.
Delimit Scope py_scope with py.
Notation "x <- c1 ;; c2" := (bind c1 (fun x => c2))
  (at level 100, c1 at next level, right associativity) : py_scope.
Notation "c1 ;; c2" := (bind c1 (fun _ => c2))
  (at level 100, right associativity) : py_scope.
Open Scope py_scope.

(** A list comprehension [[f(x) for x in xs]] whose body has effects. *)
Fixpoint mapM {S A B} (f : A -> M S B) (xs : list A) : M S (list B) :=
  match xs with
  | [] => ret []
  | x :: xs' => y <- f x ;; ys <- mapM f xs' ;; ret (y :: ys)
  end.

(** A [for x in xs:] statement whose body has effects and no value. *)
Fixpoint forM_ {S A} (xs : list A) (f : A -> M S unit) : M S unit :=
  match xs with
  | [] => ret tt
  | x :: xs' => f x ;; forM_ xs' f
  end.

(** ** Numbers

    A component of a [mathutils.Vector] is a C float.  When a Python float
    is written to it ([bm.verts.new(co)], [v.co.z = z]) the value is
    converted to single precision: 24 bits of precision, least normal
    exponent -126 (so the multiples of 2^-149 below 2^-126), rounded to the
    nearest such value, ties to the even one; a value whose rounding
    reaches 2^128 becomes an infinity. *)

(** What a vector component holds: a number or an infinity. *)
Inductive scalar : Type :=
  | Finite (q : Q)
  | Infinite (negative : bool).

Definition scalar_opp (a : scalar) : scalar :=
  match a with
  | Finite q => Finite (- q)
  | Infinite n => Infinite (negb n)
  end.

(** Equality of components as numbers ([a == b] in Python). *)
Definition scalar_eq (a b : scalar) : Prop :=
  match a, b with
  | Finite p, Finite q => (p == q)%Q
  | Infinite m, Infinite n => m = n
  | _, _ => False
  end.

(** 2^k, for any integer k. *)
Definition pow2 (k : Z) : Q := (2 ^ k)%Q.

(** The binary exponent of a positive rational: the e with
    2^e <= q < 2^(e+1). *)
Definition Qlog2 (q : Q) : Z :=
  let e := (Z.log2 (Qnum q) - Z.log2 (Zpos (Qden q)))%Z in
  if Qle_bool (pow2 e) q then e else (e - 1)%Z.

(** The nearest integer, the even one of the two at a tie. *)
Definition round_half_even (q : Q) : Z :=
  let f := (Qnum q / Zpos (Qden q))%Z in
  let r := (Qnum q mod Zpos (Qden q))%Z in
  match (2 * r ?= Zpos (Qden q))%Z with
  | Lt => f
  | Gt => (f + 1)%Z
  | Eq => if Z.even f then f else (f + 1)%Z
  end.

(** A positive rational rounded to [prec] bits of precision, with least
    normal exponent [emin]. *)
Definition round_mag (prec emin : Z) (q : Q) : Q :=
  let e := Qlog2 q in
  let k := Z.max (e - (prec - 1)) (emin - (prec - 1)) in
  Qred (inject_Z (round_half_even (q / pow2 k)) * pow2 k).

Definition single_mag (negative : bool) (q : Q) : scalar :=
  let r := round_mag 24 (-126) q in
  if Qle_bool (pow2 128) r then Infinite negative
  else Finite (if negative then - r else r).

(** The conversion of a Python float to single precision, by sign and
    magnitude. *)
Definition single (q : Q) : scalar :=
  match Qnum q with
  | Z0 => Finite 0
  | Zpos _ => single_mag false q
  | Zneg _ => single_mag true (- q)
  end.

(** How a Python float is stored in a vector component.  [ieee] is what
    the host does.  [exact] keeps the number as it is: arithmetic without
    rounding, for statements made under exact arithmetic. *)
Class Arith : Type := { store : Q -> scalar }.

Definition ieee : Arith := {| store := single |}.
Definition exact : Arith := {| store := Finite |}.

(** The Python float 0.1: the double nearest to 1/10. *)
Definition float_0_1 : Q := 3602879701896397 # 36028797018963968.

(** [q] is a single-precision value: storing it does not change it. *)
Definition is_single (q : Q) : Prop := scalar_eq (single q) (Finite q).

(** ** The editable mesh *)

(** A coordinate triple of Python floats, as passed to [bm.verts.new]. *)
Abbreviation co := (Q * Q * Q)%type.

Definition co_x (c : co) : Q := fst (fst c).
Definition co_y (c : co) : Q := snd (fst c).
Definition co_z (c : co) : Q := snd c.

(** Equality of coordinates as numbers. *)
Definition co_eq (c d : co) : Prop :=
  (co_x c == co_x d /\ co_y c == co_y d /\ co_z c == co_z d)%Q.

(** The coordinates of a vertex ([v.co], a [mathutils.Vector] of size 3). *)
Abbreviation Vector := (scalar * scalar * scalar)%type.

Definition vec_x (c : Vector) : scalar := fst (fst c).
Definition vec_y (c : Vector) : scalar := snd (fst c).
Definition vec_z (c : Vector) : scalar := snd c.

Definition vec_eq (c d : Vector) : Prop :=
  scalar_eq (vec_x c) (vec_x d) /\ scalar_eq (vec_y c) (vec_y d) /\
  scalar_eq (vec_z c) (vec_z d).

(** The vector that holds the triple [c]. *)
Definition to_vector {A : Arith} (c : co) : Vector :=
  (store (co_x c), store (co_y c), store (co_z c)).

(** A face is its cycle of corners: the i-th corner holds the i-th vertex
    and the edge from it to the next vertex of the cycle. *)
Record BMFace : Type := mkFace { f_verts : list nat; f_edges : list nat }.

Record BMesh : Type := mkBMesh {
  verts : list Vector;        (* bm.verts: coordinates, by vertex index *)
  edges : list (nat * nat);   (* bm.edges: the two end vertices, by edge index *)
  faces : list BMFace         (* bm.faces, by face index *)
}.

Definition bm_empty : BMesh := mkBMesh [] [] [].

(** [bm.verts.new(co)] *)
Definition verts_new {A : Arith} (c : co) : M BMesh nat :=
  fun bm => (Ret (length (verts bm)),
             mkBMesh (verts bm ++ [to_vector c]) (edges bm) (faces bm)).

(** ** Primitives *)

Definition make_rect {A : Arith} (x y z : Q) : M BMesh (list nat) :=
  mapM verts_new
    [ ( x,  y, z);
      (-x,  y, z);
      (-x, -y, z);
      ( x, -y, z) ]%Q.

Definition make_tri {A : Arith} (x y z : Q) : M BMesh (list nat) :=
  mapM verts_new
    [ ( x,  y / 3, z);
      (-x,  y / 3, z);
      ( 0, -y / (3 # 2), z) ]%Q.

(** Component-wise sum and average of a list of coordinates. *)
Definition co_add (c d : co) : co :=
  (co_x c + co_x d, co_y c + co_y d, co_z c + co_z d)%Q.

Definition co_sum (cs : list co) : co := foldr co_add (0, 0, 0)%Q cs.

Definition barycenter (cs : list co) : co :=
  let s := co_sum cs in
  let n := inject_Z (Z.of_nat (length cs)) in
  (co_x s / n, co_y s / n, co_z s / n)%Q.

(** Coordinates of the vertices [vs] in the mesh [bm] ([v.co for v in vs]);
    a vertex that does not exist gives [None]. *)
Definition coords (bm : BMesh) (vs : list nat) : list (option Vector) :=
  map (fun v => verts bm !! v) vs.

(** ** The mesh kernel: edges, faces, duplication

    What [bmesh] does at the calls made by the helpers, on the arena.  An
    element handle that is not an element of the mesh, a repeated vertex in
    an edge or a face, an edge or a face that exists already: the kernel
    raises [ValueError]. *)

Definition is_vert (bm : BMesh) (v : nat) : bool := bool_decide (v < length (verts bm)).
Definition is_edge (bm : BMesh) (e : nat) : bool := bool_decide (e < length (edges bm)).
Definition is_face (bm : BMesh) (f : nat) : bool := bool_decide (f < length (faces bm)).

(** An edge joins [a] and [b], in either direction. *)
Definition joins (a b : nat) (e : nat * nat) : bool :=
  bool_decide (e = (a, b) \/ e = (b, a)).

Fixpoint find_index {A} (p : A -> bool) (l : list A) : option nat :=
  match l with
  | [] => None
  | x :: l' => if p x then Some 0 else S <$> find_index p l'
  end.

Definition find_edge (bm : BMesh) (a b : nat) : option nat :=
  find_index (joins a b) (edges bm).

(** [bm.edges.new((a, b))] *)
Definition edges_new (p : nat * nat) : M BMesh nat :=
  fun bm =>
    let '(a, b) := p in
    if negb (is_vert bm a && is_vert bm b) then (Raise ValueError, bm)
    else if bool_decide (a = b) then (Raise ValueError, bm)
    else if bool_decide (is_Some (find_edge bm a b)) then (Raise ValueError, bm)
    else (Ret (length (edges bm)),
          mkBMesh (verts bm) (edges bm ++ [(a, b)]) (faces bm)).

(** The edge between two corners of a new face: the existing one, or a new
    one. *)
Definition ensure_edge (p : nat * nat) : M BMesh nat :=
  fun bm =>
    match find_edge bm p.1 p.2 with
    | Some e => (Ret e, bm)
    | None => (Ret (length (edges bm)),
               mkBMesh (verts bm) (edges bm ++ [p]) (faces bm))
    end.

(** A face on exactly the vertices [vs], in any order. *)
Definition face_on (vs : list nat) (f : BMFace) : bool :=
  bool_decide (length (f_verts f) = length vs) &&
  forallb (fun v => bool_decide (v ∈ f_verts f)) vs.

Definition face_exists (bm : BMesh) (vs : list nat) : bool :=
  existsb (face_on vs) (faces bm).

(** [bm.faces.new(vs)]: the corners follow [vs]; corner i has the edge from
    [vs[i]] to [vs[(i+1) mod n]]. *)
Definition faces_new (vs : list nat) : M BMesh nat :=
  bm <- get ;;
  if bool_decide (length vs < 3) then raise ValueError
  else if negb (forallb (is_vert bm) vs) then raise ValueError
  else if negb (bool_decide (NoDup vs)) then raise ValueError
  else if face_exists bm vs then raise ValueError
  else
    es <- mapM ensure_edge (zip vs (rotate 1 vs)) ;;
    bm' <- get ;;
    put (mkBMesh (verts bm') (edges bm') (faces bm' ++ [mkFace vs es])) ;;
    ret (length (faces bm')).

(** [f.edges[i]] *)
Definition face_edge (f i : nat) : M BMesh nat :=
  bm <- get ;;
  match faces bm !! f with
  | None => raise ValueError
  | Some fc =>
      match f_edges fc !! i with
      | None => raise IndexError
      | Some e => ret e
      end
  end.

(** Mesh elements of mixed kind, as in the [geom] slot of an operator. *)
Inductive BMElem : Type :=
  | ElemVert (v : nat)
  | ElemEdge (e : nat)
  | ElemFace (f : nat).

#[global] Instance BMElem_eq_dec : EqDecision BMElem.
Proof. solve_decision. Defined.

Definition is_elem (bm : BMesh) (x : BMElem) : bool :=
  match x with
  | ElemVert v => is_vert bm v
  | ElemEdge e => is_edge bm e
  | ElemFace f => is_face bm f
  end.

(** [isinstance(x, bmesh.types.BMVert)] and [isinstance(x, bmesh.types.BMEdge)],
    as filters. *)
Definition as_vert (x : BMElem) : option nat :=
  match x with ElemVert v => Some v | _ => None end.
Definition as_edge (x : BMElem) : option nat :=
  match x with ElemEdge e => Some e | _ => None end.

(** The elements that [bmesh.ops.duplicate] copies for the selection [geom]:
    the selected faces; the selected edges and the edges of the selected
    faces; the selected vertices and the vertices of all these. Each in
    the order of the mesh. *)
Definition dup_faces (bm : BMesh) (geom : list BMElem) : list nat :=
  filter (fun f => ElemFace f ∈ geom) (seq 0 (length (faces bm))).

Definition face_has_edge (bm : BMesh) (e f : nat) : bool :=
  match faces bm !! f with
  | Some fc => bool_decide (e ∈ f_edges fc)
  | None => false
  end.

Definition face_has_vert (bm : BMesh) (v f : nat) : bool :=
  match faces bm !! f with
  | Some fc => bool_decide (v ∈ f_verts fc)
  | None => false
  end.

Definition edge_has_vert (bm : BMesh) (v e : nat) : bool :=
  match edges bm !! e with
  | Some p => bool_decide (v = p.1 \/ v = p.2)
  | None => false
  end.

Definition dup_edges (bm : BMesh) (geom : list BMElem) : list nat :=
  filter (fun e => ElemEdge e ∈ geom \/
                   Exists (fun f => face_has_edge bm e f) (dup_faces bm geom))
         (seq 0 (length (edges bm))).

Definition dup_verts (bm : BMesh) (geom : list BMElem) : list nat :=
  filter (fun v => ElemVert v ∈ geom \/
                   Exists (fun e => edge_has_vert bm v e) (dup_edges bm geom) \/
                   Exists (fun f => face_has_vert bm v f) (dup_faces bm geom))
         (seq 0 (length (verts bm))).

(** The copy of element [x]: the [i]-th copied element gets index
    [base + i]. An element that is not copied keeps its index. *)
Definition copy_of (base : nat) (sel : list nat) (x : nat) : nat :=
  match find_index (fun y => bool_decide (y = x)) sel with
  | Some i => base + i
  | None => x
  end.

(** [bmesh.ops.duplicate(bm, geom=geom)["geom"]] *)
Definition ops_duplicate (geom : list BMElem) : M BMesh (list BMElem) :=
  fun bm =>
    if negb (forallb (is_elem bm) geom) then (Raise ValueError, bm)
    else if negb (bool_decide (NoDup geom)) then (Raise ValueError, bm)
    else
      let vsel := dup_verts bm geom in
      let esel := dup_edges bm geom in
      let fsel := dup_faces bm geom in
      let nv := length (verts bm) in
      let ne := length (edges bm) in
      let nf := length (faces bm) in
      let cv := copy_of nv vsel in
      let ce := copy_of ne esel in
      let new_verts := omap (fun v => verts bm !! v) vsel in
      let new_edges := omap (fun e => prod_map cv cv <$> edges bm !! e) esel in
      let new_faces :=
        omap (fun f => (fun fc => mkFace (cv <$> f_verts fc) (ce <$> f_edges fc))
                         <$> faces bm !! f) fsel in
      (Ret ((ElemVert <$> seq nv (length vsel)) ++
            (ElemEdge <$> seq ne (length esel)) ++
            (ElemFace <$> seq nf (length fsel))),
       mkBMesh (verts bm ++ new_verts) (edges bm ++ new_edges)
               (faces bm ++ new_faces)).

(** [v.co.z = z] *)
Definition set_co_z {A : Arith} (v : nat) (z : Q) : M BMesh unit :=
  fun bm =>
    match verts bm !! v with
    | None => (Raise ReferenceError, bm)
    | Some c => (Ret tt,
                 mkBMesh (<[v := (vec_x c, vec_y c, store z)]> (verts bm))
                         (edges bm) (faces bm))
    end.

(** ** [iterutils]

    Modelled from the spec: [lib/iterutils.py] is not among the sources.
    [pairwise_cyclic] gives, for a ring, vertex i with vertex (i+1) mod N
    (spec 4.2, [make_edges]); [quadwise_cyclic] gives, for two rings, the
    quad on the consecutive pairs i, (i+1) mod N of both, wound so that its
    second edge is the rung from ring A to ring B at position i (spec 4.2,
    [bridge_verts]). As with Python's [zip], the result is as long as the
    shortest argument. *)
Definition pairwise_cyclic {A} (a : list A) : list (A * A) :=
  zip a (rotate 1 a).

Definition quadwise_cyclic {A} (a1 b1 : list A) : list (list A) :=
  zip_with (fun p q => [p.1; p.2; q.1; q.2])
           (zip (rotate 1 a1) a1) (zip b1 (rotate 1 b1)).

(** ** Tools *)

Definition make_edges (verts : list nat) : M BMesh (list nat) :=
  mapM edges_new (pairwise_cyclic verts).

(** The dictionary [{"faces": faces, "edges": edges}]. *)
Record Bridge : Type := mkBridge { br_faces : list nat; br_edges : list nat }.

Definition bridge_verts (v1 v2 : list nat) : M BMesh Bridge :=
  faces <- mapM faces_new (quadwise_cyclic v1 v2) ;;
  edges <- mapM (fun f => face_edge f 1) faces ;;
  ret (mkBridge faces edges).

Definition duplicate_verts {A : Arith} (verts : list nat) (z : option Q)
    : M BMesh (list nat) :=
  dup <- ops_duplicate (ElemVert <$> verts) ;;
  let verts := omap as_vert dup in
  match z with
  | Some z => forM_ verts (fun v => set_co_z v z)
  | None => ret tt
  end ;;
  ret verts.

Definition duplicate_edges {A : Arith} (edges : list nat) (z : option Q)
    : M BMesh (list nat) :=
  dup <- ops_duplicate (ElemEdge <$> edges) ;;
  let edges := omap as_edge dup in
  match z with
  | Some z => forM_ (omap as_vert dup) (fun v => set_co_z v z)
  | None => ret tt
  end ;;
  ret edges.

(** The connections of a ring, by index arithmetic: vertex i with vertex
    (i+1) mod N, for i = 0 .. N-1. *)
Definition ring_pairs (vs : list nat) : list (nat * nat) :=
  (fun i => (vs !!! i, vs !!! ((i + 1) mod length vs))) <$> seq 0 (length vs).

(** [vs] is a ring, or a selection, of vertices of the mesh [bm]: pairwise
    distinct vertices of [bm]. *)
Definition verts_of (bm : BMesh) (vs : list nat) : Prop :=
  NoDup vs /\ Forall (fun v => v < length (verts bm)) vs.

(** The end vertices of the edges [es] in [bm] ([e.verts for e in es]). *)
Definition edge_ends (bm : BMesh) (es : list nat) : list (option (nat * nat)) :=
  (fun e => edges bm !! e) <$> es.

(** Two triangles, one above the other: vertices 0, 1, 2 at height 0 and
    3, 4, 5 at height 1; no edge, no face. *)
Definition prism_verts : BMesh :=
  snd ((make_tri (A:=ieee) 1 1 0 ;; make_tri (A:=ieee) 1 1 1) bm_empty).

(** Four vertices, the corners of a rectangle. *)
Definition rect_verts : BMesh := snd (make_rect (A:=ieee) 1 1 0 bm_empty).

(** ** Loops and [edge_loop_expand]

    The navigation queries of the kernel on loops (face corners).  In a
    [BMesh] every loop has a next and a previous loop around its face and
    around its edge, so these are total; [e.link_loops] is a sequence, empty
    for an edge that borders no face. *)
Class Loops (L E : Type) : Type := {
  link_loops : E -> list L;
  link_loop_next : L -> L;
  link_loop_prev : L -> L;
  link_loop_radial_next : L -> L;
  link_loop_radial_prev : L -> L;
  loop_edge : L -> E
}.

(** [range(lo, hi)] *)
Definition py_range (lo hi : Z) : list Z :=
  (fun i => lo + Z.of_nat i)%Z <$> seq 0 (Z.to_nat (hi - lo)).

(** The default value of the parameter [limit]. *)
Definition limit_default : Z := 0.

Section EdgeLoop.
Context {L E : Type} `{Loops L E}.

(** One turn of the loop body, on [(loop_next, loop_prev, edges)]. *)
Definition expand_step (st : L * L * list E) (_ : Z) : L * L * list E :=
  let '(loop_next, loop_prev, edges) := st in
  let loop_next := link_loop_next (link_loop_radial_next (link_loop_next loop_next)) in
  let loop_prev := link_loop_prev (link_loop_radial_prev (link_loop_prev loop_prev)) in
  (loop_next, loop_prev, (edges ++ [loop_edge loop_next]) ++ [loop_edge loop_prev]).

Definition edge_loop_expand (e : E) (limit : Z) : outcome (list E) :=
  match link_loops e !! 0 with
  | None => Raise IndexError
  | Some loop =>
      Ret (snd (foldl expand_step (loop, loop, [e]) (py_range 1 limit)))
  end.
End EdgeLoop.

(** The loops of an arena mesh: loop [(f, i)] is corner [i] of face [f].
    A new face links its loop into the radial cycle of each of its edges
    behind the loop that was the first of the edge, and makes it the first.
    So [e.link_loops], which follows [link_loop_radial_next] from the
    first loop, gives the loop of the face made last and then the loops of
    the other faces, from the one made first on. *)
Definition bm_loop_edge (bm : BMesh) (l : nat * nat) : option nat :=
  fc ← faces bm !! fst l; f_edges fc !! snd l.

Definition bm_loops (bm : BMesh) : list (nat * nat) :=
  mjoin (imap (fun f fc => (fun i => (f, i)) <$> seq 0 (length (f_verts fc))) (faces bm)).

Definition bm_link_loops (bm : BMesh) (e : nat) : list (nat * nat) :=
  let made := filter (fun l => bm_loop_edge bm l = Some e) (bm_loops bm) in
  rotate (length made - 1) made.

Definition corners (bm : BMesh) (f : nat) : nat :=
  from_option (fun fc => length (f_verts fc)) 0 (faces bm !! f).

(** The element after [x] in the cycle [l]. *)
Definition cycle_next {A} `{EqDecision A} (l : list A) (x : A) : A :=
  match find_index (fun y => bool_decide (y = x)) l with
  | Some i => default x (l !! ((i + 1) mod length l))
  | None => x
  end.

Definition bm_radial (bm : BMesh) (l : nat * nat) : list (nat * nat) :=
  from_option (bm_link_loops bm) [] (bm_loop_edge bm l).

Definition BMesh_loops (bm : BMesh) : Loops (nat * nat) nat := {|
  link_loops := bm_link_loops bm;
  link_loop_next l := (l.1, (l.2 + 1) mod corners bm l.1);
  link_loop_prev l := (l.1, (l.2 + corners bm l.1 - 1) mod corners bm l.1);
  link_loop_radial_next l := cycle_next (bm_radial bm l) l;
  link_loop_radial_prev l := cycle_next (reverse (bm_radial bm l)) l;
  loop_edge l := default 0 (bm_loop_edge bm l)
|}.

(** A strip of three quads side by side: vertices 0..3 along the bottom,
    4..7 along the top; face k is [k, k+1, k+5, k+4]. *)
Definition strip : BMesh :=
  snd ((mapM (verts_new (A:=ieee))
     [(0, 0, 0); (1, 0, 0); (2, 0, 0); (3, 0, 0);
      (0, 1, 0); (1, 1, 0); (2, 1, 0); (3, 1, 0)]%Q ;;
   mapM faces_new [[0; 1; 5; 4]; [1; 2; 6; 5]; [2; 3; 7; 6]]) bm_empty).

(** Two vertices and the edge between them; no face. *)
Definition wire : BMesh :=
  snd ((mapM (verts_new (A:=ieee)) [(0, 0, 0); (1, 0, 0)]%Q ;; edges_new (0, 1)) bm_empty).

(** ** Scene objects and the evaluation kernel

    [est_volume] and [est_curve_length] work on the scene: the datablocks
    of [bpy.data], to which objects refer by name (so two references to one
    datablock see each other's writes), the temporary meshes that
    [ob_eval.to_mesh()] hands out until [ob_eval.to_mesh_clear()], and the
    [BMesh] objects that [bmesh.new()] hands out until [bm.free()].

    The geometry itself (modifier evaluation, transforms, triangulation,
    volume and length) is the host's: a [Kernel] gives it, and any of its
    operations may raise. *)

(** A Python value as it is stored in the [settings] dictionary. *)
Inductive PyVal : Type :=
  | PyNone
  | PyFloat (q : Q)
  | PyObject (name : string).

(** A dictionary with string keys, in insertion order. *)
Abbreviation dict := (list (string * PyVal)).

Fixpoint dict_set (d : dict) (k : string) (v : PyVal) : dict :=
  match d with
  | [] => [(k, v)]
  | (k', v') :: d' =>
      if bool_decide (k' = k) then (k', v) :: d' else (k', v') :: dict_set d' k v
  end.

Section Measurement.
Context {Geometry Matrix Spline : Type}.

Record Curve : Type := mkCurve {
  bevel_object : option string;
  bevel_depth : Q;
  extrude : Q;
  splines : list Spline
}.

Inductive ID : Type :=
  | IDCurve (c : Curve)
  | IDMesh (g : Geometry).

Record Object : Type := mkObject {
  ob_name : string;
  ob_data : option string;      (* ob.data, by name; None for an empty *)
  modifiers : list string;
  matrix_world : Matrix
}.

Record Scene : Type := mkScene {
  bpy_data : gmap string ID;             (* datablocks, by name *)
  temp_meshes : gmap string Geometry;    (* live to_mesh() results, by object *)
  bmeshes : list (option Geometry)       (* BMesh by handle; None once freed *)
}.

Record Kernel : Type := mkKernel {
  (* ob.evaluated_get(depsgraph).to_mesh() *)
  evaluated_mesh : gmap string ID -> Object -> outcome Geometry;
  (* me.transform(matrix) *)
  mesh_transform : Matrix -> Geometry -> outcome Geometry;
  (* the content of bmesh.new() *)
  bm_new : Geometry;
  (* bm.from_mesh(me): the content of bm afterwards *)
  bm_from_mesh : Geometry -> Geometry -> outcome Geometry;
  (* bmesh.ops.triangulate(bm, faces=bm.faces, quad_method="SHORT_EDGE") *)
  bm_triangulate : Geometry -> outcome Geometry;
  (* bm.calc_volume() *)
  bm_calc_volume : Geometry -> outcome Q;
  (* len(bm.edges) and bm.edges[i].calc_length() *)
  bm_edge_count : Geometry -> nat;
  edge_calc_length : Geometry -> nat -> outcome Q;
  (* curve.transform(matrix) and spline.calc_length() *)
  curve_transform : Matrix -> Curve -> outcome Curve;
  spline_calc_length : Spline -> outcome Q
}.

Variable K : Kernel.

(** [getattr(curve, k)] and [setattr(curve, k, v)] for the three
    properties. *)
Definition curve_getattr (c : Curve) (k : string) : outcome PyVal :=
  if bool_decide (k = "bevel_object") then
    Ret (from_option PyObject PyNone (bevel_object c))
  else if bool_decide (k = "bevel_depth") then Ret (PyFloat (bevel_depth c))
  else if bool_decide (k = "extrude") then Ret (PyFloat (extrude c))
  else Raise AttributeError.

Definition curve_setattr (c : Curve) (k : string) (v : PyVal) : outcome Curve :=
  if bool_decide (k = "bevel_object") then
    match v with
    | PyNone => Ret (mkCurve None (bevel_depth c) (extrude c) (splines c))
    | PyObject o => Ret (mkCurve (Some o) (bevel_depth c) (extrude c) (splines c))
    | PyFloat _ => Raise TypeError
    end
  else if bool_decide (k = "bevel_depth") then
    match v with
    | PyFloat q => Ret (mkCurve (bevel_object c) q (extrude c) (splines c))
    | _ => Raise TypeError
    end
  else if bool_decide (k = "extrude") then
    match v with
    | PyFloat q => Ret (mkCurve (bevel_object c) (bevel_depth c) q (splines c))
    | _ => Raise TypeError
    end
  else Raise AttributeError.

(** [ob.data], which must be a curve. *)
Definition ob_curve (ob : Object) : M Scene (string * Curve) :=
  fun s =>
    match ob_data ob with
    | None => (Raise AttributeError, s)
    | Some d =>
        match bpy_data s !! d with
        | Some (IDCurve c) => (Ret (d, c), s)
        | _ => (Raise AttributeError, s)
        end
    end.

(** [ob.data], of any kind; an empty has none, and nothing can be asked
    of [None]. *)
Definition ob_datablock (ob : Object) : M Scene (string * ID) :=
  fun s =>
    match ob_data ob with
    | None => (Raise AttributeError, s)
    | Some d =>
        match bpy_data s !! d with
        | Some i => (Ret (d, i), s)
        | None => (Raise AttributeError, s)
        end
    end.

(** [data.transform(matrix)], which curves and meshes both have. *)
Definition id_transform (m : Matrix) (i : ID) : outcome ID :=
  match i with
  | IDCurve c =>
      match curve_transform K m c with
      | Ret c' => Ret (IDCurve c')
      | Raise e => Raise e
      end
  | IDMesh g =>
      match mesh_transform K m g with
      | Ret g' => Ret (IDMesh g')
      | Raise e => Raise e
      end
  end.

(** [getattr(ob.data, k)] *)
Definition data_getattr (ob : Object) (k : string) : M Scene PyVal :=
  dc <- ob_curve ob ;; lift (curve_getattr dc.2 k).

(** [setattr(ob.data, k, v)] *)
Definition data_setattr (ob : Object) (k : string) (v : PyVal) : M Scene unit :=
  dc <- ob_curve ob ;;
  c' <- lift (curve_setattr dc.2 k v) ;;
  fun s => (Ret tt, mkScene (<[dc.1 := IDCurve c']> (bpy_data s))
                             (temp_meshes s) (bmeshes s)).

(** [me = ob.evaluated_get(depsgraph).to_mesh()] *)
Definition to_mesh (ob : Object) : M Scene unit :=
  fun s =>
    match evaluated_mesh K (bpy_data s) ob with
    | Raise e => (Raise e, s)
    | Ret g => (Ret tt, mkScene (bpy_data s) (<[ob_name ob := g]> (temp_meshes s))
                                (bmeshes s))
    end.

(** [me.transform(ob.matrix_world)] *)
Definition transform_mesh (ob : Object) : M Scene unit :=
  fun s =>
    match temp_meshes s !! ob_name ob with
    | None => (Raise ReferenceError, s)
    | Some g =>
        match mesh_transform K (matrix_world ob) g with
        | Raise e => (Raise e, s)
        | Ret g' => (Ret tt, mkScene (bpy_data s) (<[ob_name ob := g']> (temp_meshes s))
                                     (bmeshes s))
        end
    end.

(** [ob_eval.to_mesh_clear()] *)
Definition to_mesh_clear (ob : Object) : M Scene unit :=
  fun s => (Ret tt, mkScene (bpy_data s) (delete (ob_name ob) (temp_meshes s))
                            (bmeshes s)).

(** [bm = bmesh.new()] *)
Definition bmesh_new : M Scene nat :=
  fun s => (Ret (length (bmeshes s)),
            mkScene (bpy_data s) (temp_meshes s) (bmeshes s ++ [Some (bm_new K)])).

(** The content of the live BMesh [bm]. *)
Definition bm_content (bm : nat) : M Scene Geometry :=
  fun s =>
    match bmeshes s !! bm with
    | Some (Some g) => (Ret g, s)
    | _ => (Raise ReferenceError, s)
    end.

Definition bm_store (bm : nat) (g : option Geometry) : M Scene unit :=
  fun s => (Ret tt, mkScene (bpy_data s) (temp_meshes s) (<[bm := g]> (bmeshes s))).

(** [bm.from_mesh(me)] *)
Definition from_mesh (bm : nat) (ob : Object) : M Scene unit :=
  g <- bm_content bm ;;
  s <- get ;;
  match temp_meshes s !! ob_name ob with
  | None => raise ReferenceError
  | Some me => g' <- lift (bm_from_mesh K g me) ;; bm_store bm (Some g')
  end.

(** [bm.free()] *)
Definition bm_free (bm : nat) : M Scene unit :=
  bm_content bm ;; bm_store bm None.

(** [depsgraph = bpy.context.evaluated_depsgraph_get()] has no step of its
    own: the evaluation of an object reads the datablocks as they are when
    [to_mesh] runs, and no datablock changes between the two. *)
Definition est_volume (obs : list Object) : M Scene Q :=
  bm <- bmesh_new ;;
  forM_ obs (fun ob =>
    to_mesh ob ;;
    transform_mesh ob ;;
    from_mesh bm ob ;;
    to_mesh_clear ob) ;;
  g <- bm_content bm ;;
  g' <- lift (bm_triangulate K g) ;;
  bm_store bm (Some g') ;;
  vol <- lift (bm_calc_volume K g') ;;
  bm_free bm ;;
  ret vol.

(** [for x in xs: length += f(x)] *)
Fixpoint sum_lengths {A} (f : A -> outcome Q) (xs : list A) (length : Q)
    : M Scene Q :=
  match xs with
  | [] => ret length
  | x :: xs' => l <- lift (f x) ;; sum_lengths f xs' (length + l)%Q
  end.

(** The first loop over [settings.items()]: each property is read, set to
    the value in the dictionary, and its old value is put in the
    dictionary. [todo] are the items not yet visited. *)
Fixpoint reset_curve (ob : Object) (todo settings : dict) : M Scene dict :=
  match todo with
  | [] => ret settings
  | (k, v) :: todo' =>
      x <- data_getattr ob k ;;
      data_setattr ob k v ;;
      reset_curve ob todo' (dict_set settings k x)
  end.

Definition est_curve_length (ob : Object) : M Scene Q :=
  if bool_decide (modifiers ob <> []) then
    (* Reset curve *)
    let settings : dict :=
      [("bevel_object", PyNone); ("bevel_depth", PyFloat 0); ("extrude", PyFloat 0)] in
    settings <- reset_curve ob settings settings ;;
    (* Calculate length *)
    to_mesh ob ;;
    transform_mesh ob ;;
    bm <- bmesh_new ;;
    from_mesh bm ob ;;
    to_mesh_clear ob ;;
    g <- bm_content bm ;;
    length <- sum_lengths (edge_calc_length K g) (seq 0 (bm_edge_count K g)) 0 ;;
    bm_free bm ;;
    (* Restore curve *)
    forM_ settings (fun kv => data_setattr ob kv.1 kv.2) ;;
    ret length
  else
    (* curve = ob.data.copy(): the datablock is copied whatever its kind *)
    di <- ob_datablock ob ;;
    s <- get ;;
    let curve := fresh (dom (bpy_data s)) in
    put (mkScene (<[curve := di.2]> (bpy_data s)) (temp_meshes s) (bmeshes s)) ;;
    (* curve.transform(ob.matrix_world) *)
    i' <- lift (id_transform (matrix_world ob) di.2) ;;
    s <- get ;;
    put (mkScene (<[curve := i']> (bpy_data s)) (temp_meshes s) (bmeshes s)) ;;
    match i' with
    | IDMesh _ =>
        (* curve.splines: a mesh has no splines *)
        raise AttributeError
    | IDCurve c' =>
        length <- sum_lengths (spline_calc_length K) (splines c') 0 ;;
        (* bpy.data.curves.remove(curve) *)
        s <- get ;;
        put (mkScene (delete curve (bpy_data s)) (temp_meshes s) (bmeshes s)) ;;
        ret length
    end.
End Measurement.

Arguments Curve : clear implicits.
Arguments ID : clear implicits.
Arguments Object : clear implicits.
Arguments Scene : clear implicits.
Arguments Kernel : clear implicits.

(** A small host, for running the tools: a geometry is its number of
    edges. An object without data (an empty) has no geometry, and
    [to_mesh()] raises [RuntimeError] for it; a curve gives two edges per
    spline, and eight once it has a bevel or an extrusion. *)
Definition host_evaluated_mesh (D : gmap string (ID nat Q)) (ob : Object unit)
    : outcome nat :=
  match ob_data ob with
  | None => Raise RuntimeError
  | Some d =>
      match D !! d with
      | Some (IDMesh g) => Ret g
      | Some (IDCurve c) =>
          if bool_decide (bevel_object c = None) && Qeq_bool (bevel_depth c) 0
             && Qeq_bool (extrude c) 0
          then Ret (2 * length (splines c))
          else Ret (8 * length (splines c))
      | None => Raise ReferenceError
      end
  end.

Definition host : Kernel nat unit Q := {|
  evaluated_mesh := host_evaluated_mesh;
  mesh_transform _ g := Ret g;
  bm_new := 0;
  bm_from_mesh g me := Ret (g + me);
  bm_triangulate g := Ret g;
  bm_calc_volume g := Ret (inject_Z (Z.of_nat g));
  bm_edge_count g := g;
  edge_calc_length _ _ := Ret 1%Q;
  curve_transform _ c := Ret c;
  spline_calc_length sp := Ret sp
|}.

(** The same host, with a failure injected in the middle of the summation
    of the edge lengths: the second [edge.calc_length()] raises. *)
Definition host_fault : Kernel nat unit Q := {|
  evaluated_mesh := host_evaluated_mesh;
  mesh_transform _ g := Ret g;
  bm_new := 0;
  bm_from_mesh g me := Ret (g + me);
  bm_triangulate g := Ret g;
  bm_calc_volume g := Ret (inject_Z (Z.of_nat g));
  bm_edge_count g := g;
  edge_calc_length _ i := if bool_decide (i = 1) then Raise MemoryError else Ret 1%Q;
  curve_transform _ c := Ret c;
  spline_calc_length sp := Ret sp
|}.

(** A scene: a cube mesh, a beveled and extruded curve with two splines
    carrying an array modifier, and an empty. *)
Definition ring_curve : Curve Q :=
  mkCurve (Some "Profile") (1 # 2) (1 # 4) [3; 5]%Q.

Definition scene0 : Scene nat Q :=
  mkScene (<["Curve" := IDCurve ring_curve]> (<["Cube" := IDMesh 12]> ∅)) ∅ [].

Definition cube_ob : Object unit := mkObject "Cube" (Some "Cube") [] tt.
Definition ring_ob : Object unit := mkObject "Ring" (Some "Curve") ["Array"] tt.
Definition empty_ob : Object unit := mkObject "Empty" None [] tt.

(** ** [localization.py] *)

(** A dictionary display [{k1: v1, k2: v2, ...}]: the items are inserted
    from left to right, a later item replacing an earlier one with the
    same key. *)
Definition dict_literal {V} (items : list (string * V)) : gmap string V :=
  foldl (fun m kv => <[kv.1 := kv.2]> m) ∅ items.

Definition locale_EN : list (string * string) :=
  [ ("prongs", "Prongs");
    ("cutter", "Cutter");
    ("make_gem", "Make Gemstone");
    ("make_dupliface", "Make Dupli-face");
    ("export_options", "Export Options");
    ("metals", "Metals");
    ("export_stats", "Export Stats");
    ("size", "Size");
    ("shank", "Shank");
    ("dim", "Dimensions");
    ("weight", "Weight");
    ("t_size", "Size:");
    ("t_width", "Width:");
    ("t_thickness", "Thickness:");
    ("t_dim", "Dimensions:");
    ("t_weight", "Weight:");
    ("t_settings", "Settings:");
    ("type", "Type");
    ("cut", "Cut");
    ("qty", "Qty");
    ("items", "items");
    ("mm", "mm");
    ("g", "g");
    ("ct", "ct");
    ("g/cm", "g/cm³:");
    ("24kt", "24kt Gold");
    ("22kt", "22kt Gold");
    ("18kt_white", "18kt White gold");
    ("14kt_white", "14kt White gold");
    ("18kt_yellow", "18kt Yellow gold");
    ("14kt_yellow", "14kt Yellow gold");
    ("silver", "Silver");
    ("palladium", "Palladium");
    ("platinum", "Platinum");
    ("custom", "Custom density:");
    ("custom_name", "Material:");
    ("diamond", "Diamond");
    ("zircon", "Zircon");
    ("topaz", "Topaz");
    ("emerald", "Emerald");
    ("ruby", "Ruby");
    ("sapphire", "Sapphire");
    ("round", "Round");
    ("oval", "Oval");
    ("pearl", "Pearl");
    ("marquise", "Marquise");
    ("baguette", "Baguette");
    ("square", "Square");
    ("error_file", "First save your blend file");
    ("error_digit", "Value should be numeric") ].

Definition locale_RU : list (string * string) :=
  [ ("prongs", "Крапана");
    ("cutter", "Выборка");
    ("make_gem", "Создать Камень");
    ("make_dupliface", "Создать Dupli-face");
    ("export_options", "Опции Экспорта");
    ("metals", "Металлы");
    ("export_stats", "Экспорт Статистики");
    ("size", "Размер");
    ("shank", "Шинка");
    ("dim", "Габариты");
    ("weight", "Вес");
    ("t_size", "Размер:");
    ("t_width", "Ширина:");
    ("t_thickness", "Толщина:");
    ("t_dim", "Габариты:");
    ("t_weight", "Вес:");
    ("t_settings", "Вставки:");
    ("type", "Тип");
    ("cut", "Огранка");
    ("qty", "Количество");
    ("items", "шт.");
    ("mm", "мм");
    ("g", "г");
    ("ct", "кар");
    ("g/cm", "г/см³:");
    ("24kt", "999 Золото");
    ("22kt", "916 Золото");
    ("18kt_white", "750 Белое золото");
    ("14kt_white", "585 Белое золото");
    ("18kt_yellow", "750 Жёлтое золото");
    ("14kt_yellow", "585 Жёлтое золото");
    ("silver", "Cеребро");
    ("palladium", "Палладий");
    ("platinum", "Платина");
    ("custom", "Произвольная плотность:");
    ("custom_name", "Материал:");
    ("diamond", "Бриллиант");
    ("zircon", "Фианит");
    ("topaz", "Топаз");
    ("emerald", "Изумруд");
    ("ruby", "Рубин");
    ("sapphire", "Сапфир");
    ("round", "Кр-57");
    ("oval", "Овал");
    ("pearl", "Груша");
    ("marquise", "Маркиз");
    ("baguette", "Багет");
    ("square", "Квадрат");
    ("error_file", "Сначала сохраните ваш blend файл");
    ("error_digit", "Значение должно быть числовым") ].

Definition locale : gmap string (gmap string string) :=
  dict_literal [("EN", dict_literal locale_EN); ("RU", dict_literal locale_RU)].

(** ** Predicates of the statements and proofs *)

(** The pairs [ps] can be added as new edges one after the other. *)
Fixpoint addable (nv : nat) (es ps : list (nat * nat)) : Prop :=
  match ps with
  | [] => True
  | p :: ps' =>
      p.1 < nv /\ p.2 < nv /\ p.1 <> p.2 /\
      (forall e, e ∈ es -> joins p.1 p.2 e = false) /\
      addable nv (es ++ [p]) ps'
  end.

(** The edge of corner [k] joins the two vertices that [p] names. *)
Definition corner_edge (es : list (nat * nat)) (e : nat) (p : nat * nat) : Prop :=
  exists p', es !! e = Some p' /\ joins p.1 p.2 p' = true.

(** What a created face looks like: its corners follow [q], and the edge of
    corner [k] joins [q[k]] and [q[(k+1) mod n]]. *)
Definition face_of (es : list (nat * nat)) (fc : BMFace) (q : list nat) : Prop :=
  f_verts fc = q /\ Forall2 (corner_edge es) (f_edges fc) (pairwise_cyclic q).

(** The quads [qs] can be added as new faces one after the other. *)
Definition quads_ok (bm : BMesh) (qs : list (list nat)) : Prop :=
  (forall q, q ∈ qs ->
     3 <= length q /\ Forall (fun v => v < length (verts bm)) q /\ NoDup q /\
     face_exists bm q = false) /\
  (forall i j q r fc, i < j -> qs !! i = Some q -> qs !! j = Some r ->
     f_verts fc = q -> face_on r fc = false).

(** The vector [c] with its third component replaced by [z]. *)
Definition with_z (z : scalar) (c : Vector) : Vector := (vec_x c, vec_y c, z).

(** [hoare P m Qr Qe]: from a store where [P] holds, [m] ends either by
    returning [a] in a store where [Qr a] holds or by raising [e] in a store
    where [Qe e] holds. *)
Definition hoare {S A} (P : S -> Prop) (m : M S A)
    (Qr : A -> S -> Prop) (Qe : exn -> S -> Prop) : Prop :=
  forall s, P s ->
    match m s with
    | (Ret a, s') => Qr a s'
    | (Raise e, s') => Qe e s'
    end.

(** [m] keeps [I] whatever way it ends. *)
Definition preserves {S A} (I : S -> Prop) (m : M S A) : Prop :=
  hoare I m (fun _ => I) (fun _ => I).

(** The curve with the three properties at their reset values. *)
Definition reset_of {Spline : Type} (c : Curve Spline) : Curve Spline :=
  mkCurve None 0 0 (splines c).

(** The three properties of [c'] are those of [c]. *)
Definition same_settings {Spline : Type} (c c' : Curve Spline) : Prop :=
  bevel_object c' = bevel_object c /\
  bevel_depth c' = bevel_depth c /\
  extrude c' = extrude c.

(** During [est_volume] from the scene [s0]: the BMesh made by the call is
    live, and no datablock has changed. *)
Definition vol_live {Geometry Spline : Type} (s0 s : Scene Geometry Spline) : Prop :=
  bpy_data s = bpy_data s0 /\
  exists g, bmeshes s = bmeshes s0 ++ [Some g].

(** In addition: the objects [pre] have been visited, their temporary
    meshes are cleared, and no other temporary mesh has changed. *)
Definition vol_inv {Geometry Matrix Spline : Type} (s0 : Scene Geometry Spline)
    (pre : list (Object Matrix)) (s : Scene Geometry Spline) : Prop :=
  vol_live s0 s /\
  forall n, temp_meshes s !! n =
            if decide (n ∈ ob_name <$> pre) then None else temp_meshes s0 !! n.

(** The values saved in [settings] by the first loop of
    [est_curve_length]. *)
Definition saved {Spline : Type} (c : Curve Spline) : dict :=
  [("bevel_object", from_option PyObject PyNone (bevel_object c));
   ("bevel_depth", PyFloat (bevel_depth c));
   ("extrude", PyFloat (extrude c))].

(** ** What the measurements compute

    The values of [est_volume] and [est_curve_length] as functions of the
    datablocks alone, without the scene's temporary meshes and BMeshes. *)

Section MeasurementValues.
Context {Geometry Matrix Spline : Type} (K : Kernel Geometry Matrix Spline).

(** The merged mesh after the objects [obs] have been loaded into [g], one
    after the other: each is evaluated, moved to world space and added. *)
Fixpoint merged_mesh (D : gmap string (ID Geometry Spline))
    (obs : list (Object Matrix)) (g : Geometry) : outcome Geometry :=
  match obs with
  | [] => Ret g
  | ob :: obs' =>
      match evaluated_mesh K D ob with
      | Raise e => Raise e
      | Ret me =>
          match mesh_transform K (matrix_world ob) me with
          | Raise e => Raise e
          | Ret me' =>
              match bm_from_mesh K g me' with
              | Raise e => Raise e
              | Ret g' => merged_mesh D obs' g'
              end
          end
      end
  end.

(** The volume of the triangulated merged mesh of [obs]. *)
Definition volume_of (D : gmap string (ID Geometry Spline))
    (obs : list (Object Matrix)) : outcome Q :=
  match merged_mesh D obs (bm_new K) with
  | Raise e => Raise e
  | Ret g =>
      match bm_triangulate K g with
      | Raise e => Raise e
      | Ret g' => bm_calc_volume K g'
      end
  end.
End MeasurementValues.


(** [ob.data] is a curve datablock of the scene [s]. *)
Definition has_curve {Geometry Matrix Spline : Type}
    (s : Scene Geometry Spline) (ob : Object Matrix) : Prop :=
  exists d c, ob_data ob = Some d /\ bpy_data s !! d = Some (IDCurve c).

(** ** The steps of [edge_loop_expand] *)

Section EdgeLoopSteps.
Context {L E : Type} `{Loops L E}.

(** One step along the edge loop: [l.link_loop_next.link_loop_radial_next
    .link_loop_next], and the same with [prev]. *)
Definition loop_forward (l : L) : L :=
  link_loop_next (link_loop_radial_next (link_loop_next l)).
Definition loop_backward (l : L) : L :=
  link_loop_prev (link_loop_radial_prev (link_loop_prev l)).

(** The edges [n] steps away from [loop] at most: for k = 1 .. n, the edge
    k steps forward, then the edge k steps backward. *)
Definition expansion (loop : L) (n : nat) : list E :=
  flat_map (fun k => [loop_edge (Nat.iter k loop_forward loop);
                      loop_edge (Nat.iter k loop_backward loop)])
           (seq 1 n).
End EdgeLoopSteps.

(** ** [edge_loop_walk]

    The queries of the kernel on a vertex and on an edge that the walk
    uses: the edges at a vertex ([v.link_edges]), the other end of an edge
    ([e.other_vert(v)], [None] when [v] is no end of [e]), and the
    coordinate of a vertex. *)
Class VertLinks (V E : Type) : Type := {
  link_edges : V -> list E;
  other_vert : E -> V -> option V;
  vert_co : V -> Vector
}.

Section EdgeWalk.
Context {V E : Type} `{EqDecision E} `{VertLinks V E}.

(** The inner loop: the first edge of [es] other than [e]; [e] itself when
    there is none. *)
Fixpoint next_edge (e : E) (es : list E) : E :=
  match es with
  | [] => e
  | oe :: es' => if bool_decide (oe <> e) then oe else next_edge e es'
  end.

(** [n] turns of the outer loop, from vertex [v] and edge [e]. With [ov]
    being [None], [ov.co] raises [AttributeError]. *)
Fixpoint walk_steps (n : nat) (v : V) (e : E) (coords : list Vector)
    : outcome (list Vector) :=
  match n with
  | 0 => Ret coords
  | S n' =>
      match other_vert e v with
      | None => Raise AttributeError
      | Some ov =>
          walk_steps n' ov (next_edge e (link_edges ov)) (coords ++ [vert_co ov])
      end
  end.

Definition edge_loop_walk (verts : list V) : outcome (list Vector) :=
  match verts !! 0 with
  | None => Raise IndexError
  | Some v =>
      match link_edges v !! 1 with
      | None => Raise IndexError
      | Some e => walk_steps (length verts - 1) v e [vert_co v]
      end
  end.

(** What the kernel keeps: an edge listed at a vertex has another end, and
    is listed at that end too. *)
Definition links_closed : Prop :=
  forall v e, e ∈ link_edges v ->
    exists ov, other_vert e v = Some ov /\ e ∈ link_edges ov.

(** Two vertices are joined by an edge. *)
Definition joined (a b : V) : Prop :=
  exists e, e ∈ link_edges a /\ other_vert e a = Some b.

(** A walk: each vertex is joined to the next one. *)
Definition is_walk (ws : list V) : Prop :=
  forall i a b, ws !! i = Some a -> ws !! (S i) = Some b -> joined a b.
End EdgeWalk.

(** The vertex queries of an arena mesh. The edges at a vertex are listed
    in the order of their creation. *)
Definition bm_link_edges (bm : BMesh) (v : nat) : list nat :=
  filter (fun e => edge_has_vert bm v e) (seq 0 (length (edges bm))).

Definition bm_other_vert (bm : BMesh) (e v : nat) : option nat :=
  match edges bm !! e with
  | Some (a, b) =>
      if bool_decide (v = a) then Some b
      else if bool_decide (v = b) then Some a
      else None
  | None => None
  end.

Definition BMesh_links (bm : BMesh) : VertLinks nat nat := {|
  link_edges := bm_link_edges bm;
  other_vert := bm_other_vert bm;
  vert_co v := default (Finite 0, Finite 0, Finite 0) (verts bm !! v)
|}.

(** The rectangle with its four ring edges. *)
Definition rect_ring : BMesh :=
  snd ((vs <- make_rect (A:=ieee) 2 1 0 ;; make_edges vs) bm_empty).

(** ** Well-formed meshes *)

(** Every edge ends at two vertices of the mesh. *)
Definition edges_closed (bm : BMesh) : Prop :=
  Forall (fun p => p.1 < length (verts bm) /\ p.2 < length (verts bm)) (edges bm).

(** Every face has its corners at vertices of the mesh. *)
Definition faces_closed (bm : BMesh) : Prop :=
  Forall (fun fc => Forall (fun v => v < length (verts bm)) (f_verts fc)) (faces bm).

(** [es] is a selection of edges of the mesh [bm]: pairwise distinct edges
    of [bm]. *)
Definition edges_of (bm : BMesh) (es : list nat) : Prop :=
  NoDup es /\ Forall (fun e => e < length (edges bm)) es.

(** The coordinate [c] is [c0] moved to height [z]. *)
Definition moved_to (z : scalar) (c0 c : Vector) : Prop :=
  vec_x c = vec_x c0 /\ vec_y c = vec_y c0 /\ vec_z c = z.

(** [e] is the edge of the mesh between the two vertices that [p] names:
    the first edge of [es] that joins them. *)
Definition edge_between (es : list (nat * nat)) (e : nat) (p : nat * nat) : Prop :=
  find_index (joins p.1 p.2) es = Some e.

(** The face [fc] has its corners at [q], and the edge of corner [k] is the
    edge of the mesh between [q[k]] and [q[(k+1) mod n]]. *)
Definition face_between (es : list (nat * nat)) (fc : BMFace) (q : list nat) : Prop :=
  f_verts fc = q /\ Forall2 (edge_between es) (f_edges fc) (pairwise_cyclic q).

(** Every face has its sides among the edges of the mesh. *)
Definition face_edges_closed (bm : BMesh) : Prop :=
  Forall (fun fc => Forall (fun e => e < length (edges bm)) (f_edges fc)) (faces bm).

(** No edge and no face of the mesh refers to a vertex or an edge outside
    the mesh. *)
Definition bm_closed (bm : BMesh) : Prop :=
  edges_closed bm /\ faces_closed bm /\ face_edges_closed bm.

(* ===================================================================== *)
(** * Part II: properties                                                 *)
(* ===================================================================== *)

(** ** Numbers *)

Lemma Qopp_opp (q : Q) : (- - q)%Q = q.
Proof. destruct q as [n d]. unfold Qopp. cbn. by rewrite Z.opp_involutive. Qed.

Lemma scalar_eq_refl (a : scalar) : scalar_eq a a.
Proof. destruct a; cbn; [reflexivity|done]. Qed.

Lemma scalar_eq_sym (a b : scalar) : scalar_eq a b -> scalar_eq b a.
Proof. destruct a, b; cbn; try done; intros H; by symmetry. Qed.

(** A component is equal to its opposite only if it is zero. *)
Lemma scalar_eq_opp (a : scalar) :
  scalar_eq a (scalar_opp a) <-> scalar_eq a (Finite 0).
Proof.
  destruct a as [q|[|]]; cbn; [|done|done].
  split; intros H; lra.
Qed.

(** Rounding is by sign and magnitude. *)
Lemma single_opp (q : Q) : single (- q) = scalar_opp (single q).
Proof.
  destruct q as [[|p|p] d]; unfold single; cbn [Qnum Qopp].
  - done.
  - change (- Z.pos p)%Z with (Z.neg p). cbv iota. rewrite Qopp_opp.
    unfold single_mag. by destruct (Qle_bool _ _).
  - change (- Z.neg p)%Z with (Z.pos p). cbv iota.
    unfold single_mag. destruct (Qle_bool _ _); cbn [scalar_opp negb]; [done|].
    by rewrite Qopp_opp.
Qed.

Lemma is_single_opp (q : Q) : is_single q -> is_single (- q).
Proof.
  unfold is_single. rewrite single_opp.
  destruct (single q) as [r|n]; cbn; [|done]. intros ->. reflexivity.
Qed.

Lemma pow2_pos (k : Z) : (0 < pow2 k)%Q.
Proof. unfold pow2. apply Qpower_0_lt. reflexivity. Qed.

Lemma pow2_add (a b : Z) : (pow2 (a + b) == pow2 a * pow2 b)%Q.
Proof. unfold pow2. apply Qpower_plus. discriminate. Qed.

Lemma pow2_Z (k : Z) : (0 <= k)%Z -> (pow2 k == inject_Z (2 ^ k))%Q.
Proof. intros Hk. unfold pow2. by rewrite Zpower_Qpower. Qed.

Lemma pow2_sub (a b : Z) : (pow2 (a - b) == pow2 a / pow2 b)%Q.
Proof.
  unfold Z.sub. rewrite pow2_add. unfold pow2 at 2. by rewrite Qpower_opp.
Qed.

Lemma Qdiv_le_iff (q p c : Q) : (0 < p)%Q -> (q / p <= c)%Q <-> (q <= c * p)%Q.
Proof.
  intros Hp. rewrite <- (Qmult_le_r (q / p) c p Hp).
  assert (Hq : (q / p * p == q)%Q).
  { field. intros H0. rewrite H0 in Hp. by apply Qlt_irrefl in Hp. }
  by rewrite Hq.
Qed.

(** A non-negative number is rounded to the integer 0 exactly up to one
    half, the tie included. *)
Lemma round_half_even_zero (t : Q) :
  (0 <= t)%Q -> round_half_even t = 0%Z <-> (t <= 1 # 2)%Q.
Proof.
  destruct t as [n d]. unfold Qle, round_half_even. cbn [Qnum Qden].
  intros Hn. rewrite Z.mul_1_r in Hn.
  pose proof (Z.div_mod n (Z.pos d) ltac:(lia)) as Hdm.
  pose proof (Z.mod_pos_bound n (Z.pos d) ltac:(lia)) as Hm.
  assert (Hf : (0 <= n / Z.pos d)%Z) by (apply Z.div_pos; lia).
  destruct (Z.compare_spec (2 * (n mod Z.pos d)) (Z.pos d)) as [He|He|He].
  - destruct (Z.even (n / Z.pos d)) eqn:Hev.
    + split; [intros H0; rewrite H0 in Hdm; lia|].
      intros Hle. nia.
    + split; [lia|]. intros Hle.
      assert (n / Z.pos d = 0)%Z as H0 by nia. rewrite H0 in Hev. done.
  - split; [intros H0; rewrite H0 in Hdm; lia|]. intros Hle. nia.
  - split; [lia|]. intros Hle. nia.
Qed.

Lemma Qlog2_le (q : Q) : (0 < q)%Q -> (pow2 (Qlog2 q) <= q)%Q.
Proof.
  intros Hq. unfold Qlog2.
  destruct (Qle_bool _ q) eqn:Hb; [by apply Qle_bool_iff|].
  destruct q as [n d]. cbn [Qnum Qden] in *.
  assert (Hn : (0 < n)%Z). { unfold Qlt in Hq. cbn in Hq. lia. }
  pose proof (Z.log2_spec n Hn) as [Hn1 _].
  pose proof (Z.log2_spec (Z.pos d) ltac:(lia)) as [_ Hd2].
  pose proof (Z.log2_nonneg n). pose proof (Z.log2_nonneg (Z.pos d)).
  set (a := Z.log2 n) in *. set (b := Z.log2 (Z.pos d)) in *.
  replace (a - b - 1)%Z with (a - (b + 1))%Z by lia.
  rewrite pow2_sub, !pow2_Z by lia.
  assert (Hb' : (0 < 2 ^ (b + 1))%Z) by (apply Z.pow_pos_nonneg; lia).
  apply Qle_shift_div_r.
  { change 0%Q with (inject_Z 0). by rewrite <- Zlt_Qlt. }
  unfold Qle, Qmult, inject_Z. cbn [Qnum Qden].
  rewrite Pos.mul_1_r, Z.mul_1_r.
  change (Z.succ b) with (b + 1)%Z in Hd2. nia.
Qed.

(** In single precision a positive number is rounded to zero exactly up to
    2^-150, half of the least positive value 2^-149. *)
Lemma round_mag_zero (q : Q) :
  (0 < q)%Q -> (round_mag 24 (-126) q == 0)%Q <-> (q <= pow2 (-150))%Q.
Proof.
  intros Hq. unfold round_mag. rewrite Qred_correct.
  pose proof (Qlog2_le q Hq) as He.
  set (e := Qlog2 q) in *.
  set (k := Z.max _ _).
  pose proof (pow2_pos k) as Hk.
  assert (Ht : (0 <= q / pow2 k)%Q).
  { apply Qle_shift_div_l; [done|]. rewrite Qmult_0_l. by apply Qlt_le_weak. }
  assert (Hm0 : (inject_Z (round_half_even (q / pow2 k)) * pow2 k == 0)%Q <->
                (q / pow2 k <= 1 # 2)%Q).
  { rewrite <- round_half_even_zero by done. split.
    - intros [H0|H0]%Qmult_integral.
      + revert H0. generalize (round_half_even (q / pow2 k)). intros m.
        unfold Qeq. cbn. lia.
      + rewrite H0 in Hk. by apply Qlt_irrefl in Hk.
    - intros ->. apply Qmult_0_l. }
  rewrite Hm0. clear Hm0.
  destruct (Z.max_spec (e - (24 - 1)) (-126 - (24 - 1))) as [[Hlt Hmax]|[Hle Hmax]];
    fold k in Hmax.
  - (* below the normal range: multiples of 2^-149 *)
    rewrite Hmax. change (-126 - (24 - 1))%Z with (-149)%Z.
    rewrite Qdiv_le_iff by apply pow2_pos.
    assert (Hh : ((1 # 2) * pow2 (-149) == pow2 (-150))%Q) by by vm_compute.
    by rewrite Hh.
  - (* normal range: the rounding is at least 2^23 units *)
    rewrite Hmax. split.
    + intros H. exfalso.
      apply Qdiv_le_iff in H; [|apply pow2_pos].
      assert (He' : (pow2 e == pow2 23 * pow2 (e - (24 - 1)))%Q).
      { rewrite <- pow2_add. by replace (23 + (e - (24 - 1)))%Z with e by lia. }
      rewrite He' in He.
      pose proof (pow2_pos (e - (24 - 1))) as Hp.
      assert (H23 : (pow2 23 == 8388608)%Q) by by vm_compute.
      rewrite H23 in He. nra.
    + intros H. exfalso.
      assert (Hee : (pow2 (-126) <= pow2 e)%Q).
      { unfold pow2. apply Qpower_le_compat_l; [lia|]. by vm_compute. }
      assert (Hlt' : (pow2 (-150) < pow2 (-126))%Q) by by vm_compute.
      lra.
Qed.

Lemma single_mag_zero (neg : bool) (q : Q) :
  (0 < q)%Q ->
  scalar_eq (single_mag neg q) (Finite 0) <-> (q <= pow2 (-150))%Q.
Proof.
  intros Hq. rewrite <- (round_mag_zero q Hq). unfold single_mag.
  destruct (Qle_bool _ _) eqn:Hov; cbn.
  - apply Qle_bool_iff in Hov. split; [done|]. intros H0. rewrite H0 in Hov.
    by vm_compute in Hov.
  - destruct neg; [|done]. split; intros H0.
    + rewrite <- (Qopp_involutive (round_mag _ _ _)), H0. reflexivity.
    + by rewrite H0.
Qed.

(** The numbers that are stored as zero: those of magnitude up to 2^-150. *)
Lemma single_zero (q : Q) :
  scalar_eq (single q) (Finite 0) <-> (Qabs q <= pow2 (-150))%Q.
Proof.
  destruct q as [[|p|p] d]; unfold single; cbn [Qnum].
  - split; [|done]. intros _. by vm_compute.
  - by apply single_mag_zero.
  - apply (single_mag_zero true (- (Z.neg p # d))). done.
Qed.

Lemma single_nonzero (q : Q) :
  (pow2 (-150) < Qabs q)%Q <-> ~ scalar_eq (single q) (Finite 0).
Proof.
  rewrite single_zero. split; [apply Qlt_not_le|apply Qnot_le_lt].
Qed.

(** ** Primitives *)

Lemma make_rect_run {A : Arith} (bm : BMesh) (x y z : Q) :
  let n := length (verts bm) in
  make_rect x y z bm =
    (Ret [n; n + 1; n + 2; n + 3],
     mkBMesh (verts bm ++
              (to_vector <$> [(x, y, z); (-x, y, z); (-x, -y, z); (x, -y, z)]%Q))
             (edges bm) (faces bm)).
Proof.
  destruct bm as [vs es fs]. cbn.
  unfold bind, verts_new, ret. cbn.
  rewrite !length_app. cbn.
  rewrite <- !app_assoc. cbn.
  by replace (length vs + 1 + 1 + 1) with (length vs + 3) by lia;
     replace (length vs + 1 + 1) with (length vs + 2) by lia.
Qed.

Lemma make_tri_run {A : Arith} (bm : BMesh) (x y z : Q) :
  let n := length (verts bm) in
  make_tri x y z bm =
    (Ret [n; n + 1; n + 2],
     mkBMesh (verts bm ++
              (to_vector <$> [(x, y / 3, z); (-x, y / 3, z); (0, -y / (3 # 2), z)]%Q))
             (edges bm) (faces bm)).
Proof.
  destruct bm as [vs es fs]. cbn.
  unfold bind, verts_new, ret. cbn.
  rewrite !length_app. cbn.
  rewrite <- !app_assoc. cbn.
  by replace (length vs + 1 + 1 + 1) with (length vs + 3) by lia;
     replace (length vs + 1 + 1) with (length vs + 2) by lia.
Qed.

Lemma coords_fresh (vs : list Vector) es fs (new : list Vector) :
  coords (mkBMesh (vs ++ new) es fs) (seq (length vs) (length new)) = map Some new.
Proof.
  unfold coords. cbn.
  revert vs. induction new as [|c new IH]; intros vs; [done|].
  cbn. f_equal.
  - rewrite lookup_app_r by lia. by rewrite Nat.sub_diag.
  - specialize (IH (vs ++ [c])). rewrite length_app in IH. cbn in IH.
    rewrite <- app_assoc in IH. cbn in IH.
    replace (S (length vs)) with (length vs + 1) by lia. exact IH.
Qed.

(** The coordinates of the four or three vertices that a primitive has just
    made from the triples [cs]. *)
Lemma coords_new {A : Arith} (bm : BMesh) (cs : list co) :
  coords (mkBMesh (verts bm ++ (to_vector <$> cs)) (edges bm) (faces bm))
         (seq (length (verts bm)) (length cs)) =
  (fun c => Some (to_vector c)) <$> cs.
Proof.
  pose proof (coords_fresh (verts bm) (edges bm) (faces bm) (to_vector <$> cs)) as H.
  rewrite length_fmap in H. rewrite H. clear H.
  induction cs as [|c cs IH]; [done|]. cbn. by f_equal.
Qed.

(** C7 (amended).  For all x, y, z and every mesh, [make_rect] returns
    exactly four vertices, all newly created, whose coordinates are in order
    (x, y, z), (-x, y, z), (-x, -y, z), (x, -y, z) rounded to single
    precision; they are these numbers themselves when x, y and z are
    single-precision values.  Any two cyclically consecutive vertices of
    that list have distinct coordinates if and only if |x| and |y| are both
    greater than 2^-150: a smaller non-zero x or y is stored as zero. *)
Theorem make_rect_coords (bm : BMesh) (x y z : Q) :
  exists vs bm',
    make_rect (A:=ieee) x y z bm = (Ret vs, bm') /\
    length vs = 4 /\
    coords bm' vs =
      [Some (single x, single y, single z);
       Some (single (-x), single y, single z);
       Some (single (-x), single (-y), single z);
       Some (single x, single (-y), single z)] /\
    (forall v, v ∈ vs -> length (verts bm) <= v) /\
    (is_single x -> is_single y -> is_single z ->
     Forall2 (fun c e => exists v, c = Some v /\ vec_eq v (to_vector (A:=exact) e))
       (coords bm' vs) [(x, y, z); (-x, y, z); (-x, -y, z); (x, -y, z)]%Q) /\
    ((forall i c d,
        coords bm' vs !! i = Some (Some c) ->
        coords bm' vs !! ((i + 1) mod 4) = Some (Some d) ->
        ~ vec_eq c d) <->
     (pow2 (-150) < Qabs x)%Q /\ (pow2 (-150) < Qabs y)%Q).
Proof.
  eexists _, _. split; [apply make_rect_run|].
  cbn zeta.
  pose proof (coords_new (A:=ieee) bm
    [(x, y, z); (-x, y, z); (-x, -y, z); (x, -y, z)]%Q) as Hc.
  cbn [length seq fmap list_fmap] in Hc.
  replace (S (length (verts bm))) with (length (verts bm) + 1) in Hc by lia.
  replace (S (length (verts bm) + 1)) with (length (verts bm) + 2) in Hc by lia.
  replace (S (length (verts bm) + 2)) with (length (verts bm) + 3) in Hc by lia.
  cbn [fmap list_fmap].
  change (to_vector (A:=ieee) (x, y, z)%Q) with (single x, single y, single z) in *.
  change (to_vector (A:=ieee) (- x, y, z)%Q)
    with (single (- x), single y, single z) in *.
  change (to_vector (A:=ieee) (- x, - y, z)%Q)
    with (single (- x), single (- y), single z) in *.
  change (to_vector (A:=ieee) (x, - y, z)%Q)
    with (single x, single (- y), single z) in *.
  split; [done|]. split; [exact Hc|]. split; [|split].
  - intros v Hv. rewrite !elem_of_cons, elem_of_nil in Hv. lia.
  - intros Hx Hy Hz. rewrite Hc.
    pose proof (is_single_opp x Hx) as Hx'. pose proof (is_single_opp y Hy) as Hy'.
    repeat constructor; eexists; (split; [reflexivity|]); by repeat split.
  - rewrite Hc, !single_nonzero.
    pose proof (scalar_eq_refl (single z)) as Hzz.
    pose proof (scalar_eq_refl (single y)) as Hyy.
    pose proof (scalar_eq_refl (single (- y))) as Hyy'.
    pose proof (scalar_eq_refl (single x)) as Hxx.
    pose proof (scalar_eq_refl (single (- x))) as Hxx'.
    pose proof (scalar_eq_opp (single x)) as Hxo.
    pose proof (scalar_eq_opp (single y)) as Hyo.
    rewrite <- single_opp in Hxo, Hyo.
    split.
    + intros Hd. split; intros H0.
      * apply (Hd 0 (single x, single y, single z) (single (- x), single y, single z));
          [done|done|]. split; [by apply Hxo|by split].
      * apply (Hd 1 (single (- x), single y, single z)
                    (single (- x), single (- y), single z)); [done|done|].
        split; [done|]. split; [by apply Hyo|done].
    + intros [Hx Hy] i c d.
      destruct i as [|[|[|[|i]]]]; [| | | |by intros ?%lookup_lt_Some; cbn in *; lia];
        cbn; intros [= <-] [= <-]; unfold vec_eq; cbn; intros (Ha & Hb & _).
      * by apply Hx, Hxo.
      * by apply Hy, Hyo.
      * apply Hx, Hxo. by apply scalar_eq_sym.
      * apply Hy, Hyo. by apply scalar_eq_sym.
Qed.

Lemma make_rect_coords_witness :
  is_single 1 /\ is_single 2 /\ is_single 3 /\
  exists vs bm',
    make_rect (A:=ieee) 1 2 3 bm_empty = (Ret vs, bm') /\
    Forall2 (fun c e => exists v, c = Some v /\ vec_eq v (to_vector (A:=exact) e))
      (coords bm' vs) [(1, 2, 3); (-(1), 2, 3); (-(1), -(2), 3); (1, -(2), 3)]%Q.
Proof.
  assert (H1 : is_single 1) by by vm_compute.
  assert (H2 : is_single 2) by by vm_compute.
  assert (H3 : is_single 3) by by vm_compute.
  split; [exact H1|]. split; [exact H2|]. split; [exact H3|].
  destruct (make_rect_coords bm_empty 1 2 3) as (vs & bm' & Hrun & _ & _ & _ & Hco & _).
  exists vs, bm'. split; [exact Hrun|]. exact (Hco H1 H2 H3).
Defined.

(** C7, as stated, fails twice.  The Python float 0.1 is not a
    single-precision value: the first vertex of [make_rect(bm, 0.1, 2, 3)]
    has x-coordinate 13421773 / 2^27, not 0.1.  And 2^-150 is not zero but
    is stored as zero: the first two vertices of
    [make_rect(bm, 2**-150, 1, 0)] have the same coordinates. *)
Lemma make_rect_coords_rounded :
  (exists c,
     coords (snd (make_rect (A:=ieee) float_0_1 2 3 bm_empty)) [0] = [Some c] /\
     vec_x c = Finite (13421773 # 134217728) /\
     ~ scalar_eq (vec_x c) (Finite float_0_1)) /\
  (~ (pow2 (-150) == 0)%Q /\ ~ (1 == 0)%Q /\
   exists c d,
     coords (snd (make_rect (A:=ieee) (pow2 (-150)) 1 0 bm_empty)) [0; 1] =
       [Some c; Some d] /\
     vec_eq c d).
Proof.
  split.
  - eexists. split; [vm_compute; reflexivity|]. split; [reflexivity|].
    by vm_compute.
  - split; [by vm_compute|]. split; [by vm_compute|].
    eexists _, _. split; [vm_compute; reflexivity|]. by vm_compute.
Qed.

(** C8.  For all x, y, z and every mesh, [make_tri] returns three vertices
    whose coordinates sum to (0, 0, 3z) and whose barycenter is (0, 0, z),
    in exact arithmetic. *)
Theorem make_tri_barycenter (bm : BMesh) (x y z : Q) :
  exists vs bm' c1 c2 c3,
    make_tri (A:=exact) x y z bm = (Ret vs, bm') /\
    coords bm' vs =
      [Some (to_vector (A:=exact) c1); Some (to_vector (A:=exact) c2);
       Some (to_vector (A:=exact) c3)] /\
    co_eq (co_sum [c1; c2; c3]) (0, 0, 3 * z)%Q /\
    co_eq (barycenter [c1; c2; c3]) (0, 0, z)%Q.
Proof.
  eexists _, _, _, _, _. split; [apply make_tri_run|].
  cbn zeta. split.
  - pose proof (coords_new (A:=exact) bm
        [(x, y / 3, z); (-x, y / 3, z); (0, -y / (3 # 2), z)]%Q) as H.
    cbn [length seq fmap list_fmap] in H.
    replace (S (length (verts bm))) with (length (verts bm) + 1) in H by lia.
    replace (S (length (verts bm) + 1)) with (length (verts bm) + 2) in H by lia.
    exact H.
  - unfold co_eq, barycenter, co_sum, co_add, co_x, co_y, co_z. cbn.
    repeat split; field.
Qed.

(** ** Rings and their cyclic pairs *)

Lemma succ_mod_alt (i n : nat) :
  i < n -> (i + 1) mod n = if decide (i + 1 < n) then i + 1 else 0.
Proof.
  intros Hi. case_decide.
  - by apply Nat.mod_small.
  - replace (i + 1) with n by lia. apply Nat.Div0.mod_same.
Qed.

Lemma lookup_rotate_1 {A} (l : list A) (i : nat) :
  i < length l -> rotate 1 l !! i = l !! ((i + 1) mod length l).
Proof.
  intros Hi. rewrite lookup_rotate_r by done. f_equal.
  unfold rotate_nat_add.
  rewrite <- Nat2Z.inj_add, <- Nat2Z.inj_mod, Nat2Z.id. f_equal. lia.
Qed.

Lemma length_pairwise_cyclic {A} (l : list A) :
  length (pairwise_cyclic l) = length l.
Proof.
  unfold pairwise_cyclic. rewrite length_zip_with, length_rotate. lia.
Qed.

Lemma lookup_pairwise_cyclic {A} (l : list A) (i : nat) (a b : A) :
  pairwise_cyclic l !! i = Some (a, b) <->
  l !! i = Some a /\ l !! ((i + 1) mod length l) = Some b.
Proof.
  unfold pairwise_cyclic. rewrite lookup_zip_with_Some. split.
  - intros (x & y & [= -> ->] & Hx & Hy). split; [done|].
    rewrite <- lookup_rotate_1; [done|]. by eapply lookup_lt_Some.
  - intros [Ha Hb]. exists a, b. split; [done|]. split; [done|].
    rewrite lookup_rotate_1; [done|]. by eapply lookup_lt_Some.
Qed.

(** The model of [pairwise_cyclic] agrees with the index formula. *)
Lemma pairwise_cyclic_ring_pairs (vs : list nat) :
  pairwise_cyclic vs = ring_pairs vs.
Proof.
  apply list_eq. intros i. unfold ring_pairs.
  rewrite list_lookup_fmap.
  destruct (decide (i < length vs)) as [Hi|Hi].
  - rewrite lookup_seq_lt by done. cbn.
    destruct (lookup_lt_is_Some_2 vs i Hi) as [a Ha].
    assert (Hj : (i + 1) mod length vs < length vs)
      by (apply Nat.mod_upper_bound; lia).
    destruct (lookup_lt_is_Some_2 vs _ Hj) as [b Hb].
    rewrite (list_lookup_total_correct _ _ _ Ha).
    rewrite (list_lookup_total_correct _ _ _ Hb).
    by apply lookup_pairwise_cyclic.
  - rewrite lookup_seq_ge by lia. cbn.
    apply lookup_ge_None. rewrite length_pairwise_cyclic. lia.
Qed.

(** In a ring of three or more distinct vertices no two positions give the
    same connection, in either direction, and no position connects a
    vertex to itself. *)
Lemma ring_pairs_distinct (vs : list nat) (i j : nat) (p q : nat * nat) :
  3 <= length vs -> NoDup vs ->
  pairwise_cyclic vs !! i = Some p -> pairwise_cyclic vs !! j = Some q ->
  i <> j -> joins q.1 q.2 p = false.
Proof.
  intros Hn Hnd Hp Hq Hij. destruct p as [a b], q as [c d]. cbn.
  apply lookup_pairwise_cyclic in Hp as [Ha Hb].
  apply lookup_pairwise_cyclic in Hq as [Hc Hd].
  pose proof (lookup_lt_Some _ _ _ Ha) as Hi.
  pose proof (lookup_lt_Some _ _ _ Hc) as Hj.
  rewrite succ_mod_alt in Hb, Hd by done.
  unfold joins. apply bool_decide_eq_false. intros [[= -> ->]|[= -> ->]].
  - apply Hij. eapply NoDup_lookup; eauto.
  - pose proof (NoDup_lookup _ _ _ _ Hnd Ha Hd) as E1.
    pose proof (NoDup_lookup _ _ _ _ Hnd Hb Hc) as E2.
    repeat case_decide; lia.
Qed.

Lemma ring_pairs_proper (vs : list nat) (i : nat) (a b : nat) :
  2 <= length vs -> NoDup vs ->
  pairwise_cyclic vs !! i = Some (a, b) -> a <> b.
Proof.
  intros Hn Hnd [Ha Hb]%lookup_pairwise_cyclic ->.
  pose proof (lookup_lt_Some _ _ _ Ha) as Hi.
  rewrite succ_mod_alt in Hb by done.
  pose proof (NoDup_lookup _ _ _ _ Hnd Ha Hb). case_decide; lia.
Qed.

(** ** [make_edges] *)

Lemma find_index_None {A} (p : A -> bool) (l : list A) :
  find_index p l = None <-> forall x, x ∈ l -> p x = false.
Proof.
  induction l as [|x l IH]; cbn.
  - split; [|done]. intros _ y Hy. by apply elem_of_nil in Hy.
  - destruct (p x) eqn:Hx.
    + split; [done|]. intros H. specialize (H x (list_elem_of_here _ _)). congruence.
    + rewrite fmap_None, IH. split.
      * intros H y [->|Hy]%elem_of_cons; auto.
      * intros H y Hy. apply H. by apply list_elem_of_further.
Qed.

Lemma addable_intro (nv : nat) (ps es : list (nat * nat)) :
  (forall p, p ∈ ps -> p.1 < nv /\ p.2 < nv /\ p.1 <> p.2) ->
  (forall p e, p ∈ ps -> e ∈ es -> joins p.1 p.2 e = false) ->
  (forall i j p q, i < j -> ps !! i = Some p -> ps !! j = Some q ->
                   joins q.1 q.2 p = false) ->
  addable nv es ps.
Proof.
  revert es. induction ps as [|p ps IH]; intros es Hv Hold Hnew; [done|].
  cbn. pose proof (Hv p (list_elem_of_here _ _)) as (? & ? & ?).
  repeat split; try done.
  - intros e He. apply Hold; [apply list_elem_of_here|done].
  - apply IH.
    + intros q Hq. apply Hv. by apply list_elem_of_further.
    + intros q e Hq [He| ->%list_elem_of_singleton]%elem_of_app.
      * apply Hold; [by apply list_elem_of_further|done].
      * apply list_elem_of_lookup in Hq as [j Hj].
        apply (Hnew 0 (S j)); [lia|done|done].
    + intros i j q r Hij Hi Hj. apply (Hnew (S i) (S j)); [lia|done|done].
Qed.

Lemma mapM_edges_new (ps : list (nat * nat)) (bm : BMesh) :
  addable (length (verts bm)) (edges bm) ps ->
  mapM edges_new ps bm =
    (Ret (seq (length (edges bm)) (length ps)),
     mkBMesh (verts bm) (edges bm ++ ps) (faces bm)).
Proof.
  revert bm. induction ps as [|[a b] ps IH]; intros bm Hadd.
  - cbn. unfold ret. rewrite app_nil_r. by destruct bm.
  - cbn in Hadd. destruct Hadd as (Ha & Hb & Hab & Hfresh & Hadd).
    cbn [mapM]. unfold bind at 1. unfold edges_new at 1.
    unfold is_vert. rewrite !bool_decide_eq_true_2 by done. cbn.
    rewrite (bool_decide_eq_false_2 (a = b)) by done.
    assert (Hfind : find_edge bm a b = None) by by apply find_index_None.
    rewrite Hfind. rewrite bool_decide_eq_false_2 by (by intros [? ?]).
    unfold bind. rewrite IH by done. cbn. unfold ret.
    rewrite length_app, <- app_assoc. cbn.
    by replace (length (edges bm) + 1) with (S (length (edges bm))) by lia.
Qed.

(** C5.  For every ring of N >= 3 distinct vertices of the mesh such that no
    edge exists yet between two consecutive vertices of the ring,
    [make_edges] returns exactly N edges, all new and pairwise distinct; in
    ring order, the i-th edge connects vertex i to vertex (i+1) mod N, so
    the connections made are exactly the consecutive cyclic pairs. Vertices
    and faces of the mesh are untouched. *)
Theorem make_edges_ring (bm : BMesh) (vs : list nat) :
  3 <= length vs ->
  verts_of bm vs ->
  (forall a b, (a, b) ∈ ring_pairs vs -> find_edge bm a b = None) ->
  exists es bm',
    make_edges vs bm = (Ret es, bm') /\
    length es = length vs /\
    edge_ends bm' es = Some <$> ring_pairs vs /\
    NoDup es /\
    (forall e, e ∈ es -> length (edges bm) <= e) /\
    verts bm' = verts bm /\ faces bm' = faces bm.
Proof.
  intros Hn [Hnd Hlive] Hfresh. unfold make_edges.
  rewrite <- pairwise_cyclic_ring_pairs in *.
  eexists _, _. split.
  - apply mapM_edges_new. apply addable_intro.
    + intros [a b] [i Hi]%list_elem_of_lookup. cbn.
      pose proof (ring_pairs_proper vs i a b ltac:(lia) Hnd Hi).
      apply lookup_pairwise_cyclic in Hi as [Ha Hb].
      rewrite Forall_forall in Hlive.
      split; [|split; [|done]]; apply Hlive; by eapply list_elem_of_lookup_2.
    + intros [a b] e Hp He. cbn.
      specialize (Hfresh a b Hp). unfold find_edge in Hfresh.
      by eapply find_index_None in Hfresh.
    + intros i j p q Hij Hp Hq.
      eapply (ring_pairs_distinct vs i j); eauto. lia.
  - rewrite length_seq, length_pairwise_cyclic.
    split; [done|]. split; [|split; [apply NoDup_seq|split; [|done]]].
    + unfold edge_ends. cbn. apply list_eq. intros i.
      rewrite !list_lookup_fmap.
      destruct (decide (i < length (pairwise_cyclic vs))) as [Hi|Hi].
      * rewrite lookup_seq_lt by (by rewrite <- length_pairwise_cyclic). cbn.
        rewrite lookup_app_r by lia.
        replace (length (edges bm) + i - length (edges bm)) with i by lia.
        by destruct (lookup_lt_is_Some_2 _ _ Hi) as [p ->].
      * rewrite lookup_seq_ge by (rewrite <- length_pairwise_cyclic; lia).
        rewrite lookup_ge_None_2 by lia. done.
    + intros e [? ?]%elem_of_seq. lia.
Qed.

Lemma make_edges_ring_witness :
  3 <= length [0; 1; 2] /\
  verts_of prism_verts [0; 1; 2] /\
  exists es bm',
    make_edges [0; 1; 2] prism_verts = (Ret es, bm') /\
    length es = 3 /\
    edge_ends bm' es = [Some (0, 1); Some (1, 2); Some (2, 0)].
Proof.
  assert (Hn : 3 <= length [0; 1; 2]) by (cbn; lia).
  assert (Hring : verts_of prism_verts [0; 1; 2]).
  { split; apply (bool_decide_unpack _); vm_compute; exact I. }
  assert (Hfresh : forall a b, (a, b) ∈ ring_pairs [0; 1; 2] ->
                               find_edge prism_verts a b = None).
  { intros a b _. reflexivity. }
  split; [exact Hn|]. split; [exact Hring|].
  destruct (make_edges_ring prism_verts [0; 1; 2] Hn Hring Hfresh)
    as (es & bm' & Hrun & Hlen & Hends & _).
  exists es, bm'. split; [exact Hrun|]. split; [exact Hlen|exact Hends].
Defined.

(** ** [bridge_verts] *)

Lemma bind_ret_run {S A B} (m : M S A) (k : A -> M S B) (s s' : S) (a : A) :
  m s = (Ret a, s') -> bind m k s = k a s'.
Proof. unfold bind. by intros ->. Qed.

Lemma find_index_Some {A} (p : A -> bool) (l : list A) (i : nat) :
  find_index p l = Some i -> exists x, l !! i = Some x /\ p x = true.
Proof.
  revert i. induction l as [|x l IH]; intros i; cbn; [done|].
  destruct (p x) eqn:Hx.
  - intros [= <-]. by exists x.
  - intros (j & Hj & ->)%fmap_Some. cbn. by apply IH.
Qed.

Lemma joins_refl (p : nat * nat) : joins p.1 p.2 p = true.
Proof. apply bool_decide_eq_true. left. by destruct p. Qed.

Lemma corner_edge_app (es new : list (nat * nat)) (e : nat) (p : nat * nat) :
  corner_edge es e p -> corner_edge (es ++ new) e p.
Proof.
  intros (p' & He & Hj). exists p'. split; [|done]. by apply lookup_app_l_Some.
Qed.

Lemma mapM_ensure_edge (ps : list (nat * nat)) (bm : BMesh) :
  exists es new,
    mapM ensure_edge ps bm =
      (Ret es, mkBMesh (verts bm) (edges bm ++ new) (faces bm)) /\
    Forall2 (corner_edge (edges bm ++ new)) es ps.
Proof.
  revert bm. induction ps as [|p ps IH]; intros bm.
  - exists [], []. split; [|constructor].
    cbn. unfold ret. rewrite app_nil_r. by destruct bm.
  - cbn [mapM]. unfold bind at 1, ensure_edge at 1.
    destruct (find_edge bm p.1 p.2) as [e|] eqn:Hfind.
    + destruct (IH bm) as (es & new & Hrun & Hes).
      exists (e :: es), new. unfold bind. rewrite Hrun. split; [done|].
      constructor; [|done].
      apply find_index_Some in Hfind as (p' & He & Hj).
      apply corner_edge_app. by exists p'.
    + destruct (IH (mkBMesh (verts bm) (edges bm ++ [p]) (faces bm)))
        as (es & new & Hrun & Hes). cbn in Hrun, Hes.
      exists (length (edges bm) :: es), (p :: new).
      unfold bind. rewrite Hrun. cbn. unfold ret.
      rewrite <- app_assoc in *. cbn in *. split; [done|].
      constructor; [|done].
      exists p. split; [|apply joins_refl].
      by rewrite lookup_app_r, Nat.sub_diag by lia.
Qed.

Lemma face_of_app (es new : list (nat * nat)) (fc : BMFace) (q : list nat) :
  face_of es fc q -> face_of (es ++ new) fc q.
Proof.
  intros [Hv He]. split; [done|].
  eapply Forall2_impl; [exact He|]. intros e p. apply corner_edge_app.
Qed.

Lemma faces_new_run (q : list nat) (bm : BMesh) :
  3 <= length q ->
  Forall (fun v => v < length (verts bm)) q ->
  NoDup q ->
  face_exists bm q = false ->
  exists fc new,
    faces_new q bm =
      (Ret (length (faces bm)),
       mkBMesh (verts bm) (edges bm ++ new) (faces bm ++ [fc])) /\
    face_of (edges bm ++ new) fc q.
Proof.
  intros Hlen Hlive Hnd Hex.
  destruct (mapM_ensure_edge (pairwise_cyclic q) bm) as (es & new & Hrun & Hes).
  exists (mkFace q es), new. split; [|by split].
  unfold faces_new. unfold bind at 1, get at 1.
  rewrite bool_decide_eq_false_2 by lia.
  replace (forallb (is_vert bm) q) with true; cbn [negb].
  2:{ symmetry. apply forallb_forall. intros v Hv%list_elem_of_In.
      apply bool_decide_eq_true. rewrite Forall_forall in Hlive. by apply Hlive. }
  rewrite bool_decide_eq_true_2 by done. cbn [negb]. rewrite Hex.
  unfold pairwise_cyclic in Hrun. unfold bind. rewrite Hrun. done.
Qed.

(** No face of [fs] lies on the vertices of [q]. *)
Lemma face_exists_app (bm : BMesh) (fcs : list BMFace) (es : list (nat * nat)) (q : list nat) :
  face_exists (mkBMesh (verts bm) es (faces bm ++ fcs)) q =
  face_exists bm q || existsb (face_on q) fcs.
Proof. unfold face_exists. cbn. apply existsb_app. Qed.

Lemma mapM_faces_new (qs : list (list nat)) (bm : BMesh) :
  quads_ok bm qs ->
  exists fcs new,
    mapM faces_new qs bm =
      (Ret (seq (length (faces bm)) (length qs)),
       mkBMesh (verts bm) (edges bm ++ new) (faces bm ++ fcs)) /\
    Forall2 (face_of (edges bm ++ new)) fcs qs.
Proof.
  revert bm. induction qs as [|q qs IH]; intros bm [Hq Hdist].
  - exists [], []. split; [|constructor].
    cbn. unfold ret. rewrite !app_nil_r. by destruct bm.
  - destruct (Hq q (list_elem_of_here _ _)) as (Hlen & Hlive & Hnd & Hex).
    destruct (faces_new_run q bm Hlen Hlive Hnd Hex) as (fc & new & Hrun & Hfc).
    set (bm1 := mkBMesh (verts bm) (edges bm ++ new) (faces bm ++ [fc])) in *.
    destruct (IH bm1) as (fcs & new' & Hrun' & Hfcs).
    { split.
      - intros r Hr.
        destruct (Hq r (list_elem_of_further _ _ _ Hr)) as (? & ? & ? & Hexr).
        repeat split; try done.
        unfold bm1. rewrite face_exists_app, Hexr. cbn.
        apply list_elem_of_lookup in Hr as [j Hj].
        rewrite (Hdist 0 (S j) q r fc); [done|lia|done|done|]. apply Hfc.
      - intros i j r r' fc' Hij Hi Hj. apply (Hdist (S i) (S j)); [lia|done|done]. }
    exists (fc :: fcs), (new ++ new').
    cbn [mapM]. rewrite (bind_ret_run _ _ _ _ _ Hrun).
    rewrite (bind_ret_run _ _ _ _ _ Hrun'). unfold ret. cbn.
    rewrite length_app, <- !app_assoc. cbn.
    replace (length (faces bm) + 1) with (S (length (faces bm))) by lia.
    split; [done|]. constructor.
    + rewrite app_assoc. by apply face_of_app.
    + subst bm1. cbn in Hfcs. by rewrite <- app_assoc in Hfcs.
Qed.

Lemma length_quadwise_cyclic {A} (a b : list A) :
  length a = length b -> length (quadwise_cyclic a b) = length a.
Proof.
  intros H. unfold quadwise_cyclic.
  rewrite !length_zip_with, !length_rotate. lia.
Qed.

Lemma lookup_quadwise_cyclic {A} (a b : list A) (i : nat) (q : list A) :
  quadwise_cyclic a b !! i = Some q <->
  exists a0 a1 b0 b1,
    q = [a1; a0; b0; b1] /\
    a !! i = Some a0 /\ a !! ((i + 1) mod length a) = Some a1 /\
    b !! i = Some b0 /\ b !! ((i + 1) mod length b) = Some b1.
Proof.
  unfold quadwise_cyclic. rewrite lookup_zip_with_Some. split.
  - intros ([a1 a0] & [b0 b1] & -> & Ha & Hb).
    apply lookup_zip_with_Some in Ha as (? & ? & [= <- <-] & Ha1 & Ha0).
    apply lookup_zip_with_Some in Hb as (? & ? & [= <- <-] & Hb0 & Hb1).
    exists a0, a1, b0, b1. cbn.
    rewrite lookup_rotate_1 in Ha1 by (by eapply lookup_lt_Some).
    rewrite lookup_rotate_1 in Hb1 by (by eapply lookup_lt_Some).
    done.
  - intros (a0 & a1 & b0 & b1 & -> & Ha0 & Ha1 & Hb0 & Hb1).
    exists (a1, a0), (b0, b1). split; [done|].
    rewrite <- lookup_rotate_1 in Ha1 by (by eapply lookup_lt_Some).
    rewrite <- lookup_rotate_1 in Hb1 by (by eapply lookup_lt_Some).
    split; apply lookup_zip_with_Some; eauto 10.
Qed.

(** Two rings of three or more vertices, all distinct: every quad has four
    distinct vertices, and no two quads lie on the same vertices. *)
Lemma quadwise_cyclic_ok (bm : BMesh) (a b : list nat) :
  length a = length b -> 3 <= length a ->
  verts_of bm (a ++ b) ->
  (forall q, q ∈ quadwise_cyclic a b -> face_exists bm q = false) ->
  quads_ok bm (quadwise_cyclic a b).
Proof.
  intros Hab Hn [Hnd Hlive] Hfresh.
  apply NoDup_app in Hnd as (Hnda & Hdisj & Hndb).
  apply Forall_app in Hlive as [Hla Hlb].
  rewrite Forall_forall in Hla, Hlb.
  split.
  - intros q Hq. specialize (Hfresh q Hq).
    apply list_elem_of_lookup in Hq as [i Hi].
    apply lookup_quadwise_cyclic in Hi
      as (a0 & a1 & b0 & b1 & -> & Ha0 & Ha1 & Hb0 & Hb1).
    pose proof (lookup_lt_Some _ _ _ Ha0) as Hia.
    pose proof (lookup_lt_Some _ _ _ Hb0) as Hib.
    pose proof (list_elem_of_lookup_2 _ _ _ Ha0).
    pose proof (list_elem_of_lookup_2 _ _ _ Ha1).
    pose proof (list_elem_of_lookup_2 _ _ _ Hb0).
    pose proof (list_elem_of_lookup_2 _ _ _ Hb1).
    rewrite succ_mod_alt in Ha1, Hb1 by done.
    split; [cbn; lia|]. split; [|split; [|done]].
    + repeat constructor; auto.
    + assert (Ha01 : a1 <> a0).
      { intros ->. pose proof (NoDup_lookup _ _ _ _ Hnda Ha0 Ha1).
        case_decide; lia. }
      assert (Hb01 : b0 <> b1).
      { intros ->. pose proof (NoDup_lookup _ _ _ _ Hndb Hb0 Hb1).
        case_decide; lia. }
      assert (Hx : forall x y, x ∈ a -> y ∈ b -> x <> y).
      { intros x y Hx Hy ->. by apply (Hdisj y). }
      rewrite !NoDup_cons, !not_elem_of_cons.
      repeat split; try apply not_elem_of_nil; try apply NoDup_nil_2;
        try done; by apply Hx.
  - intros i j q r fc Hij Hq Hr Hfc.
    apply lookup_quadwise_cyclic in Hq
      as (a0 & a1 & b0 & b1 & -> & Ha0 & Ha1 & Hb0 & Hb1).
    apply lookup_quadwise_cyclic in Hr
      as (c0 & c1 & d0 & d1 & -> & Hc0 & Hc1 & Hd0 & Hd1).
    pose proof (lookup_lt_Some _ _ _ Ha0) as Hia.
    pose proof (lookup_lt_Some _ _ _ Hc0) as Hja.
    rewrite succ_mod_alt in Ha1, Hc1 by done.
    apply not_true_iff_false. unfold face_on. rewrite Hfc.
    intros [_ Hall]%andb_true_iff. cbn in Hall.
    repeat (apply andb_true_iff in Hall as [?%bool_decide_eq_true Hall]).
    assert (Hin : forall x k, a !! k = Some x -> x ∈ [a1; a0; b0; b1] ->
                              k = i \/ k = if decide (i + 1 < length a) then i + 1 else 0).
    { intros x k Hk Hx. rewrite !elem_of_cons, elem_of_nil in Hx.
      destruct Hx as [->|[->|[->|[->|[]]]]].
      - right. exact (NoDup_lookup _ _ _ _ Hnda Hk Ha1).
      - left. exact (NoDup_lookup _ _ _ _ Hnda Hk Ha0).
      - exfalso. apply (Hdisj b0); by eapply list_elem_of_lookup_2.
      - exfalso. apply (Hdisj b1); by eapply list_elem_of_lookup_2. }
    pose proof (Hin c0 _ Hc0 ltac:(done)).
    pose proof (Hin c1 _ Hc1 ltac:(done)).
    repeat case_decide; lia.
Qed.

Lemma mapM_face_edge (k : nat) (fs : list nat) (es : list nat) (bm : BMesh) :
  Forall2 (fun f e => exists fc, faces bm !! f = Some fc /\ f_edges fc !! k = Some e) fs es ->
  mapM (fun f => face_edge f k) fs bm = (Ret es, bm).
Proof.
  induction 1 as [|f e fs es (fc & Hf & He) _ IH]; [done|].
  cbn [mapM]. unfold bind at 1, face_edge at 1, bind at 1, get at 1.
  rewrite Hf, He. unfold ret at 1. unfold bind. by rewrite IH.
Qed.

(** C4 (amended).  For two rings of equal length N >= 3 whose 2N vertices
    are distinct vertices of the mesh, such that no face exists yet on the
    four vertices of any quad, [bridge_verts] returns N new faces and N rung
    edges; the i-th face has exactly 4 edges; the i-th rung edge is the
    edge at index 1 of the i-th face and connects vertex i of ring A to
    vertex i of ring B. *)
Theorem bridge_verts_rings (bm : BMesh) (v1 v2 : list nat) :
  length v1 = length v2 ->
  3 <= length v1 ->
  verts_of bm (v1 ++ v2) ->
  (forall q, q ∈ quadwise_cyclic v1 v2 -> face_exists bm q = false) ->
  exists fs es bm',
    bridge_verts v1 v2 bm = (Ret (mkBridge fs es), bm') /\
    length fs = length v1 /\
    length es = length v1 /\
    forall i, i < length v1 ->
      exists f fc e a b p,
        fs !! i = Some f /\ length (faces bm) <= f /\
        faces bm' !! f = Some fc /\ length (f_edges fc) = 4 /\
        es !! i = Some e /\ f_edges fc !! 1 = Some e /\
        v1 !! i = Some a /\ v2 !! i = Some b /\
        edges bm' !! e = Some p /\ (p = (a, b) \/ p = (b, a)).
Proof.
  intros Hlen Hn Hring Hfresh.
  pose proof (quadwise_cyclic_ok bm v1 v2 Hlen Hn Hring Hfresh) as Hok.
  destruct (mapM_faces_new _ bm Hok) as (fcs & new & Hrun & Hfcs).
  pose proof (Forall2_length _ _ _ Hfcs) as Hlfcs.
  rewrite length_quadwise_cyclic in Hlfcs, Hrun by done.
  set (bm1 := mkBMesh (verts bm) (edges bm ++ new) (faces bm ++ fcs)) in *.
  assert (Hq : forall i, i < length v1 ->
    exists fc e a b p,
      fcs !! i = Some fc /\ length (f_edges fc) = 4 /\ f_edges fc !! 1 = Some e /\
      v1 !! i = Some a /\ v2 !! i = Some b /\
      edges bm1 !! e = Some p /\ (p = (a, b) \/ p = (b, a))).
  { intros i Hi.
    destruct (lookup_lt_is_Some_2 fcs i ltac:(lia)) as [fc Hfc].
    destruct (Forall2_lookup_l _ _ _ _ _ Hfcs Hfc) as (q & Hq & Hvs & Hes).
    apply lookup_quadwise_cyclic in Hq
      as (a0 & a1 & b0 & b1 & -> & Ha0 & Ha1 & Hb0 & Hb1).
    pose proof (Forall2_length _ _ _ Hes) as Hl.
    rewrite length_pairwise_cyclic in Hl. cbn in Hl.
    destruct (lookup_lt_is_Some_2 (f_edges fc) 1 ltac:(lia)) as [e He].
    destruct (Forall2_lookup_l _ _ _ _ _ Hes He) as (p & Hp & p' & Hp' & Hj).
    cbn in Hp. injection Hp as <-. cbn in Hj.
    apply bool_decide_eq_true in Hj.
    exists fc, e, a0, b0, p'. repeat split; try done. }
  set (es := (fun fc => default 0 (f_edges fc !! 1)) <$> fcs).
  exists (seq (length (faces bm)) (length v1)), es, bm1.
  split; [|split; [by rewrite length_seq|split; [by unfold es; rewrite length_fmap|]]].
  - unfold bridge_verts. rewrite (bind_ret_run _ _ _ _ _ Hrun).
    rewrite (bind_ret_run _ _ bm1 bm1 es); [done|].
    apply mapM_face_edge. apply Forall2_same_length_lookup.
    split; [by unfold es; rewrite length_seq, length_fmap|].
    intros i f e [-> Hi]%lookup_seq He.
    destruct (Hq i Hi) as (fc & e' & a & b & p & Hfc & _ & He' & _).
    exists fc. unfold es in He. rewrite list_lookup_fmap, Hfc in He. cbn in He.
    rewrite He' in He. cbn in He. injection He as <-. split; [|done].
    cbn. rewrite lookup_app_r by lia.
    by replace (length (faces bm) + i - length (faces bm)) with i by lia.
  - intros i Hi.
    destruct (Hq i Hi) as (fc & e & a & b & p & Hfc & H4 & He & Ha & Hb & Hp & Hab).
    exists (length (faces bm) + i), fc, e, a, b, p.
    split; [by apply lookup_seq_lt|]. split; [lia|]. split.
    { cbn. rewrite lookup_app_r by lia.
      by replace (length (faces bm) + i - length (faces bm)) with i by lia. }
    split; [done|]. split; [|done].
    unfold es. by rewrite list_lookup_fmap, Hfc; cbn; rewrite He.
Qed.

Lemma bridge_verts_rings_witness :
  length [0; 1; 2] = length [3; 4; 5] /\
  3 <= length [0; 1; 2] /\
  verts_of prism_verts ([0; 1; 2] ++ [3; 4; 5]) /\
  exists fs es bm',
    bridge_verts [0; 1; 2] [3; 4; 5] prism_verts = (Ret (mkBridge fs es), bm') /\
    length fs = 3 /\ length es = 3.
Proof.
  assert (Hlen : length [0; 1; 2] = length [3; 4; 5]) by reflexivity.
  assert (Hn : 3 <= length [0; 1; 2]) by (cbn; lia).
  assert (Hring : verts_of prism_verts ([0; 1; 2] ++ [3; 4; 5])).
  { split; apply (bool_decide_unpack _); vm_compute; exact I. }
  assert (Hfresh : forall q, q ∈ quadwise_cyclic [0; 1; 2] [3; 4; 5] ->
                             face_exists prism_verts q = false).
  { intros q _. reflexivity. }
  split; [exact Hlen|]. split; [exact Hn|]. split; [exact Hring|].
  destruct (bridge_verts_rings prism_verts [0; 1; 2] [3; 4; 5] Hlen Hn Hring Hfresh)
    as (fs & es & bm' & Hrun & Hfs & Hes & _).
  exists fs, es, bm'. split; [exact Hrun|]. split; [exact Hfs|exact Hes].
Defined.

(** C4, as stated, fails for rings of two vertices: the second quad lies on
    the same four vertices as the first, and the kernel does not make the
    same face twice. *)
Lemma bridge_verts_short_rings :
  length [0; 1] = length [2; 3] /\
  verts_of rect_verts ([0; 1] ++ [2; 3]) /\
  quadwise_cyclic [0; 1] [2; 3] = [[1; 0; 2; 3]; [0; 1; 3; 2]] /\
  fst (bridge_verts [0; 1] [2; 3] rect_verts) = Raise ValueError.
Proof.
  split; [done|]. split.
  { split; apply (bool_decide_unpack _); vm_compute; exact I. }
  split; [done|]. by vm_compute.
Qed.

(** ** [duplicate_verts] *)

Lemma dup_faces_verts_only (bm : BMesh) (vs : list nat) :
  dup_faces bm (ElemVert <$> vs) = [].
Proof.
  unfold dup_faces. induction (seq 0 (length (faces bm))) as [|f l IH]; [done|].
  rewrite filter_cons_False; [done|].
  by intros (? & ? & ?)%list_elem_of_fmap.
Qed.

Lemma dup_edges_verts_only (bm : BMesh) (vs : list nat) :
  dup_edges bm (ElemVert <$> vs) = [].
Proof.
  unfold dup_edges. rewrite dup_faces_verts_only.
  induction (seq 0 (length (edges bm))) as [|e l IH]; [done|].
  rewrite filter_cons_False; [done|].
  intros [(? & ? & ?)%list_elem_of_fmap|H%Exists_nil]; done.
Qed.

Lemma dup_verts_verts_only (bm : BMesh) (vs : list nat) :
  dup_verts bm (ElemVert <$> vs) =
  filter (fun v => v ∈ vs) (seq 0 (length (verts bm))).
Proof.
  unfold dup_verts. rewrite dup_edges_verts_only, dup_faces_verts_only.
  apply list_filter_iff. intros v. split.
  - intros [(? & [= <-] & ?)%list_elem_of_fmap|[H%Exists_nil|H%Exists_nil]]; done.
  - intros Hv. left. by apply list_elem_of_fmap_2.
Qed.

Lemma dup_verts_perm (bm : BMesh) (vs : list nat) :
  NoDup vs -> Forall (fun v => v < length (verts bm)) vs ->
  filter (fun v => v ∈ vs) (seq 0 (length (verts bm))) ≡ₚ vs.
Proof.
  intros Hnd Hlive. apply NoDup_Permutation; [|done|].
  - apply NoDup_filter, NoDup_seq.
  - intros v. rewrite list_elem_of_filter, elem_of_seq.
    rewrite Forall_forall in Hlive. split; [by intros [? ?]|].
    intros Hv. split; [done|]. specialize (Hlive v Hv). lia.
Qed.

Lemma length_omap_verts (bm : BMesh) (sel : list nat) :
  Forall (fun v => v < length (verts bm)) sel ->
  length (omap (fun v => verts bm !! v) sel) = length sel.
Proof.
  induction 1 as [|v sel Hv _ IH]; [done|]. cbn.
  destruct (lookup_lt_is_Some_2 _ _ Hv) as [c ->]. cbn. by rewrite IH.
Qed.

Lemma omap_as_vert (l : list nat) : omap as_vert (ElemVert <$> l) = l.
Proof. induction l as [|v l IH]; [done|]. cbn. by rewrite IH. Qed.

Lemma ops_duplicate_verts_only (bm : BMesh) (vs : list nat) :
  NoDup vs -> Forall (fun v => v < length (verts bm)) vs ->
  exists new,
    ops_duplicate (ElemVert <$> vs) bm =
      (Ret (ElemVert <$> seq (length (verts bm)) (length vs)),
       mkBMesh (verts bm ++ new) (edges bm) (faces bm)) /\
    length new = length vs /\
    forall c, c ∈ new -> exists v, v ∈ vs /\ verts bm !! v = Some c.
Proof.
  intros Hnd Hlive.
  pose proof (dup_verts_perm bm vs Hnd Hlive) as Hperm.
  set (sel := filter (fun v => v ∈ vs) (seq 0 (length (verts bm)))) in *.
  exists (omap (fun v => verts bm !! v) sel).
  assert (Hsel : Forall (fun v => v < length (verts bm)) sel) by by rewrite Hperm.
  assert (Hl : length sel = length vs) by by apply Permutation_length.
  split; [|split].
  - unfold ops_duplicate.
    replace (forallb (is_elem bm) (ElemVert <$> vs)) with true.
    2:{ symmetry. apply forallb_forall.
        intros x (v & -> & Hv)%list_elem_of_In%list_elem_of_fmap. cbn.
        apply bool_decide_eq_true. rewrite Forall_forall in Hlive. by apply Hlive. }
    cbn [negb].
    rewrite bool_decide_eq_true_2
      by (apply NoDup_fmap_2; [by intros ?? [= ->]|done]).
    cbn [negb].
    rewrite dup_verts_verts_only, dup_edges_verts_only, dup_faces_verts_only.
    fold sel. cbn. rewrite !app_nil_r. by rewrite Hl.
  - by rewrite length_omap_verts.
  - intros c (v & Hv & Hc)%list_elem_of_omap. exists v. split; [|done].
    by rewrite <- Hperm.
Qed.

Lemma forM_set_co_z {A : Arith} (z : Q) (new old : list Vector) es fs :
  forM_ (seq (length old) (length new)) (fun v => set_co_z v z)
        (mkBMesh (old ++ new) es fs) =
  (Ret tt, mkBMesh (old ++ (with_z (store z) <$> new)) es fs).
Proof.
  revert old. induction new as [|c new IH]; intros old; [done|].
  cbn [length seq forM_]. unfold bind, set_co_z at 1. cbn [verts edges faces].
  rewrite lookup_app_r, Nat.sub_diag by lia. cbn [lookup list_lookup].
  rewrite insert_app_r_alt, Nat.sub_diag by lia. cbn [insert list_insert].
  specialize (IH (old ++ [with_z (store z) c])).
  rewrite length_app, <- !app_assoc in IH. cbn in IH.
  replace (length old + 1) with (S (length old)) in IH by lia.
  exact IH.
Qed.

(** A selection that names an element twice is refused. *)
Lemma ops_duplicate_repeat (geom : list BMElem) (bm : BMesh) :
  ~ NoDup geom -> ops_duplicate geom bm = (Raise ValueError, bm).
Proof.
  intros Hnd. unfold ops_duplicate.
  destruct (forallb (is_elem bm) geom); cbn [negb]; [|done].
  by rewrite bool_decide_eq_false_2.
Qed.

(** C6 (amended).  For every selection V of pairwise distinct vertices of
    the mesh and every height Z, [duplicate_verts(bm, V, z=Z)] returns
    exactly |V| vertices, all newly created and distinct, each a copy of a
    vertex of V with its z-coordinate replaced by Z rounded to single
    precision; the coordinates (so the z-coordinates) of all vertices that
    existed before the call, those of V among them, are unchanged.  For a
    sequence V that repeats a vertex, the call raises [ValueError] and the
    mesh is unchanged. *)
Theorem duplicate_verts_z (bm : BMesh) (V : list nat) (Z : Q) :
  (verts_of bm V ->
   exists vs bm',
     duplicate_verts (A:=ieee) V (Some Z) bm = (Ret vs, bm') /\
     length vs = length V /\
     NoDup vs /\
     (forall v, v ∈ vs ->
        length (verts bm) <= v /\
        exists c u cu,
          verts bm' !! v = Some c /\ vec_z c = single Z /\
          u ∈ V /\ verts bm !! u = Some cu /\
          vec_x c = vec_x cu /\ vec_y c = vec_y cu) /\
     (forall u, u < length (verts bm) -> verts bm' !! u = verts bm !! u)) /\
  (~ NoDup V ->
   duplicate_verts (A:=ieee) V (Some Z) bm = (Raise ValueError, bm)).
Proof.
  split.
  - intros [Hnd Hlive].
    destruct (ops_duplicate_verts_only bm V Hnd Hlive) as (new & Hrun & Hlen & Hnew).
    exists (seq (length (verts bm)) (length V)),
           (mkBMesh (verts bm ++ (with_z (single Z) <$> new)) (edges bm) (faces bm)).
    split; [|split; [apply length_seq|split; [apply NoDup_seq|split]]].
    + unfold duplicate_verts. rewrite (bind_ret_run _ _ _ _ _ Hrun).
      rewrite omap_as_vert. rewrite <- Hlen.
      by rewrite (bind_ret_run _ _ _ _ _
                    (forM_set_co_z (A:=ieee) Z new (verts bm) _ _)).
    + intros v [Hge Hlt]%elem_of_seq. split; [done|]. cbn.
      destruct (lookup_lt_is_Some_2 new (v - length (verts bm)) ltac:(lia)) as [c Hc].
      destruct (Hnew c (list_elem_of_lookup_2 _ _ _ Hc)) as (u & Hu & Hcu).
      exists (with_z (single Z) c), u, c.
      rewrite lookup_app_r, list_lookup_fmap, Hc by lia. done.
    + intros u Hu. cbn. by rewrite lookup_app_l by done.
  - intros Hnd. unfold duplicate_verts, bind.
    rewrite ops_duplicate_repeat; [done|].
    intros H. apply Hnd. by apply NoDup_fmap_1 in H.
Qed.

Lemma duplicate_verts_z_witness :
  verts_of prism_verts [4; 0] /\
  ~ NoDup [0; 0] /\
  (exists vs bm',
     duplicate_verts (A:=ieee) [4; 0] (Some 5%Q) prism_verts = (Ret vs, bm') /\
     length vs = 2 /\
     (forall u, u < length (verts prism_verts) ->
        verts bm' !! u = verts prism_verts !! u)) /\
  duplicate_verts (A:=ieee) [0; 0] (Some 5%Q) prism_verts =
    (Raise ValueError, prism_verts).
Proof.
  assert (Hring : verts_of prism_verts [4; 0]).
  { split; apply (bool_decide_unpack _); vm_compute; exact I. }
  assert (Hrep : ~ NoDup [0; 0]).
  { apply (bool_decide_unpack _). vm_compute. exact I. }
  split; [exact Hring|]. split; [exact Hrep|]. split.
  - destruct (proj1 (duplicate_verts_z prism_verts [4; 0] 5%Q) Hring)
      as (vs & bm' & Hrun & Hlen & _ & _ & Hold).
    exists vs, bm'. split; [exact Hrun|]. split; [exact Hlen|exact Hold].
  - exact (proj2 (duplicate_verts_z prism_verts [0; 0] 5%Q) Hrep).
Defined.

(** C6, as stated, fails twice.  A sequence that names a vertex twice is
    a vertex sequence, and the call raises for it.  And the Python float
    0.1 is not a single-precision value: the duplicate made with z=0.1 has
    z-coordinate 13421773 / 2^27, not 0.1. *)
Lemma duplicate_verts_z_rounded :
  fst (duplicate_verts (A:=ieee) [0; 0] (Some 5%Q) prism_verts) = Raise ValueError /\
  exists c,
    fst (duplicate_verts (A:=ieee) [0] (Some float_0_1) prism_verts) = Ret [6] /\
    coords (snd (duplicate_verts (A:=ieee) [0] (Some float_0_1) prism_verts)) [6] =
      [Some c] /\
    vec_z c = Finite (13421773 # 134217728) /\
    ~ scalar_eq (vec_z c) (Finite float_0_1).
Proof.
  split; [by vm_compute|].
  eexists. split; [by vm_compute|]. split; [vm_compute; reflexivity|].
  split; [reflexivity|]. by vm_compute.
Qed.

(** ** [edge_loop_expand] *)

Lemma length_py_range (lo hi : Z) : length (py_range lo hi) = Z.to_nat (hi - lo).
Proof. unfold py_range. by rewrite length_fmap, length_seq. Qed.

Section EdgeLoopFacts.
Context {L E : Type} `{Loops L E}.

Lemma expand_fold (r : list Z) (st : L * L * list E) :
  exists rest,
    snd (foldl expand_step st r) = snd st ++ rest /\
    length rest = 2 * length r.
Proof.
  revert st. induction r as [|z r IH]; intros st.
  - exists []. by rewrite app_nil_r.
  - destruct st as [[ln lp] es]. cbn [foldl].
    destruct (IH (expand_step (ln, lp, es) z)) as (rest & -> & Hlen).
    cbn [expand_step snd]. eexists (_ :: _ :: rest).
    rewrite <- !app_assoc. split; [done|]. cbn. lia.
Qed.

Lemma edge_loop_expand_run (e : E) (limit : Z) :
  link_loops e <> [] ->
  exists rest,
    edge_loop_expand e limit = Ret (e :: rest) /\
    length rest = 2 * Z.to_nat (limit - 1).
Proof.
  intros Hl. unfold edge_loop_expand.
  destruct (link_loops e) as [|loop ls] eqn:Heq; [done|]. cbn.
  destruct (expand_fold (py_range 1 limit) (loop, loop, [e]))
    as (rest & -> & Hlen).
  exists rest. split; [done|]. by rewrite Hlen, length_py_range.
Qed.

Lemma edge_loop_expand_raise (e : E) (limit : Z) :
  link_loops e = [] -> edge_loop_expand e limit = Raise IndexError.
Proof. intros Hl. unfold edge_loop_expand. by rewrite Hl. Qed.
End EdgeLoopFacts.

(** C2 (amended).  For every seed edge e and every limit >= 1: whenever
    [edge_loop_expand(e, limit)] returns a list, the list has exactly
    2*limit - 1 edges (the seed, limit - 1 edges forward and limit - 1 edges
    backward), which is at most [limit] only for limit = 1; and it does
    return a list when e has a loop. *)
Theorem edge_loop_expand_count {L E : Type} `{Loops L E} (e : E) (limit : Z) :
  (1 <= limit)%Z ->
  (link_loops e <> [] -> exists l, edge_loop_expand e limit = Ret l) /\
  (forall l, edge_loop_expand e limit = Ret l ->
     Z.of_nat (length l) = (2 * limit - 1)%Z /\
     ((Z.of_nat (length l) <= limit)%Z <-> limit = 1%Z)).
Proof.
  intros Hlim. split.
  - intros Hl. destruct (edge_loop_expand_run e limit Hl) as (rest & Hrun & _).
    by exists (e :: rest).
  - intros l Hrun.
    destruct (decide (link_loops e = [])) as [Hl|Hl].
    + by rewrite edge_loop_expand_raise in Hrun.
    + destruct (edge_loop_expand_run e limit Hl) as (rest & Hrun' & Hlen).
      rewrite Hrun' in Hrun. injection Hrun as <-. cbn [length]. lia.
Qed.

Lemma edge_loop_expand_count_witness :
  (1 <= 2)%Z /\
  (forall l, @edge_loop_expand _ _ (BMesh_loops strip) 4 2 = Ret l ->
     Z.of_nat (length l) = 3%Z).
Proof.
  assert (Hlim : (1 <= 2)%Z) by lia.
  split; [exact Hlim|]. intros l Hl.
  destruct (@edge_loop_expand_count _ _ (BMesh_loops strip) 4 2 Hlim) as [_ Hc].
  destruct (Hc l Hl) as [Hlen _]. exact Hlen.
Defined.

(** C2, as stated, fails: on the strip of three quads, from the bottom edge
    of the middle quad and with limit 2, three different edges are
    returned. *)
Lemma edge_loop_expand_over_limit :
  (1 <= 2)%Z /\
  @edge_loop_expand _ _ (BMesh_loops strip) 4 2 = Ret [4; 7; 0] /\
  ~ (Z.of_nat (length [4; 7; 0]) <= 2)%Z.
Proof.
  split; [lia|]. split; [vm_compute; reflexivity|]. cbn. lia.
Qed.

(** C10 (amended).  For every seed edge e that has at least one loop (an
    edge of at least one face) and every non-negative limit,
    [edge_loop_expand(e, limit)] returns a list of exactly
    1 + 2*max(0, limit - 1) edges whose first element is e; with the default
    limit of 0 it is the one-element list of the seed. *)
Theorem edge_loop_expand_length {L E : Type} `{Loops L E} (e : E) (limit : Z) :
  link_loops e <> [] ->
  (0 <= limit)%Z ->
  exists rest,
    edge_loop_expand e limit = Ret (e :: rest) /\
    Z.of_nat (length (e :: rest)) = (1 + 2 * Z.max 0 (limit - 1))%Z /\
    (limit = limit_default -> rest = []).
Proof.
  intros Hl Hlim.
  destruct (edge_loop_expand_run e limit Hl) as (rest & Hrun & Hlen).
  exists rest. split; [done|]. split; [cbn [length]; lia|].
  unfold limit_default. intros ->. cbn in Hlen. by destruct rest.
Qed.

Lemma edge_loop_expand_length_witness :
  @link_loops _ _ (BMesh_loops strip) 4 <> [] /\
  (0 <= 3)%Z /\
  exists rest,
    @edge_loop_expand _ _ (BMesh_loops strip) 4 3 = Ret (4 :: rest) /\
    Z.of_nat (length (4 :: rest)) = 5%Z.
Proof.
  assert (Hl : @link_loops _ _ (BMesh_loops strip) 4 <> []) by (vm_compute; discriminate).
  assert (Hlim : (0 <= 3)%Z) by lia.
  split; [exact Hl|]. split; [exact Hlim|].
  destruct (@edge_loop_expand_length _ _ (BMesh_loops strip) 4 3 Hl Hlim)
    as (rest & Hrun & Hlen & _).
  exists rest. split; [exact Hrun|exact Hlen].
Defined.

(** C10, as stated, fails: for an edge that borders no face,
    [e.link_loops[0]] raises [IndexError] and no list is returned. *)
Lemma edge_loop_expand_wire :
  is_edge wire 0 = true /\
  (0 <= limit_default)%Z /\
  @edge_loop_expand _ _ (BMesh_loops wire) 0 limit_default = Raise IndexError /\
  ~ (exists l, @edge_loop_expand _ _ (BMesh_loops wire) 0 limit_default = Ret l).
Proof.
  split; [reflexivity|]. split; [done|].
  split; [vm_compute; reflexivity|].
  intros [l Hl]. vm_compute in Hl. discriminate.
Qed.

(** ** Reasoning about computations *)

Lemma hoare_bind {S A B} (P : S -> Prop) (m : M S A) (k : A -> M S B)
    (R : A -> S -> Prop) (Qr : B -> S -> Prop) (Qe : exn -> S -> Prop) :
  hoare P m R Qe -> (forall a, hoare (R a) (k a) Qr Qe) ->
  hoare P (bind m k) Qr Qe.
Proof.
  intros Hm Hk s Hs. specialize (Hm s Hs). unfold bind.
  destruct (m s) as [[a|e] s']; [by apply Hk|done].
Qed.

Lemma hoare_ret {S A} (P : S -> Prop) (a : A)
    (Qr : A -> S -> Prop) (Qe : exn -> S -> Prop) :
  (forall s, P s -> Qr a s) -> hoare P (ret a) Qr Qe.
Proof. intros H s Hs. by apply H. Qed.

Lemma hoare_weaken {S A} (P P' : S -> Prop) (m : M S A)
    (Qr Qr' : A -> S -> Prop) (Qe Qe' : exn -> S -> Prop) :
  hoare P' m Qr' Qe' ->
  (forall s, P s -> P' s) ->
  (forall a s, Qr' a s -> Qr a s) ->
  (forall e s, Qe' e s -> Qe e s) ->
  hoare P m Qr Qe.
Proof.
  intros Hm HP Hr He s Hs. specialize (Hm s (HP s Hs)).
  destruct (m s) as [[a|e] s']; auto.
Qed.

(** A loop whose invariant depends on the items already visited. *)
Lemma hoare_forM_ {S A} (I : list A -> S -> Prop) (f : A -> M S unit)
    (Qe : exn -> S -> Prop) (xs : list A) :
  (forall pre x, hoare (I pre) (f x) (fun _ => I (pre ++ [x])) Qe) ->
  hoare (I []) (forM_ xs f) (fun _ => I xs) Qe.
Proof.
  intros Hf.
  enough (Hgen : forall pre, hoare (I pre) (forM_ xs f) (fun _ => I (pre ++ xs)) Qe)
    by exact (Hgen []).
  induction xs as [|x xs IH]; intros pre.
  - apply hoare_ret. intros s. by rewrite app_nil_r.
  - cbn [forM_]. eapply hoare_bind; [apply Hf|]. intros u.
    eapply hoare_weaken; [apply (IH (pre ++ [x]))|done| |done].
    intros ? s. by rewrite <- app_assoc.
Qed.

Lemma preserves_bind {S A B} (I : S -> Prop) (m : M S A) (k : A -> M S B) :
  preserves I m -> (forall a, preserves I (k a)) -> preserves I (bind m k).
Proof. intros Hm Hk. by eapply hoare_bind. Qed.

Lemma hoare_bind_keeps {S A B} (I : S -> Prop) (m : M S A) (k : A -> M S B)
    (Qr : B -> S -> Prop) :
  preserves I m -> (forall a, hoare I (k a) Qr (fun _ => I)) ->
  hoare I (bind m k) Qr (fun _ => I).
Proof. intros Hm Hk. by eapply hoare_bind. Qed.

Lemma preserves_pure {S A} (I : S -> Prop) (m : M S A) :
  (forall s, snd (m s) = s) -> preserves I m.
Proof.
  intros H s Hs. specialize (H s).
  destruct (m s) as [[a|e] s']; cbn in H; by rewrite H.
Qed.

(** ** [est_volume] *)

Section VolumeFacts.
Context {Geometry Matrix Spline : Type} (K : Kernel Geometry Matrix Spline).
Variable s0 : Scene Geometry Spline.

Abbreviation bm0 := (length (bmeshes s0)).

Lemma est_volume_body (pre : list (Object Matrix)) (ob : Object Matrix) :
  hoare (vol_inv s0 pre)
        (to_mesh K ob ;; transform_mesh K ob ;; from_mesh K bm0 ob ;; to_mesh_clear ob)
        (fun _ => vol_inv s0 (pre ++ [ob]))
        (fun _ => vol_live s0).
Proof.
  intros s [[Hd [g Hb]] Ht].
  unfold bind, to_mesh, transform_mesh, from_mesh, to_mesh_clear, bm_content,
    bind, get, lift, raise, bm_store.
  destruct (evaluated_mesh K (bpy_data s) ob) as [me|e]; [|by split; eauto].
  cbn. rewrite lookup_insert_eq.
  destruct (mesh_transform K (matrix_world ob) me) as [me'|e]; [|by split; eauto].
  cbn. rewrite Hb, lookup_app_r, Nat.sub_diag by lia. cbn.
  rewrite lookup_insert_eq.
  destruct (bm_from_mesh K g me') as [g'|e]; cbn; [|by split; eauto].
  split; [split; [done|]|].
  - exists g'. rewrite insert_app_r_alt, Nat.sub_diag by lia. done.
  - intros n. cbn.
    assert (Hin : n ∈ ob_name <$> pre ++ [ob] <->
                  n ∈ ob_name <$> pre \/ n = ob_name ob).
    { rewrite fmap_app, elem_of_app. cbn. by rewrite list_elem_of_singleton. }
    destruct (decide (n = ob_name ob)) as [->|Hn].
    + rewrite lookup_delete_eq. rewrite decide_True; [done|]. apply Hin. by right.
    + rewrite lookup_delete_ne, !lookup_insert_ne, Ht by done.
      repeat case_decide; try done; exfalso; tauto.
Qed.

Lemma est_volume_hoare (obs : list (Object Matrix)) :
  hoare (fun s => s = s0) (est_volume K obs)
        (fun _ s => bpy_data s = bpy_data s0 /\
                    bmeshes s = bmeshes s0 ++ [None] /\
                    forall n, temp_meshes s !! n =
                      if decide (n ∈ ob_name <$> obs) then None
                      else temp_meshes s0 !! n)
        (fun _ => vol_live s0).
Proof.
  unfold est_volume.
  apply (hoare_bind _ _ _ (fun bm s => bm = bm0 /\ vol_inv (Matrix:=Matrix) s0 [] s)).
  { intros s ->. cbn. split; [done|]. split; [split; [done|by eexists]|done]. }
  intros bm s [-> Hinv]. revert s Hinv.
  refine (hoare_bind (vol_inv (Matrix:=Matrix) s0 []) _ _ (fun _ => vol_inv s0 obs) _ _ _ _).
  { apply hoare_forM_, est_volume_body. }
  intros _ s [[Hd [g Hb]] Ht].
  unfold bind, bm_free, bm_content, bind, lift, bm_store, ret.
  rewrite Hb, lookup_app_r, Nat.sub_diag by lia. cbn.
  destruct (bm_triangulate K g) as [g'|e]; cbn; [|by split; eauto].
  destruct (bm_calc_volume K g') as [vol|e]; cbn.
  - rewrite Hb, !insert_app_r_alt, !Nat.sub_diag by lia. cbn.
    rewrite lookup_app_r, Nat.sub_diag by lia. cbn.
    rewrite !insert_app_r_alt, !Nat.sub_diag by lia. done.
  - split; [done|]. exists g'.
    rewrite Hb, !insert_app_r_alt, !Nat.sub_diag by lia. done.
Qed.
End VolumeFacts.

(** C3 (amended).  [est_volume] never changes a datablock, on any exit path.
    When it returns, the temporary merged mesh it made is freed, the
    temporary mesh of every input object is cleared, and no other
    temporary mesh or BMesh has changed.  When it raises, the temporary
    merged mesh is still allocated: it is not freed on error paths. *)
Theorem est_volume_effects {Geometry Matrix Spline : Type}
    (K : Kernel Geometry Matrix Spline)
    (obs : list (Object Matrix)) (s : Scene Geometry Spline) :
  let r := est_volume K obs s in
  bpy_data (snd r) = bpy_data s /\
  match fst r with
  | Ret _ =>
      bmeshes (snd r) = bmeshes s ++ [None] /\
      forall n, temp_meshes (snd r) !! n =
        if decide (n ∈ ob_name <$> obs) then None else temp_meshes s !! n
  | Raise _ =>
      exists g, bmeshes (snd r) = bmeshes s ++ [Some g]
  end.
Proof.
  cbn zeta. pose proof (est_volume_hoare K s obs s eq_refl) as H.
  destruct (est_volume K obs s) as [[vol|e] s']; cbn.
  - destruct H as (? & ? & ?). done.
  - destruct H as [? ?]. done.
Qed.

(** ** [est_curve_length] *)

Section CurveFacts.
Context {Geometry Matrix Spline : Type} (K : Kernel Geometry Matrix Spline).
Implicit Types (s : Scene Geometry Spline) (ob : Object Matrix) (c : Curve Spline).

Lemma data_getattr_run ob s d c k v :
  ob_data ob = Some d -> bpy_data s !! d = Some (IDCurve c) ->
  curve_getattr c k = Ret v ->
  data_getattr ob k s = (Ret v, s).
Proof.
  intros Hd Hc Hk. unfold data_getattr, bind, ob_curve, lift.
  by rewrite Hd, Hc; cbn; rewrite Hk.
Qed.

Lemma data_setattr_run ob s d c k v c' :
  ob_data ob = Some d -> bpy_data s !! d = Some (IDCurve c) ->
  curve_setattr c k v = Ret c' ->
  data_setattr ob k v s =
    (Ret tt, mkScene (<[d := IDCurve c']> (bpy_data s)) (temp_meshes s) (bmeshes s)).
Proof.
  intros Hd Hc Hk. unfold data_setattr, bind, ob_curve, lift.
  by rewrite Hd, Hc; cbn; rewrite Hk.
Qed.

Lemma reset_curve_run ob s d c :
  ob_data ob = Some d -> bpy_data s !! d = Some (IDCurve c) ->
  let settings : dict :=
    [("bevel_object", PyNone); ("bevel_depth", PyFloat 0); ("extrude", PyFloat 0)] in
  reset_curve ob settings settings s =
    (Ret (saved c),
     mkScene (<[d := IDCurve (reset_of c)]> (bpy_data s)) (temp_meshes s) (bmeshes s)).
Proof.
  intros Hd Hc. cbn zeta. cbn [reset_curve].
  erewrite bind_ret_run by (eapply data_getattr_run; [done|done|reflexivity]).
  erewrite bind_ret_run by (eapply data_setattr_run; [done|done|reflexivity]).
  erewrite bind_ret_run
    by (eapply data_getattr_run; [done|apply lookup_insert_eq|reflexivity]).
  erewrite bind_ret_run
    by (eapply data_setattr_run; [done|apply lookup_insert_eq|reflexivity]).
  erewrite bind_ret_run
    by (eapply data_getattr_run; [done|apply lookup_insert_eq|reflexivity]).
  erewrite bind_ret_run
    by (eapply data_setattr_run; [done|apply lookup_insert_eq|reflexivity]).
  cbn. unfold ret. by rewrite !insert_insert_eq.
Qed.

Lemma restore_curve_run ob s d c c0 :
  ob_data ob = Some d -> bpy_data s !! d = Some (IDCurve c0) ->
  splines c0 = splines c ->
  forM_ (saved c) (fun kv => data_setattr ob kv.1 kv.2) s =
    (Ret tt, mkScene (<[d := IDCurve c]> (bpy_data s)) (temp_meshes s) (bmeshes s)).
Proof.
  intros Hd Hc Hsp. unfold saved. cbn [forM_ fst snd].
  assert (Hbo : exists c1, curve_setattr c0 "bevel_object"
              (from_option PyObject PyNone (bevel_object c)) = Ret c1 /\
            c1 = mkCurve (bevel_object c) (bevel_depth c0) (extrude c0) (splines c0)).
  { destruct (bevel_object c); eexists; split; reflexivity. }
  destruct Hbo as (c1 & Hc1 & ->).
  erewrite bind_ret_run by (eapply data_setattr_run; [done|done|exact Hc1]).
  erewrite bind_ret_run
    by (eapply data_setattr_run; [done|apply lookup_insert_eq|reflexivity]).
  erewrite bind_ret_run
    by (eapply data_setattr_run; [done|apply lookup_insert_eq|reflexivity]).
  cbn. unfold ret. rewrite !insert_insert_eq, Hsp. by destruct c.
Qed.

(** The steps between reset and restore never write a datablock. *)
Section Frame.
Variable D : gmap string (ID Geometry Spline).
Local Abbreviation keeps m := (preserves (fun s => bpy_data s = D) m).

Lemma to_mesh_keeps ob : keeps (to_mesh K ob).
Proof. intros s Hs. unfold to_mesh. by destruct (evaluated_mesh _ _ _). Qed.

Lemma transform_mesh_keeps ob : keeps (transform_mesh K ob).
Proof.
  intros s Hs. unfold transform_mesh.
  destruct (temp_meshes s !! ob_name ob); [|done].
  by destruct (mesh_transform _ _ _).
Qed.

Lemma to_mesh_clear_keeps ob : keeps (to_mesh_clear (Geometry:=Geometry) (Spline:=Spline) ob).
Proof. by intros s Hs. Qed.

Lemma bmesh_new_keeps : keeps (bmesh_new K).
Proof. by intros s Hs. Qed.

Lemma bm_content_keeps bm : keeps (bm_content (Spline:=Spline) bm).
Proof. intros s Hs. unfold bm_content. by destruct (bmeshes s !! bm) as [[?|]|]. Qed.

Lemma bm_store_keeps bm g : keeps (bm_store (Spline:=Spline) bm g).
Proof. by intros s Hs. Qed.

Lemma lift_keeps {A} (o : outcome A) : keeps (lift o).
Proof. intros s Hs. unfold lift. by destruct o. Qed.

Lemma from_mesh_keeps bm ob : keeps (from_mesh K bm ob).
Proof.
  unfold from_mesh. apply preserves_bind; [apply bm_content_keeps|]. intros g.
  apply preserves_bind; [by apply preserves_pure|]. intros s'.
  destruct (temp_meshes s' !! ob_name ob); [|by apply preserves_pure].
  apply preserves_bind; [apply lift_keeps|]. intros g'. apply bm_store_keeps.
Qed.

Lemma bm_free_keeps bm : keeps (bm_free (Spline:=Spline) bm).
Proof.
  unfold bm_free. apply preserves_bind; [apply bm_content_keeps|].
  intros _. apply bm_store_keeps.
Qed.

Lemma sum_lengths_keeps {A} (f : A -> outcome Q) xs acc :
  keeps (sum_lengths (Geometry:=Geometry) (Spline:=Spline) f xs acc).
Proof.
  revert acc. induction xs as [|x xs IH]; intros acc; [by apply preserves_pure|].
  cbn [sum_lengths]. apply preserves_bind; [apply lift_keeps|]. intros l. apply IH.
Qed.
End Frame.

Lemma est_curve_length_hoare ob s0 d c :
  modifiers ob <> [] ->
  ob_data ob = Some d ->
  bpy_data s0 !! d = Some (IDCurve c) ->
  hoare (fun s => s = s0) (est_curve_length K ob)
        (fun _ s => bpy_data s = bpy_data s0)
        (fun _ s => bpy_data s = <[d := IDCurve (reset_of c)]> (bpy_data s0)).
Proof.
  intros Hmod Hd Hc s ->. unfold est_curve_length.
  rewrite bool_decide_eq_true_2 by done.
  rewrite (bind_ret_run _ _ _ _ _ (reset_curve_run ob s0 d c Hd Hc)).
  set (D1 := <[d := IDCurve (reset_of c)]> (bpy_data s0)).
  set (s1 := mkScene D1 _ _).
  assert (H1 : bpy_data s1 = D1) by done.
  clearbody s1. revert s1 H1.
  change (hoare (fun s => bpy_data s = D1)
    (to_mesh K ob ;;
     transform_mesh K ob ;;
     bm <- bmesh_new K ;;
     from_mesh K bm ob ;;
     to_mesh_clear ob ;;
     g <- bm_content bm ;;
     length <- sum_lengths (edge_calc_length K g) (seq 0 (bm_edge_count K g)) 0 ;;
     bm_free bm ;;
     forM_ (saved c) (fun kv => data_setattr ob kv.1 kv.2) ;;
     ret length)
    (fun _ s => bpy_data s = bpy_data s0)
    (fun _ s => bpy_data s = D1)).
  apply hoare_bind_keeps; [apply to_mesh_keeps|]. intros _.
  apply hoare_bind_keeps; [apply transform_mesh_keeps|]. intros _.
  apply hoare_bind_keeps; [apply bmesh_new_keeps|]. intros bm.
  apply hoare_bind_keeps; [apply from_mesh_keeps|]. intros _.
  apply hoare_bind_keeps; [apply to_mesh_clear_keeps|]. intros _.
  apply hoare_bind_keeps; [apply bm_content_keeps|]. intros g.
  apply hoare_bind_keeps; [apply sum_lengths_keeps|]. intros len.
  apply hoare_bind_keeps; [apply bm_free_keeps|].
  intros _ s Hs.
  erewrite bind_ret_run.
  2:{ apply (restore_curve_run ob s d c (reset_of c)); [done| |done].
      rewrite Hs. apply lookup_insert_eq. }
  cbn. rewrite Hs. unfold D1. rewrite insert_insert_eq. by apply insert_id.
Qed.
End CurveFacts.

(** C1 (amended).  For every curve object with at least one modifier: when
    [est_curve_length] returns, every datablock is as it was before the
    call, so the object's bevel_object, bevel_depth and extrude are equal to
    their pre-call values.  When the calculation raises, the exception
    leaves the function before the restoration: the three properties are
    left at the reset values None, 0.0 and 0.0. *)
Theorem est_curve_length_restores {Geometry Matrix Spline : Type}
    (K : Kernel Geometry Matrix Spline)
    (ob : Object Matrix) (s : Scene Geometry Spline)
    (d : string) (c : Curve Spline) :
  modifiers ob <> [] ->
  ob_data ob = Some d ->
  bpy_data s !! d = Some (IDCurve c) ->
  let r := est_curve_length K ob s in
  match fst r with
  | Ret _ =>
      bpy_data (snd r) = bpy_data s /\
      exists c', bpy_data (snd r) !! d = Some (IDCurve c') /\ same_settings c c'
  | Raise _ =>
      bpy_data (snd r) !! d = Some (IDCurve (reset_of c))
  end.
Proof.
  intros Hmod Hd Hc. cbn zeta.
  pose proof (est_curve_length_hoare K ob s d c Hmod Hd Hc s eq_refl) as H.
  destruct (est_curve_length K ob s) as [[len|e] s']; cbn.
  - split; [done|]. exists c. by rewrite H.
  - rewrite H. apply lookup_insert_eq.
Qed.

(** C1, as stated, fails: with a failure injected in the middle of the
    summation, [est_curve_length] raises, and the curve is left with its
    bevel object removed and its bevel depth and extrusion at zero. *)
Lemma est_curve_length_not_restored :
  modifiers ring_ob <> [] /\
  bpy_data scene0 !! "Curve" = Some (IDCurve ring_curve) /\
  fst (est_curve_length host_fault ring_ob scene0) = Raise MemoryError /\
  bpy_data (snd (est_curve_length host_fault ring_ob scene0)) !! "Curve" =
    Some (IDCurve (mkCurve None 0 0 [3; 5]%Q)) /\
  ~ same_settings ring_curve (mkCurve None 0 0 [3; 5]%Q).
Proof.
  split; [done|]. split; [by vm_compute|]. split; [by vm_compute|].
  split; [by vm_compute|]. by intros [? _].
Qed.

Lemma est_curve_length_restores_witness :
  modifiers ring_ob <> [] /\
  ob_data ring_ob = Some "Curve" /\
  bpy_data scene0 !! "Curve" = Some (IDCurve ring_curve) /\
  fst (est_curve_length host ring_ob scene0) = Ret 4%Q /\
  match fst (est_curve_length host ring_ob scene0) with
  | Ret _ =>
      bpy_data (snd (est_curve_length host ring_ob scene0)) = bpy_data scene0 /\
      exists c', bpy_data (snd (est_curve_length host ring_ob scene0)) !! "Curve"
                   = Some (IDCurve c') /\ same_settings ring_curve c'
  | Raise _ =>
      bpy_data (snd (est_curve_length host ring_ob scene0)) !! "Curve"
        = Some (IDCurve (reset_of ring_curve))
  end.
Proof.
  assert (H1 : modifiers ring_ob <> []) by discriminate.
  assert (H2 : ob_data ring_ob = Some "Curve") by reflexivity.
  assert (H3 : bpy_data scene0 !! "Curve" = Some (IDCurve ring_curve))
    by (vm_compute; reflexivity).
  split; [exact H1|]. split; [exact H2|]. split; [exact H3|].
  split; [vm_compute; reflexivity|].
  exact (est_curve_length_restores host ring_ob scene0 "Curve" ring_curve H1 H2 H3).
Defined.

(** C3, as stated, fails: an empty has no geometry, [to_mesh()] raises for
    it, and [est_volume] is left with the merged mesh still allocated (and
    holding the cube loaded before). *)
Lemma est_volume_leaks :
  fst (est_volume host [cube_ob; empty_ob] scene0) = Raise RuntimeError /\
  bmeshes scene0 = [] /\
  bmeshes (snd (est_volume host [cube_ob; empty_ob] scene0)) = [Some 12] /\
  bmeshes (snd (est_volume host [cube_ob; empty_ob] scene0)) <> bmeshes scene0 ++ [None].
Proof.
  split; [by vm_compute|]. split; [done|]. split; [by vm_compute|].
  by vm_compute.
Qed.

(** On inputs that the host can evaluate, [est_volume] returns, with the
    merged mesh freed. *)
Example est_volume_returns :
  fst (est_volume host [cube_ob; ring_ob] scene0) = Ret 28%Q /\
  bmeshes (snd (est_volume host [cube_ob; ring_ob] scene0)) = [None].
Proof. split; by vm_compute. Qed.

(** ** The localization table *)

Lemma locale_lookup (l : string) (m : gmap string string) :
  locale !! l = Some m ->
  (l = "EN" /\ m = dict_literal locale_EN) \/ (l = "RU" /\ m = dict_literal locale_RU).
Proof.
  unfold locale. unfold dict_literal at 1. cbn [foldl fst snd].
  rewrite lookup_insert_Some, lookup_insert_Some, lookup_empty.
  intros [[<- <-]|[_ [[<- <-]|[_ ?]]]]; [by right|by left|done].
Qed.

Lemma locale_same_keys :
  dom (dict_literal locale_EN) = dom (dict_literal locale_RU).
Proof. apply (bool_decide_unpack _). vm_compute. exact I. Qed.

(** C9.  The localization table has exactly two language codes, EN and RU,
    and any two of its language mappings have the same key set: a message
    key present in one is present in the other. *)
Theorem locale_languages :
  size locale = 2 /\
  dom locale = {["EN"; "RU"]} /\
  forall l1 l2 m1 m2,
    locale !! l1 = Some m1 -> locale !! l2 = Some m2 ->
    dom m1 = dom m2 /\
    forall k, is_Some (m1 !! k) -> is_Some (m2 !! k).
Proof.
  split; [by vm_compute|]. split.
  { unfold locale. unfold dict_literal at 1. cbn [foldl fst snd].
    rewrite !dom_insert_L, dom_empty_L. set_solver. }
  intros l1 l2 m1 m2 H1 H2.
  assert (Hdom : dom m1 = dom m2).
  { pose proof locale_same_keys as Hk.
    destruct (locale_lookup l1 m1 H1) as [[_ ->]|[_ ->]],
             (locale_lookup l2 m2 H2) as [[_ ->]|[_ ->]]; done. }
  split; [done|]. intros k Hk. apply elem_of_dom. rewrite <- Hdom.
  by apply elem_of_dom.
Qed.

Lemma locale_languages_witness :
  locale !! "RU" = Some (dict_literal locale_RU) /\
  locale !! "EN" = Some (dict_literal locale_EN) /\
  is_Some (dict_literal locale_RU !! "ct") /\
  is_Some (dict_literal locale_EN !! "ct").
Proof.
  assert (H1 : locale !! "RU" = Some (dict_literal locale_RU)) by (vm_compute; reflexivity).
  assert (H2 : locale !! "EN" = Some (dict_literal locale_EN)) by (vm_compute; reflexivity).
  assert (H3 : is_Some (dict_literal locale_RU !! "ct")) by (vm_compute; eauto).
  split; [exact H1|]. split; [exact H2|]. split; [exact H3|].
  destruct locale_languages as (_ & _ & Hsame).
  destruct (Hsame "RU" "EN" _ _ H1 H2) as [_ Hkeys].
  exact (Hkeys "ct" H3).
Defined.

(* ===================================================================== *)
(** * Part III: further properties of the tools                           *)
(* ===================================================================== *)

(** ** The value of [est_volume] *)

Section VolumeValue.
Context {Geometry Matrix Spline : Type} (K : Kernel Geometry Matrix Spline).
Implicit Types (s : Scene Geometry Spline) (ob : Object Matrix).

Lemma est_volume_loop (bm : nat) (obs : list (Object Matrix)) s (g : Geometry) :
  bmeshes s !! bm = Some (Some g) ->
  match forM_ obs (fun ob =>
          to_mesh K ob ;; transform_mesh K ob ;; from_mesh K bm ob ;; to_mesh_clear ob) s
  with
  | (Ret _, s') =>
      exists g', merged_mesh K (bpy_data s) obs g = Ret g' /\
                 bmeshes s' !! bm = Some (Some g') /\
                 bpy_data s' = bpy_data s
  | (Raise e, _) => merged_mesh K (bpy_data s) obs g = Raise e
  end.
Proof.
  revert s g. induction obs as [|ob obs IH]; intros s g Hbm; [by exists g|].
  cbn [forM_ merged_mesh].
  unfold bind at 1 2 3 4, to_mesh at 1, transform_mesh at 1, from_mesh at 1,
    to_mesh_clear at 1, bm_content, bind, get, lift, raise, bm_store.
  destruct (evaluated_mesh K (bpy_data s) ob) as [me|e]; [|done].
  cbn [temp_meshes bpy_data bmeshes].
  rewrite (lookup_insert_eq (temp_meshes s)).
  destruct (mesh_transform K (matrix_world ob) me) as [me'|e]; [|done].
  cbn [temp_meshes bpy_data bmeshes].
  rewrite Hbm. cbn [temp_meshes bpy_data bmeshes].
  rewrite (lookup_insert_eq (<[ob_name ob:=me]> (temp_meshes s))).
  destruct (bm_from_mesh K g me') as [g'|e]; cbn [temp_meshes bpy_data bmeshes]; [|done].
  match goal with |- context [forM_ obs _ ?s1] => apply (IH s1 g') end.
  cbn. apply list_lookup_insert_eq. by eapply lookup_lt_Some.
Qed.
End VolumeValue.

(** X1.  The outcome of [est_volume], value or exception, is that of the
    pipeline on the datablocks: load the evaluated, transformed mesh of
    each object in turn into an empty merged mesh, triangulate, measure.
    It does not depend on the temporary meshes or BMeshes that exist when
    the call is made. *)
Theorem est_volume_outcome {Geometry Matrix Spline : Type}
    (K : Kernel Geometry Matrix Spline)
    (obs : list (Object Matrix)) (s : Scene Geometry Spline) :
  fst (est_volume K obs s) = volume_of K (bpy_data s) obs.
Proof.
  unfold est_volume, volume_of. unfold bind at 1, bmesh_new at 1.
  set (s1 := mkScene _ _ _).
  assert (H1 : bmeshes s1 !! length (bmeshes s) = Some (Some (bm_new K))).
  { cbn. by rewrite lookup_app_r, Nat.sub_diag by lia. }
  pose proof (est_volume_loop K (length (bmeshes s)) obs s1 (bm_new K) H1) as Hloop.
  unfold bind at 1.
  destruct (forM_ obs _ s1) as [[[]|e] s2]; cbn in Hloop.
  - destruct Hloop as (g & -> & Hg & _).
    unfold bind, bm_free, bm_content, bind, lift, bm_store, ret.
    rewrite Hg. destruct (bm_triangulate K g) as [g'|e]; [|done]. cbn.
    destruct (bm_calc_volume K g') as [v|e]; [|done]. cbn.
    rewrite list_lookup_insert_eq by (by eapply lookup_lt_Some). done.
  - by rewrite Hloop.
Qed.

(** ** The value of [est_curve_length] *)

Section CurveValue.
Context {Geometry Matrix Spline : Type} (K : Kernel Geometry Matrix Spline).
Implicit Types (s : Scene Geometry Spline) (ob : Object Matrix) (c : Curve Spline).








Lemma ob_curve_fails ob s :
  ~ has_curve s ob -> ob_curve ob s = (Raise AttributeError, s).
Proof.
  intros Hno. unfold ob_curve.
  destruct (ob_data ob) as [d|] eqn:Hd; [|done].
  destruct (bpy_data s !! d) as [[c|g]|] eqn:Hc; [|done..].
  destruct Hno. by exists d, c.
Qed.
End CurveValue.



(** X3.  For an object with modifiers whose data is not a curve (a mesh, or
    no data at all), [est_curve_length] raises [AttributeError] at the first
    [getattr], before any property is written: the scene is unchanged. *)
Theorem est_curve_length_not_curve {Geometry Matrix Spline : Type}
    (K : Kernel Geometry Matrix Spline)
    (ob : Object Matrix) (s : Scene Geometry Spline) :
  modifiers ob <> [] ->
  ~ has_curve s ob ->
  est_curve_length K ob s = (Raise AttributeError, s).
Proof.
  intros Hmod Hno. unfold est_curve_length.
  rewrite bool_decide_eq_true_2 by done.
  cbn [reset_curve]. unfold data_getattr. unfold bind.
  by rewrite (ob_curve_fails ob s Hno).
Qed.

Lemma est_curve_length_not_curve_witness :
  est_curve_length host (mkObject "Cube" (Some "Cube") ["Bevel"] tt) scene0
    = (Raise AttributeError, scene0).
Proof.
  apply est_curve_length_not_curve.
  - discriminate.
  - intros (d & c & Hd & Hc). injection Hd as <-. vm_compute in Hc. discriminate.
Defined.



(** ** The order of the edges of [edge_loop_expand] *)

Section EdgeLoopOrder.
Context {L E : Type} `{Loops L E}.

Lemma expand_fold_closed (loop : L) (r : list Z) (j : nat) (acc : list E) :
  foldl expand_step
        (Nat.iter j loop_forward loop, Nat.iter j loop_backward loop, acc) r =
  (Nat.iter (j + length r) loop_forward loop,
   Nat.iter (j + length r) loop_backward loop,
   acc ++ flat_map (fun k => [loop_edge (Nat.iter k loop_forward loop);
                              loop_edge (Nat.iter k loop_backward loop)])
                   (seq (S j) (length r))).
Proof.
  revert j acc. induction r as [|z r IH]; intros j acc.
  - cbn. by rewrite Nat.add_0_r, app_nil_r.
  - cbn [foldl expand_step length seq flat_map].
    change (link_loop_next (link_loop_radial_next (link_loop_next (Nat.iter j loop_forward loop))))
      with (Nat.iter (S j) loop_forward loop).
    change (link_loop_prev (link_loop_radial_prev (link_loop_prev (Nat.iter j loop_backward loop))))
      with (Nat.iter (S j) loop_backward loop).
    rewrite (IH (S j)). rewrite <- !app_assoc. cbn.
    by replace (j + S (length r)) with (S (j + length r)) by lia.
Qed.

Lemma edge_loop_expand_closed (e : E) (limit : Z) (loop : L) :
  link_loops e !! 0 = Some loop ->
  edge_loop_expand e limit = Ret (e :: expansion loop (Z.to_nat (limit - 1))).
Proof.
  intros Hl. unfold edge_loop_expand. rewrite Hl.
  change (loop, loop, [e])
    with (Nat.iter 0 loop_forward loop, Nat.iter 0 loop_backward loop, [e]).
  rewrite expand_fold_closed. cbn [snd]. by rewrite length_py_range.
Qed.

Lemma length_expansion_seq (loop : L) (a m : nat) :
  length (flat_map (fun k => [loop_edge (Nat.iter k loop_forward loop);
                              loop_edge (Nat.iter k loop_backward loop)])
                   (seq a m)) = 2 * m.
Proof.
  revert a. induction m as [|m IH]; intros a; [done|].
  cbn. rewrite IH. lia.
Qed.

Lemma expansion_app (loop : L) (n m : nat) :
  exists rest, expansion loop (n + m) = expansion loop n ++ rest.
Proof.
  unfold expansion. rewrite seq_app, flat_map_app. eauto.
Qed.
End EdgeLoopOrder.

(** X5.  From a seed edge e whose first loop is [loop], and for any integer
    limit, [edge_loop_expand] returns the seed followed, for
    k = 1 .. limit - 1 in this order, by the edge k steps forward from
    [loop] and then the edge k steps backward from it; for limit <= 1,
    negative limits included, that is the seed alone. *)
Theorem edge_loop_expand_order {L E : Type} `{Loops L E}
    (e : E) (limit : Z) (loop : L) :
  link_loops e !! 0 = Some loop ->
  edge_loop_expand e limit = Ret (e :: expansion loop (Z.to_nat (limit - 1))) /\
  ((limit <= 1)%Z -> edge_loop_expand e limit = Ret [e]) /\
  forall k l, edge_loop_expand e limit = Ret l -> 1 <= k -> (Z.of_nat k < limit)%Z ->
    l !! (2 * k - 1) = Some (loop_edge (Nat.iter k loop_forward loop)) /\
    l !! (2 * k) = Some (loop_edge (Nat.iter k loop_backward loop)).
Proof.
  intros Hl. pose proof (edge_loop_expand_closed e limit loop Hl) as Hrun.
  split; [done|]. split.
  - intros Hle. rewrite Hrun. by replace (Z.to_nat (limit - 1)) with 0 by lia.
  - intros k l Hk H1 Hlim. rewrite Hrun in Hk. injection Hk as <-.
    assert (Hn : k <= Z.to_nat (limit - 1)) by lia.
    destruct (Z.to_nat (limit - 1)) as [|n]; [lia|].
    replace (S n) with ((k - 1) + S (n - (k - 1))) by lia.
    unfold expansion. rewrite seq_app, flat_map_app.
    cbn [seq flat_map].
    replace (2 * k - 1) with (S (2 * (k - 1) + 0)) by lia.
    replace (2 * k) with (S (2 * (k - 1) + 1)) by lia.
    assert (Hcons : forall (x : E) l i, (x :: l) !! S i = l !! i) by done.
    rewrite !Hcons.
    split.
    + rewrite lookup_app_r by (rewrite length_expansion_seq; lia).
      rewrite length_expansion_seq.
      replace (2 * (k - 1) + 0 - 2 * (k - 1)) with 0 by lia.
      cbn [lookup list_lookup app]. by replace (1 + (k - 1)) with k by lia.
    + rewrite lookup_app_r by (rewrite length_expansion_seq; lia).
      rewrite length_expansion_seq.
      replace (2 * (k - 1) + 1 - 2 * (k - 1)) with 1 by lia.
      cbn [lookup list_lookup app]. by replace (1 + (k - 1)) with k by lia.
Qed.

Lemma edge_loop_expand_order_witness :
  @link_loops _ _ (BMesh_loops strip) 4 !! 0 = Some (1, 0) /\
  @edge_loop_expand _ _ (BMesh_loops strip) 4 2 =
    Ret [4; @loop_edge _ _ (BMesh_loops strip) (@loop_forward _ _ (BMesh_loops strip) (1, 0));
            @loop_edge _ _ (BMesh_loops strip) (@loop_backward _ _ (BMesh_loops strip) (1, 0))].
Proof.
  assert (Hl : @link_loops _ _ (BMesh_loops strip) 4 !! 0 = Some (1, 0))
    by (vm_compute; reflexivity).
  split; [exact Hl|].
  destruct (@edge_loop_expand_order _ _ (BMesh_loops strip) 4 2 (1, 0) Hl) as [Hrun _].
  exact Hrun.
Defined.

(** X6.  Raising the limit only adds edges at the end: for limit <= limit',
    the list returned for [limit] is a prefix of the list returned for
    [limit']. *)
Theorem edge_loop_expand_prefix {L E : Type} `{Loops L E}
    (e : E) (limit limit' : Z) (l : list E) :
  (limit <= limit')%Z ->
  edge_loop_expand e limit = Ret l ->
  exists rest, edge_loop_expand e limit' = Ret (l ++ rest).
Proof.
  intros Hle Hrun.
  destruct (link_loops e !! 0) as [loop|] eqn:Hl.
  - rewrite (edge_loop_expand_closed e limit loop Hl) in Hrun. injection Hrun as <-.
    rewrite (edge_loop_expand_closed e limit' loop Hl).
    replace (Z.to_nat (limit' - 1))
      with (Z.to_nat (limit - 1) + (Z.to_nat (limit' - 1) - Z.to_nat (limit - 1)))
      by lia.
    destruct (expansion_app loop (Z.to_nat (limit - 1))
                (Z.to_nat (limit' - 1) - Z.to_nat (limit - 1))) as [rest ->].
    by exists rest.
  - unfold edge_loop_expand in Hrun. by rewrite Hl in Hrun.
Qed.

Lemma edge_loop_expand_prefix_witness :
  (2 <= 3)%Z /\
  @edge_loop_expand _ _ (BMesh_loops strip) 4 2 = Ret [4; 7; 0] /\
  exists rest, @edge_loop_expand _ _ (BMesh_loops strip) 4 3 = Ret ([4; 7; 0] ++ rest).
Proof.
  assert (Hle : (2 <= 3)%Z) by lia.
  assert (Hrun : @edge_loop_expand _ _ (BMesh_loops strip) 4 2 = Ret [4; 7; 0])
    by (vm_compute; reflexivity).
  split; [exact Hle|]. split; [exact Hrun|].
  exact (@edge_loop_expand_prefix _ _ (BMesh_loops strip) 4 2 3 [4; 7; 0] Hle Hrun).
Defined.

(** ** [edge_loop_walk] *)

Section EdgeWalkFacts.
Context {V E : Type} `{EqDecision E} `{VertLinks V E}.

Lemma walk_steps_shape (n : nat) (v : V) (e : E) (acc l : list Vector) :
  walk_steps n v e acc = Ret l ->
  exists rest, l = acc ++ rest /\ length rest = n.
Proof.
  revert v e acc. induction n as [|n IH]; intros v e acc; cbn [walk_steps].
  - intros [= <-]. exists []. by rewrite app_nil_r.
  - destruct (other_vert e v) as [ov|]; [|done].
    intros (rest & -> & Hlen)%IH. exists (vert_co ov :: rest).
    rewrite <- app_assoc. split; [done|]. cbn. by rewrite Hlen.
Qed.

Lemma walk_steps_not_index_error (n : nat) (v : V) (e : E) (acc : list Vector) :
  walk_steps n v e acc <> Raise IndexError.
Proof.
  revert v e acc. induction n as [|n IH]; intros v e acc; cbn [walk_steps]; [done|].
  destruct (other_vert e v); [apply IH|done].
Qed.

Lemma next_edge_cases (e : E) (es : list E) :
  next_edge e es = e \/ next_edge e es ∈ es.
Proof.
  induction es as [|oe es IH]; [by left|]. cbn.
  case_bool_decide.
  - right. apply list_elem_of_here.
  - destruct IH as [IH|IH]; [by left|right]. by apply list_elem_of_further.
Qed.

Lemma is_walk_cons (a b : V) (ws : list V) :
  joined a b -> is_walk (b :: ws) -> is_walk (a :: b :: ws).
Proof.
  intros Hab Hws [|i] x y; cbn.
  - by intros [= <-] [= <-].
  - apply (Hws i).
Qed.

Lemma walk_steps_walk (n : nat) (v : V) (e : E) (acc : list Vector) :
  links_closed -> e ∈ link_edges v ->
  exists ws,
    walk_steps n v e acc = Ret (acc ++ (vert_co <$> ws)) /\
    length ws = n /\ is_walk (v :: ws).
Proof.
  intros Hcl. revert v e acc. induction n as [|n IH]; intros v e acc He.
  - exists []. cbn. rewrite app_nil_r. split; [done|]. split; [done|].
    by intros [|i] a b.
  - cbn [walk_steps]. destruct (Hcl v e He) as (ov & Hov & He').
    rewrite Hov.
    assert (Hnext : next_edge e (link_edges ov) ∈ link_edges ov).
    { by destruct (next_edge_cases e (link_edges ov)) as [->|?]. }
    destruct (IH ov _ (acc ++ [vert_co ov]) Hnext) as (ws & Hrun & Hlen & Hws).
    exists (ov :: ws). rewrite Hrun, <- app_assoc. split; [done|].
    split; [by cbn; rewrite Hlen|].
    apply is_walk_cons; [by exists e|done].
Qed.
End EdgeWalkFacts.

Lemma BMesh_links_closed (bm : BMesh) : @links_closed _ _ (BMesh_links bm).
Proof.
  intros v e. cbn. unfold bm_link_edges, bm_other_vert, edge_has_vert.
  intros [Hv He]%list_elem_of_filter.
  destruct (edges bm !! e) as [[a b]|] eqn:Hp; [|done].
  apply bool_decide_unpack in Hv. cbn in Hv.
  case_bool_decide.
  - exists b. split; [done|]. apply list_elem_of_filter. split; [|done].
    rewrite Hp. apply bool_decide_pack. cbn. by right.
  - destruct Hv as [->| ->]; [done|]. rewrite bool_decide_eq_true_2 by done.
    exists a. split; [done|]. apply list_elem_of_filter. split; [|done].
    rewrite Hp. apply bool_decide_pack. cbn. by left.
Qed.

(** X7.  [edge_loop_walk] raises [IndexError] exactly when the vertex
    sequence is empty or its first vertex has fewer than two edges; no
    other step of the walk raises that exception. *)
Theorem edge_loop_walk_index_error {V E : Type} `{EqDecision E} `{VertLinks V E}
    (verts : list V) :
  edge_loop_walk verts = Raise IndexError <->
  verts = [] \/ exists v, head verts = Some v /\ length (link_edges v) < 2.
Proof.
  unfold edge_loop_walk. destruct verts as [|v verts]; cbn [lookup list_lookup head].
  - split; [by left|done].
  - destruct (link_edges v !! 1) as [e|] eqn:He.
    + split.
      * intros Hw. by apply walk_steps_not_index_error in Hw.
      * intros [?|(v' & [= <-] & Hlen)]; [done|].
        apply lookup_lt_Some in He. lia.
    + split; [|done]. intros _. right. exists v. split; [done|].
      apply lookup_ge_None in He. lia.
Qed.

(** X8.  When [edge_loop_walk] returns, it returns as many coordinates as
    there are vertices in the sequence, the first being that of the first
    vertex; and of the sequence it reads the first vertex and the length
    only: any sequence of the same length with the same first vertex gives
    the same result. *)
Theorem edge_loop_walk_shape {V E : Type} `{EqDecision E} `{VertLinks V E}
    (verts : list V) (l : list Vector) :
  edge_loop_walk verts = Ret l ->
  length l = length verts /\
  head l = vert_co <$> head verts /\
  forall verts' : list V,
    head verts' = head verts -> length verts' = length verts ->
    edge_loop_walk verts' = Ret l.
Proof.
  unfold edge_loop_walk. destruct verts as [|v verts]; [done|].
  cbn [lookup list_lookup head length].
  destruct (link_edges v !! 1) as [e|] eqn:He; [|done].
  intros Hw. pose proof Hw as (rest & -> & Hlen)%walk_steps_shape.
  split; [cbn; lia|]. split; [done|].
  intros [|v' verts'] Hhead Hl; [done|]. cbn in Hhead, Hl.
  injection Hhead as ->. cbn [lookup list_lookup length]. rewrite He.
  by replace (S (length verts') - 1) with (S (length verts) - 1) by lia.
Qed.

Lemma edge_loop_walk_shape_witness :
  @edge_loop_walk _ _ _ (BMesh_links rect_ring) [0; 1; 2; 3] =
    Ret (to_vector (A:=exact) <$> [(2, 1, 0); (2, -(1), 0); (-(2), -(1), 0); (-(2), 1, 0)]%Q) /\
  @edge_loop_walk _ _ _ (BMesh_links rect_ring) [0; 0; 0; 0] =
    Ret (to_vector (A:=exact) <$> [(2, 1, 0); (2, -(1), 0); (-(2), -(1), 0); (-(2), 1, 0)]%Q).
Proof.
  assert (Hrun : @edge_loop_walk _ _ _ (BMesh_links rect_ring) [0; 1; 2; 3] =
    Ret (to_vector (A:=exact) <$> [(2, 1, 0); (2, -(1), 0); (-(2), -(1), 0); (-(2), 1, 0)]%Q))
    by (vm_compute; reflexivity).
  split; [exact Hrun|].
  destruct (@edge_loop_walk_shape _ _ _ (BMesh_links rect_ring) _ _ Hrun)
    as (_ & _ & Hsame).
  apply Hsame; reflexivity.
Defined.

(** X9.  On a mesh whose vertex and edge links agree (an edge listed at a
    vertex has another end and is listed there too), from a first vertex
    with at least two edges, [edge_loop_walk] returns: its result gives the
    coordinates of a walk in the mesh that starts at the first vertex, has
    as many vertices as the sequence, and in which each vertex is joined to
    the next by an edge. *)
Theorem edge_loop_walk_walk {V E : Type} `{EqDecision E} `{VertLinks V E}
    (verts : list V) (v : V) :
  links_closed ->
  head verts = Some v ->
  2 <= length (link_edges v) ->
  exists ws,
    edge_loop_walk verts = Ret (vert_co <$> ws) /\
    length ws = length verts /\
    head ws = Some v /\
    is_walk ws.
Proof.
  intros Hcl Hhead Hdeg. destruct verts as [|v' verts]; [done|].
  cbn in Hhead. injection Hhead as ->.
  unfold edge_loop_walk. cbn [lookup list_lookup length].
  destruct (lookup_lt_is_Some_2 (link_edges v) 1 ltac:(lia)) as [e He].
  rewrite He.
  destruct (walk_steps_walk (S (length verts) - 1) v e [vert_co v] Hcl
              (list_elem_of_lookup_2 _ _ _ He)) as (ws & Hrun & Hlen & Hws).
  exists (v :: ws). rewrite Hrun. split; [done|].
  split; [cbn; lia|]. by split.
Qed.

Lemma edge_loop_walk_walk_witness :
  @links_closed _ _ (BMesh_links rect_ring) /\
  2 <= length (@link_edges _ _ (BMesh_links rect_ring) 0) /\
  exists ws,
    @edge_loop_walk _ _ _ (BMesh_links rect_ring) [0; 1; 2; 3]
      = Ret (@vert_co _ _ (BMesh_links rect_ring) <$> ws) /\
    length ws = 4 /\
    @is_walk _ _ (BMesh_links rect_ring) ws.
Proof.
  assert (Hcl : @links_closed _ _ (BMesh_links rect_ring))
    by apply BMesh_links_closed.
  assert (Hdeg : 2 <= length (@link_edges _ _ (BMesh_links rect_ring) 0))
    by (vm_compute; lia).
  split; [exact Hcl|]. split; [exact Hdeg|].
  destruct (@edge_loop_walk_walk _ _ _ (BMesh_links rect_ring) [0; 1; 2; 3] 0
              Hcl eq_refl Hdeg) as (ws & Hrun & Hlen & _ & Hws).
  exists ws. split; [exact Hrun|]. split; [exact Hlen|exact Hws].
Defined.

(** ** Duplication *)

Lemma omap_all_Some {A B} (f : A -> option B) (l : list A) :
  Forall (fun x => is_Some (f x)) l ->
  Forall2 (fun x y => f x = Some y) l (omap f l).
Proof.
  induction 1 as [|x l [y Hy] _ IH]; [constructor|].
  cbn. rewrite Hy. cbn. by constructor.
Qed.

Lemma copy_of_elem (base : nat) (sel : list nat) (x : nat) :
  x ∈ sel -> exists i, sel !! i = Some x /\ copy_of base sel x = base + i.
Proof.
  intros Hx. unfold copy_of.
  destruct (find_index (fun y => bool_decide (y = x)) sel) as [i|] eqn:Hf.
  - apply find_index_Some in Hf as (y & Hy & ->%bool_decide_eq_true). by exists i.
  - pose proof (proj1 (find_index_None _ _) Hf x Hx) as Hf'. cbn in Hf'.
    by apply bool_decide_eq_false in Hf'.
Qed.

Lemma omap_as_vert_geom (vs es fs : list nat) :
  omap as_vert ((ElemVert <$> vs) ++ (ElemEdge <$> es) ++ (ElemFace <$> fs)) = vs.
Proof.
  rewrite !omap_app, omap_as_vert.
  replace (omap as_vert (ElemEdge <$> es)) with (@nil nat)
    by (induction es; [done|by cbn]).
  replace (omap as_vert (ElemFace <$> fs)) with (@nil nat)
    by (induction fs; [done|by cbn]).
  by rewrite !app_nil_r.
Qed.

Lemma omap_as_edge_geom (vs es fs : list nat) :
  omap as_edge ((ElemVert <$> vs) ++ (ElemEdge <$> es) ++ (ElemFace <$> fs)) = es.
Proof.
  rewrite !omap_app.
  replace (omap as_edge (ElemVert <$> vs)) with (@nil nat)
    by (induction vs; [done|by cbn]).
  replace (omap as_edge (ElemFace <$> fs)) with (@nil nat)
    by (induction fs; [done|by cbn]).
  rewrite app_nil_r. cbn. induction es as [|e es IH]; [done|]. cbn. by rewrite IH.
Qed.

(** The duplication of a selection of vertices, with the vertices that are
    copied, in the order of the copies. *)
Lemma ops_duplicate_verts_perm (bm : BMesh) (vs : list nat) :
  verts_of bm vs ->
  exists sel new,
    sel ≡ₚ vs /\
    Forall2 (fun v c => verts bm !! v = Some c) sel new /\
    ops_duplicate (ElemVert <$> vs) bm =
      (Ret (ElemVert <$> seq (length (verts bm)) (length vs)),
       mkBMesh (verts bm ++ new) (edges bm) (faces bm)).
Proof.
  intros [Hnd Hlive].
  pose proof (dup_verts_perm bm vs Hnd Hlive) as Hperm.
  set (sel := filter (fun v => v ∈ vs) (seq 0 (length (verts bm)))) in *.
  assert (Hsel : Forall (fun v => v < length (verts bm)) sel) by by rewrite Hperm.
  assert (Hl : length sel = length vs) by by apply Permutation_length.
  exists sel, (omap (fun v => verts bm !! v) sel). split; [done|]. split.
  { apply omap_all_Some. eapply Forall_impl; [exact Hsel|].
    intros v Hv. by apply lookup_lt_is_Some_2. }
  unfold ops_duplicate.
  replace (forallb (is_elem bm) (ElemVert <$> vs)) with true.
  2:{ symmetry. apply forallb_forall.
      intros x (v & -> & Hv)%list_elem_of_In%list_elem_of_fmap. cbn.
      apply bool_decide_eq_true. rewrite Forall_forall in Hlive. by apply Hlive. }
  cbn [negb].
  rewrite bool_decide_eq_true_2
    by (apply NoDup_fmap_2; [by intros ?? [= ->]|done]).
  cbn [negb].
  rewrite dup_verts_verts_only, dup_edges_verts_only, dup_faces_verts_only.
  fold sel. cbn. rewrite !app_nil_r. by rewrite Hl.
Qed.

(** X10.  Without a height, [duplicate_verts(bm, V)] for a selection V of
    pairwise distinct vertices of the mesh returns |V| new vertices whose
    coordinates are those of the vertices of V, each once (in the order
    of the kernel); the vertices that existed keep their coordinates, and
    edges and faces are untouched. *)
Theorem duplicate_verts_copies {A : Arith} (bm : BMesh) (V : list nat) :
  verts_of bm V ->
  exists vs bm',
    duplicate_verts V None bm = (Ret vs, bm') /\
    vs = seq (length (verts bm)) (length V) /\
    length (verts bm') = length (verts bm) + length V /\
    coords bm' vs ≡ₚ coords bm V /\
    (forall u, u < length (verts bm) -> verts bm' !! u = verts bm !! u) /\
    edges bm' = edges bm /\ faces bm' = faces bm.
Proof.
  intros HV.
  destruct (ops_duplicate_verts_perm bm V HV) as (sel & new & Hperm & Hnew & Hrun).
  assert (Hlen : length new = length V).
  { rewrite <- (Forall2_length _ _ _ Hnew). by apply Permutation_length. }
  exists (seq (length (verts bm)) (length V)),
         (mkBMesh (verts bm ++ new) (edges bm) (faces bm)).
  split; [|split; [done|split; [|split; [|split; [|done]]]]].
  - unfold duplicate_verts. rewrite (bind_ret_run _ _ _ _ _ Hrun).
    by rewrite omap_as_vert.
  - cbn. rewrite length_app. lia.
  - rewrite <- Hlen, coords_fresh. unfold coords. rewrite <- Hperm.
    enough (Heq : map Some new = map (fun v => verts bm !! v) sel) by by rewrite Heq.
    clear -Hnew. induction Hnew as [|v c sel new Hv _ IH]; [done|].
    cbn. by rewrite Hv, IH.
  - intros u Hu. cbn. by rewrite lookup_app_l.
Qed.

Lemma duplicate_verts_copies_witness :
  verts_of prism_verts [4; 0] /\
  exists vs bm',
    duplicate_verts (A:=ieee) [4; 0] None prism_verts = (Ret vs, bm') /\
    vs = [6; 7] /\
    coords bm' vs ≡ₚ coords prism_verts [4; 0].
Proof.
  assert (HV : verts_of prism_verts [4; 0]).
  { split; apply (bool_decide_unpack _); vm_compute; exact I. }
  split; [exact HV|].
  destruct (duplicate_verts_copies (A:=ieee) prism_verts [4; 0] HV)
    as (vs & bm' & Hrun & Hvs & _ & Hco & _).
  exists vs, bm'. split; [exact Hrun|]. split; [exact Hvs|exact Hco].
Defined.

Lemma ops_duplicate_nil (bm : BMesh) : ops_duplicate [] bm = (Ret [], bm).
Proof.
  unfold ops_duplicate. cbn [forallb negb].
  rewrite bool_decide_eq_true_2 by constructor. cbn [negb].
  pose proof (dup_faces_verts_only bm []) as Hf.
  pose proof (dup_edges_verts_only bm []) as He.
  pose proof (dup_verts_verts_only bm []) as Hv.
  cbn [fmap list_fmap] in Hf, He, Hv. rewrite Hf, He, Hv.
  assert (Hnil : forall l : list nat, filter (fun v : nat => v ∈ @nil nat) l = []).
  { intros l. induction l as [|x l IH]; [done|].
    rewrite filter_cons_False; [exact IH|]. by intros ?%elem_of_nil. }
  rewrite Hnil. cbn. rewrite !app_nil_r. by destruct bm.
Qed.

(** X11.  On an empty selection, [duplicate_verts] and [duplicate_edges]
    return the empty list and leave the mesh as it is, with or without a
    height. *)
Theorem duplicate_nothing {A : Arith} (bm : BMesh) (z : option Q) :
  duplicate_verts [] z bm = (Ret [], bm) /\
  duplicate_edges [] z bm = (Ret [], bm).
Proof.
  unfold duplicate_verts, duplicate_edges. cbn [fmap list_fmap].
  rewrite !(bind_ret_run _ _ _ _ _ (ops_duplicate_nil bm)).
  by destruct z.
Qed.

Lemma filter_seq_perm (n : nat) (l : list nat) :
  NoDup l -> Forall (fun x => x < n) l ->
  filter (fun x => x ∈ l) (seq 0 n) ≡ₚ l.
Proof.
  intros Hnd Hlt. apply NoDup_Permutation; [|done|].
  - apply NoDup_filter, NoDup_seq.
  - intros x. rewrite list_elem_of_filter, elem_of_seq.
    rewrite Forall_forall in Hlt. split; [by intros [? ?]|].
    intros Hx. split; [done|]. specialize (Hlt x Hx). lia.
Qed.

Lemma dup_faces_edges_only (bm : BMesh) (es : list nat) :
  dup_faces bm (ElemEdge <$> es) = [].
Proof.
  unfold dup_faces. induction (seq 0 (length (faces bm))) as [|f l IH]; [done|].
  rewrite filter_cons_False; [done|].
  by intros (? & ? & ?)%list_elem_of_fmap.
Qed.

Lemma dup_edges_edges_only (bm : BMesh) (es : list nat) :
  dup_edges bm (ElemEdge <$> es) =
  filter (fun e => e ∈ es) (seq 0 (length (edges bm))).
Proof.
  unfold dup_edges. rewrite dup_faces_edges_only.
  apply list_filter_iff. intros e. split.
  - intros [(? & [= <-] & ?)%list_elem_of_fmap|H%Exists_nil]; done.
  - intros He. left. by apply list_elem_of_fmap_2.
Qed.

(** The vertices copied with a selection of edges: the ends of the
    selected edges. *)
Lemma dup_verts_edges_only (bm : BMesh) (es : list nat) (v : nat) :
  v ∈ dup_verts bm (ElemEdge <$> es) <->
  v < length (verts bm) /\
  exists e p, e ∈ es /\ edges bm !! e = Some p /\ (v = p.1 \/ v = p.2).
Proof.
  unfold dup_verts. rewrite dup_faces_edges_only, dup_edges_edges_only.
  rewrite list_elem_of_filter, elem_of_seq. split.
  - intros [[(? & ? & ?)%list_elem_of_fmap|[Hex|Hex%Exists_nil]] Hv]; [done| |done].
    split; [lia|]. apply Exists_exists in Hex as (e & He & Hhas).
    apply list_elem_of_filter in He as [He _].
    unfold edge_has_vert in Hhas. destruct (edges bm !! e) as [p|] eqn:Hp; [|done].
    apply bool_decide_unpack in Hhas. by exists e, p.
  - intros [Hv (e & p & He & Hp & Hvp)]. split; [|lia].
    right. left. apply Exists_exists. exists e. split.
    + apply list_elem_of_filter. split; [done|].
      apply elem_of_seq. apply lookup_lt_Some in Hp. lia.
    + unfold edge_has_vert. rewrite Hp. by apply bool_decide_pack.
Qed.

Lemma ops_duplicate_edges_only (bm : BMesh) (es : list nat) :
  edges_of bm es -> edges_closed bm ->
  exists vsel esel new_verts new_edges,
    esel ≡ₚ es /\
    Forall2 (fun v c => verts bm !! v = Some c) vsel new_verts /\
    Forall2 (fun e q => exists a b i j,
               edges bm !! e = Some (a, b) /\
               vsel !! i = Some a /\ vsel !! j = Some b /\
               q = (length (verts bm) + i, length (verts bm) + j))
            esel new_edges /\
    ops_duplicate (ElemEdge <$> es) bm =
      (Ret ((ElemVert <$> seq (length (verts bm)) (length vsel)) ++
            (ElemEdge <$> seq (length (edges bm)) (length es)) ++
            (ElemFace <$> [])),
       mkBMesh (verts bm ++ new_verts) (edges bm ++ new_edges) (faces bm)).
Proof.
  intros [Hnd Hlive] Hclosed.
  set (vsel := dup_verts bm (ElemEdge <$> es)).
  set (esel := filter (fun e => e ∈ es) (seq 0 (length (edges bm)))).
  set (cv := copy_of (length (verts bm)) vsel).
  assert (Hperm : esel ≡ₚ es) by by apply filter_seq_perm.
  assert (Hl : length esel = length es) by by apply Permutation_length.
  assert (Hvsel : Forall (fun v => is_Some (verts bm !! v)) vsel).
  { apply Forall_forall. intros v [Hv _]%dup_verts_edges_only.
    by apply lookup_lt_is_Some_2. }
  assert (Hesel : Forall (fun e => is_Some (prod_map cv cv <$> edges bm !! e)) esel).
  { apply Forall_forall. intros e He. rewrite Hperm in He.
    rewrite Forall_forall in Hlive. apply fmap_is_Some.
    apply lookup_lt_is_Some_2. by apply Hlive. }
  exists vsel, esel, (omap (fun v => verts bm !! v) vsel),
         (omap (fun e => prod_map cv cv <$> edges bm !! e) esel).
  split; [done|]. split; [by apply omap_all_Some|]. split.
  - pose proof (omap_all_Some _ _ Hesel) as HF.
    apply Forall2_same_length_lookup. split; [by eapply Forall2_length|].
    intros k e q He Hq.
    pose proof (Forall2_lookup_lr _ _ _ _ _ _ HF He Hq) as Hq'. cbn in Hq'.
    apply fmap_Some in Hq' as ([a b] & Hp & ->).
    assert (Hees : e ∈ es).
    { rewrite <- Hperm. by eapply list_elem_of_lookup_2. }
    unfold edges_closed in Hclosed. rewrite Forall_forall in Hclosed.
    destruct (Hclosed (a, b) (list_elem_of_lookup_2 _ _ _ Hp)) as [Ha Hb].
    cbn in Ha, Hb.
    assert (Hain : a ∈ vsel).
    { apply dup_verts_edges_only. split; [done|]. exists e, (a, b). eauto. }
    assert (Hbin : b ∈ vsel).
    { apply dup_verts_edges_only. split; [done|]. exists e, (a, b). eauto. }
    destruct (copy_of_elem (length (verts bm)) vsel a Hain) as (i & Hi & Hci).
    destruct (copy_of_elem (length (verts bm)) vsel b Hbin) as (j & Hj & Hcj).
    exists a, b, i, j. unfold cv. cbn. by rewrite Hci, Hcj.
  - unfold ops_duplicate.
    replace (forallb (is_elem bm) (ElemEdge <$> es)) with true.
    2:{ symmetry. apply forallb_forall.
        intros x (e & -> & He)%list_elem_of_In%list_elem_of_fmap. cbn.
        apply bool_decide_eq_true. rewrite Forall_forall in Hlive. by apply Hlive. }
    cbn [negb].
    rewrite bool_decide_eq_true_2
      by (apply NoDup_fmap_2; [by intros ?? [= ->]|done]).
    cbn [negb].
    rewrite dup_edges_edges_only, dup_faces_edges_only.
    fold vsel esel cv. cbn. rewrite !app_nil_r. by rewrite Hl.
Qed.

(** X12.  For a selection of pairwise distinct edges of a mesh whose edges
    end at vertices of the mesh, and a height Z,
    [duplicate_edges(bm, E, z=Z)] returns |E| new edges.  Each of them
    copies an edge of E: its two ends are new vertices, copies of the ends
    of that edge with their x and y kept and their z replaced by Z rounded
    to single precision.  The vertices and edges that existed, and the
    faces, are unchanged. *)
Theorem duplicate_edges_z (bm : BMesh) (Es : list nat) (Z : Q) :
  edges_of bm Es ->
  edges_closed bm ->
  exists es bm',
    duplicate_edges (A:=ieee) Es (Some Z) bm = (Ret es, bm') /\
    es = seq (length (edges bm)) (length Es) /\
    (forall e', e' ∈ es ->
       exists e a b a' b' ca cb ca' cb',
         e ∈ Es /\ edges bm !! e = Some (a, b) /\ edges bm' !! e' = Some (a', b') /\
         verts bm !! a = Some ca /\ verts bm !! b = Some cb /\
         length (verts bm) <= a' /\ length (verts bm) <= b' /\
         verts bm' !! a' = Some ca' /\ verts bm' !! b' = Some cb' /\
         moved_to (single Z) ca ca' /\ moved_to (single Z) cb cb') /\
    (forall u, u < length (verts bm) -> verts bm' !! u = verts bm !! u) /\
    (forall e, e < length (edges bm) -> edges bm' !! e = edges bm !! e) /\
    faces bm' = faces bm.
Proof.
  intros HE Hclosed.
  destruct (ops_duplicate_edges_only bm Es HE Hclosed)
    as (vsel & esel & new_verts & new_edges & Hperm & Hnv & Hne & Hrun).
  pose proof (Forall2_length _ _ _ Hnv) as Hlv.
  pose proof (Forall2_length _ _ _ Hne) as Hle.
  assert (Hl : length esel = length Es) by by apply Permutation_length.
  exists (seq (length (edges bm)) (length Es)),
         (mkBMesh (verts bm ++ (with_z (single Z) <$> new_verts)) (edges bm ++ new_edges)
                  (faces bm)).
  split; [|split; [done|split; [|split; [|split; [|done]]]]].
  - unfold duplicate_edges. rewrite (bind_ret_run _ _ _ _ _ Hrun).
    rewrite omap_as_edge_geom, omap_as_vert_geom. rewrite Hlv.
    by rewrite (bind_ret_run _ _ _ _ _
                  (forM_set_co_z (A:=ieee) Z new_verts (verts bm) _ _)).
  - intros e' [Hge Hlt]%elem_of_seq.
    set (k := e' - length (edges bm)).
    destruct (lookup_lt_is_Some_2 esel k ltac:(lia)) as [e He].
    destruct (lookup_lt_is_Some_2 new_edges k ltac:(lia)) as [q Hq].
    destruct (Forall2_lookup_lr _ _ _ _ _ _ Hne He Hq)
      as (a & b & i & j & Hp & Hi & Hj & ->).
    destruct (lookup_lt_is_Some_2 new_verts i
                ltac:(rewrite <- Hlv; by eapply lookup_lt_Some)) as [ca Hca].
    destruct (lookup_lt_is_Some_2 new_verts j
                ltac:(rewrite <- Hlv; by eapply lookup_lt_Some)) as [cb Hcb].
    pose proof (Forall2_lookup_lr _ _ _ _ _ _ Hnv Hi Hca) as Ha.
    pose proof (Forall2_lookup_lr _ _ _ _ _ _ Hnv Hj Hcb) as Hb.
    exists e, a, b, (length (verts bm) + i), (length (verts bm) + j),
           ca, cb, (with_z (single Z) ca), (with_z (single Z) cb).
    split; [rewrite <- Hperm; by eapply list_elem_of_lookup_2|].
    split; [done|]. split.
    { cbn. rewrite lookup_app_r by lia. exact Hq. }
    split; [done|]. split; [done|]. split; [lia|]. split; [lia|].
    cbn. rewrite !lookup_app_r by lia.
    replace (length (verts bm) + i - length (verts bm)) with i by lia.
    replace (length (verts bm) + j - length (verts bm)) with j by lia.
    rewrite !list_lookup_fmap, Hca, Hcb. done.
  - intros u Hu. cbn. by rewrite lookup_app_l.
  - intros e He. cbn. by rewrite lookup_app_l.
Qed.

Lemma duplicate_edges_z_witness :
  edges_of rect_ring [2; 0] /\
  edges_closed rect_ring /\
  exists es bm',
    duplicate_edges (A:=ieee) [2; 0] (Some float_0_1) rect_ring = (Ret es, bm') /\
    es = [4; 5] /\
    faces bm' = faces rect_ring.
Proof.
  assert (HE : edges_of rect_ring [2; 0]).
  { split; apply (bool_decide_unpack _); vm_compute; exact I. }
  assert (Hcl : edges_closed rect_ring).
  { apply (bool_decide_unpack _). vm_compute. exact I. }
  split; [exact HE|]. split; [exact Hcl|].
  destruct (duplicate_edges_z rect_ring [2; 0] float_0_1 HE Hcl)
    as (es & bm' & Hrun & Hes & _ & _ & _ & Hf).
  exists es, bm'. split; [exact Hrun|]. split; [exact Hes|exact Hf].
Defined.

Lemma bind_raise_run' {S A B} (m : M S A) (k : A -> M S B) (s s' : S) (e : exn) :
  m s = (Raise e, s') -> bind m k s = (Raise e, s').
Proof. unfold bind. by intros ->. Qed.

(** ** [make_edges] on a ring that has an edge already *)

Lemma find_index_app_Some {A} (p : A -> bool) (l l' : list A) (i : nat) :
  find_index p l = Some i -> find_index p (l ++ l') = Some i.
Proof.
  revert i. induction l as [|x l IH]; intros i; cbn; [done|].
  destruct (p x); [done|].
  intros (j & Hj & ->)%fmap_Some. by rewrite (IH j Hj).
Qed.

Lemma edges_new_exists (bm : BMesh) (p : nat * nat) :
  is_Some (find_edge bm p.1 p.2) -> edges_new p bm = (Raise ValueError, bm).
Proof.
  intros Hex. unfold edges_new. destruct p as [a b]. cbn in Hex.
  destruct (negb _); [done|]. destruct (bool_decide (a = b)); [done|].
  by rewrite bool_decide_eq_true_2.
Qed.

Lemma mapM_edges_new_fail (ps1 : list (nat * nat)) (p : nat * nat)
    (ps2 : list (nat * nat)) (bm : BMesh) :
  addable (length (verts bm)) (edges bm) ps1 ->
  is_Some (find_edge bm p.1 p.2) ->
  mapM edges_new (ps1 ++ p :: ps2) bm =
    (Raise ValueError, mkBMesh (verts bm) (edges bm ++ ps1) (faces bm)).
Proof.
  revert bm. induction ps1 as [|[a b] ps1 IH]; intros bm Hadd Hex.
  - cbn [app mapM]. rewrite (bind_raise_run' _ _ _ _ _ (edges_new_exists bm p Hex)).
    rewrite app_nil_r. by destruct bm.
  - cbn in Hadd. destruct Hadd as (Ha & Hb & Hab & Hfresh & Hadd).
    cbn [app mapM].
    assert (Hrun : edges_new (a, b) bm =
              (Ret (length (edges bm)),
               mkBMesh (verts bm) (edges bm ++ [(a, b)]) (faces bm))).
    { unfold edges_new, is_vert. rewrite !bool_decide_eq_true_2 by done. cbn.
      rewrite (bool_decide_eq_false_2 (a = b)) by done.
      assert (Hfind : find_edge bm a b = None) by by apply find_index_None.
      rewrite Hfind. by rewrite bool_decide_eq_false_2 by (by intros [? ?]). }
    rewrite (bind_ret_run _ _ _ _ _ Hrun).
    assert (Hex' : is_Some (find_edge
              (mkBMesh (verts bm) (edges bm ++ [(a, b)]) (faces bm)) p.1 p.2)).
    { destruct Hex as [i Hi]. exists i. by apply find_index_app_Some. }
    rewrite (bind_raise_run' _ _ _ _ _
               (IH (mkBMesh (verts bm) (edges bm ++ [(a, b)]) (faces bm)) Hadd Hex')).
    cbn. by rewrite <- app_assoc.
Qed.

(** X13.  [make_edges] is not atomic.  On a ring of N >= 3 distinct vertices
    of the mesh, if position k is the first whose two vertices are joined
    by an edge already, [make_edges] raises [ValueError] there, and the mesh
    is left with the k edges made for the positions before k. *)
Theorem make_edges_stops (bm : BMesh) (vs : list nat) (k : nat) (p : nat * nat) :
  3 <= length vs ->
  verts_of bm vs ->
  ring_pairs vs !! k = Some p ->
  is_Some (find_edge bm p.1 p.2) ->
  (forall i q, i < k -> ring_pairs vs !! i = Some q -> find_edge bm q.1 q.2 = None) ->
  make_edges vs bm =
    (Raise ValueError,
     mkBMesh (verts bm) (edges bm ++ take k (ring_pairs vs)) (faces bm)).
Proof.
  intros Hn [Hnd Hlive] Hk Hex Hfresh. unfold make_edges.
  rewrite <- pairwise_cyclic_ring_pairs in *.
  rewrite <- (take_drop_middle _ _ _ Hk) at 1.
  apply mapM_edges_new_fail; [|done].
  apply addable_intro.
  - intros [a b] [i Hi]%list_elem_of_lookup. cbn.
    apply lookup_take_Some in Hi as [Hi _].
    pose proof (ring_pairs_proper vs i a b ltac:(lia) Hnd Hi).
    apply lookup_pairwise_cyclic in Hi as [Ha Hb].
    rewrite Forall_forall in Hlive.
    split; [|split; [|done]]; apply Hlive; by eapply list_elem_of_lookup_2.
  - intros q e [i Hi]%list_elem_of_lookup He.
    apply lookup_take_Some in Hi as [Hi Hik].
    specialize (Hfresh i q Hik Hi). unfold find_edge in Hfresh.
    by eapply find_index_None in Hfresh.
  - intros i j q r Hij Hi Hj.
    apply lookup_take_Some in Hi as [Hi _].
    apply lookup_take_Some in Hj as [Hj _].
    eapply (ring_pairs_distinct vs i j); eauto. lia.
Qed.

Lemma make_edges_stops_witness :
  3 <= length [0; 2; 1; 3] /\
  verts_of rect_ring [0; 2; 1; 3] /\
  ring_pairs [0; 2; 1; 3] !! 1 = Some (2, 1) /\
  is_Some (find_edge rect_ring 2 1) /\
  find_edge rect_ring 0 2 = None /\
  make_edges [0; 2; 1; 3] rect_ring =
    (Raise ValueError,
     mkBMesh (verts rect_ring) (edges rect_ring ++ [(0, 2)]) (faces rect_ring)).
Proof.
  assert (Hn : 3 <= length [0; 2; 1; 3]) by (cbn; lia).
  assert (HV : verts_of rect_ring [0; 2; 1; 3]).
  { split; apply (bool_decide_unpack _); vm_compute; exact I. }
  assert (Hk : ring_pairs [0; 2; 1; 3] !! 1 = Some (2, 1)) by reflexivity.
  assert (Hex : is_Some (find_edge rect_ring 2 1)) by (vm_compute; eauto).
  assert (Hnew : find_edge rect_ring 0 2 = None) by reflexivity.
  split; [exact Hn|]. split; [exact HV|]. split; [exact Hk|].
  split; [exact Hex|]. split; [exact Hnew|].
  apply (make_edges_stops rect_ring [0; 2; 1; 3] 1 (2, 1) Hn HV Hk Hex).
  intros i q Hi Hq. assert (i = 0) as -> by lia.
  injection Hq as <-. exact Hnew.
Defined.

(** ** The band made by [bridge_verts] *)

Lemma find_index_app_None {A} (p : A -> bool) (l l' : list A) :
  find_index p l = None ->
  find_index p (l ++ l') = (fun i => length l + i) <$> find_index p l'.
Proof.
  induction l as [|x l IH]; cbn.
  - intros _. by destruct (find_index p l').
  - destruct (p x); [done|]. intros H%fmap_None. rewrite (IH H).
    by destruct (find_index p l').
Qed.

Lemma find_index_ext {A} (p q : A -> bool) (l : list A) :
  (forall x, p x = q x) -> find_index p l = find_index q l.
Proof.
  intros Hpq. induction l as [|x l IH]; [done|]. cbn. by rewrite Hpq, IH.
Qed.

Lemma joins_sym (a b : nat) (e : nat * nat) : joins a b e = joins b a e.
Proof. unfold joins. apply bool_decide_ext. tauto. Qed.

Lemma edge_between_app (es new : list (nat * nat)) (e : nat) (p : nat * nat) :
  edge_between es e p -> edge_between (es ++ new) e p.
Proof. apply find_index_app_Some. Qed.

Lemma edge_between_sym (es : list (nat * nat)) (e : nat) (a b : nat) :
  edge_between es e (a, b) -> edge_between es e (b, a).
Proof.
  unfold edge_between. cbn. intros <-. apply find_index_ext. intros x. apply joins_sym.
Qed.

Lemma edge_between_ends (es : list (nat * nat)) (e : nat) (p : nat * nat) :
  edge_between es e p ->
  exists p', es !! e = Some p' /\ (p' = p \/ p' = (p.2, p.1)).
Proof.
  intros (p' & He & Hj)%find_index_Some. exists p'. split; [done|].
  apply bool_decide_eq_true in Hj. destruct p. naive_solver.
Qed.

Lemma mapM_ensure_edge_between (ps : list (nat * nat)) (bm : BMesh) :
  exists es new,
    mapM ensure_edge ps bm =
      (Ret es, mkBMesh (verts bm) (edges bm ++ new) (faces bm)) /\
    Forall2 (edge_between (edges bm ++ new)) es ps /\
    Forall (fun p => p ∈ ps) new.
Proof.
  revert bm. induction ps as [|p ps IH]; intros bm.
  - exists [], []. split; [|by split; constructor].
    cbn. unfold ret. rewrite app_nil_r. by destruct bm.
  - cbn [mapM]. unfold bind at 1, ensure_edge at 1.
    destruct (find_edge bm p.1 p.2) as [e|] eqn:Hfind.
    + destruct (IH bm) as (es & new & Hrun & Hes & Hnew).
      exists (e :: es), new. unfold bind. rewrite Hrun. split; [done|]. split.
      * constructor; [|done]. by apply edge_between_app.
      * eapply Forall_impl; [exact Hnew|]. intros q Hq. by apply list_elem_of_further.
    + destruct (IH (mkBMesh (verts bm) (edges bm ++ [p]) (faces bm)))
        as (es & new & Hrun & Hes & Hnew). cbn in Hrun, Hes.
      exists (length (edges bm) :: es), (p :: new).
      unfold bind. rewrite Hrun. cbn. unfold ret.
      rewrite <- app_assoc in *. cbn in *. split; [done|]. split.
      * constructor; [|done]. unfold edge_between.
        rewrite find_index_app_None by done. cbn.
        rewrite joins_refl. cbn. f_equal. lia.
      * constructor; [apply list_elem_of_here|].
        eapply Forall_impl; [exact Hnew|]. intros q Hq. by apply list_elem_of_further.
Qed.

Lemma face_between_app (es new : list (nat * nat)) (fc : BMFace) (q : list nat) :
  face_between es fc q -> face_between (es ++ new) fc q.
Proof.
  intros [Hv He]. split; [done|].
  eapply Forall2_impl; [exact He|]. intros e p. apply edge_between_app.
Qed.

Lemma faces_new_between (q : list nat) (bm : BMesh) :
  3 <= length q ->
  Forall (fun v => v < length (verts bm)) q ->
  NoDup q ->
  face_exists bm q = false ->
  exists fc new,
    faces_new q bm =
      (Ret (length (faces bm)),
       mkBMesh (verts bm) (edges bm ++ new) (faces bm ++ [fc])) /\
    face_between (edges bm ++ new) fc q /\
    Forall (fun p => p.1 ∈ q /\ p.2 ∈ q) new.
Proof.
  intros Hlen Hlive Hnd Hex.
  destruct (mapM_ensure_edge_between (pairwise_cyclic q) bm)
    as (es & new & Hrun & Hes & Hnew).
  exists (mkFace q es), new. split; [|split; [by split|]].
  - unfold faces_new. unfold bind at 1, get at 1.
    rewrite bool_decide_eq_false_2 by lia.
    replace (forallb (is_vert bm) q) with true; cbn [negb].
    2:{ symmetry. apply forallb_forall. intros v Hv%list_elem_of_In.
        apply bool_decide_eq_true. rewrite Forall_forall in Hlive. by apply Hlive. }
    rewrite bool_decide_eq_true_2 by done. cbn [negb]. rewrite Hex.
    unfold pairwise_cyclic in Hrun. unfold bind. rewrite Hrun. done.
  - eapply Forall_impl; [exact Hnew|].
    intros [a b] [i [Ha Hb]%lookup_pairwise_cyclic]%list_elem_of_lookup. cbn.
    split; by eapply list_elem_of_lookup_2.
Qed.

Lemma mapM_faces_new_between (qs : list (list nat)) (bm : BMesh) :
  quads_ok bm qs ->
  exists fcs new,
    mapM faces_new qs bm =
      (Ret (seq (length (faces bm)) (length qs)),
       mkBMesh (verts bm) (edges bm ++ new) (faces bm ++ fcs)) /\
    Forall2 (face_between (edges bm ++ new)) fcs qs /\
    Forall (fun p => exists q, q ∈ qs /\ p.1 ∈ q /\ p.2 ∈ q) new.
Proof.
  revert bm. induction qs as [|q qs IH]; intros bm [Hq Hdist].
  - exists [], []. split; [|by split; constructor].
    cbn. unfold ret. rewrite !app_nil_r. by destruct bm.
  - destruct (Hq q (list_elem_of_here _ _)) as (Hlen & Hlive & Hnd & Hex).
    destruct (faces_new_between q bm Hlen Hlive Hnd Hex)
      as (fc & new & Hrun & Hfc & Hnew).
    set (bm1 := mkBMesh (verts bm) (edges bm ++ new) (faces bm ++ [fc])) in *.
    destruct (IH bm1) as (fcs & new' & Hrun' & Hfcs & Hnew').
    { split.
      - intros r Hr.
        destruct (Hq r (list_elem_of_further _ _ _ Hr)) as (? & ? & ? & Hexr).
        repeat split; try done.
        unfold bm1. rewrite face_exists_app, Hexr. cbn.
        apply list_elem_of_lookup in Hr as [j Hj].
        rewrite (Hdist 0 (S j) q r fc); [done|lia|done|done|]. apply Hfc.
      - intros i j r r' fc' Hij Hi Hj. apply (Hdist (S i) (S j)); [lia|done|done]. }
    exists (fc :: fcs), (new ++ new').
    cbn [mapM]. rewrite (bind_ret_run _ _ _ _ _ Hrun).
    rewrite (bind_ret_run _ _ _ _ _ Hrun'). unfold ret. cbn.
    rewrite length_app, <- !app_assoc. cbn.
    replace (length (faces bm) + 1) with (S (length (faces bm))) by lia.
    split; [done|]. split.
    + constructor.
      * rewrite app_assoc. by apply face_between_app.
      * subst bm1. cbn in Hfcs. by rewrite <- app_assoc in Hfcs.
    + apply Forall_app. split.
      * eapply Forall_impl; [exact Hnew|]. intros p [? ?]. exists q.
        split; [apply list_elem_of_here|done].
      * eapply Forall_impl; [exact Hnew'|]. intros p (r & Hr & ? & ?). exists r.
        split; [by apply list_elem_of_further|done].
Qed.

Lemma bridge_verts_run (bm : BMesh) (v1 v2 : list nat) :
  length v1 = length v2 ->
  3 <= length v1 ->
  verts_of bm (v1 ++ v2) ->
  (forall q, q ∈ quadwise_cyclic v1 v2 -> face_exists bm q = false) ->
  exists fcs new es,
    bridge_verts v1 v2 bm =
      (Ret (mkBridge (seq (length (faces bm)) (length v1)) es),
       mkBMesh (verts bm) (edges bm ++ new) (faces bm ++ fcs)) /\
    Forall2 (face_between (edges bm ++ new)) fcs (quadwise_cyclic v1 v2) /\
    Forall2 (fun fc e => f_edges fc !! 1 = Some e) fcs es /\
    Forall (fun p => p.1 ∈ v1 ++ v2 /\ p.2 ∈ v1 ++ v2) new.
Proof.
  intros Hlen Hn Hring Hfresh.
  pose proof (quadwise_cyclic_ok bm v1 v2 Hlen Hn Hring Hfresh) as Hok.
  destruct (mapM_faces_new_between _ bm Hok) as (fcs & new & Hrun & Hfcs & Hnew).
  pose proof (Forall2_length _ _ _ Hfcs) as Hlfcs.
  rewrite length_quadwise_cyclic in Hlfcs, Hrun by done.
  assert (Hone : forall i fc, fcs !! i = Some fc -> is_Some (f_edges fc !! 1)).
  { intros i fc Hfc.
    destruct (Forall2_lookup_l _ _ _ _ _ Hfcs Hfc) as (q & Hq & Hvs & Hes).
    apply lookup_quadwise_cyclic in Hq as (a0 & a1 & b0 & b1 & -> & _).
    pose proof (Forall2_length _ _ _ Hes) as Hl.
    rewrite length_pairwise_cyclic in Hl. cbn in Hl.
    apply lookup_lt_is_Some_2. lia. }
  set (es := (fun fc => default 0 (f_edges fc !! 1)) <$> fcs).
  assert (Hes : Forall2 (fun fc e => f_edges fc !! 1 = Some e) fcs es).
  { apply Forall2_same_length_lookup. split; [by unfold es; rewrite length_fmap|].
    intros i fc e Hfc He. unfold es in He. rewrite list_lookup_fmap, Hfc in He.
    cbn in He. injection He as <-. by destruct (Hone i fc Hfc) as [e ->]. }
  exists fcs, new, es. split; [|split; [done|split; [done|]]].
  - unfold bridge_verts. rewrite (bind_ret_run _ _ _ _ _ Hrun).
    erewrite bind_ret_run; [done|].
    apply mapM_face_edge. apply Forall2_same_length_lookup.
    split; [by unfold es; rewrite length_seq, length_fmap|].
    intros i f e [-> Hi]%lookup_seq He.
    destruct (lookup_lt_is_Some_2 fcs i ltac:(lia)) as [fc Hfc].
    exists fc. split.
    + cbn. rewrite lookup_app_r by lia.
      by replace (length (faces bm) + i - length (faces bm)) with i by lia.
    + exact (Forall2_lookup_lr _ _ _ _ _ _ Hes Hfc He).
  - eapply Forall_impl; [exact Hnew|].
    intros p (q & [i Hq]%list_elem_of_lookup & H1 & H2).
    apply lookup_quadwise_cyclic in Hq
      as (a0 & a1 & b0 & b1 & -> & Ha0 & Ha1 & Hb0 & Hb1).
    apply list_elem_of_lookup_2 in Ha0, Ha1, Hb0, Hb1.
    rewrite !elem_of_cons, elem_of_nil in H1, H2. rewrite !elem_of_app.
    split; [destruct H1 as [->|[->|[->|[->|[]]]]]|destruct H2 as [->|[->|[->|[->|[]]]]]];
      tauto.
Qed.

(** X14.  The faces made by [bridge_verts] form a closed band: for every
    i < N the edge at index 3 of face i is the edge at index 1 of face
    (i+1) mod N, which is rung (i+1) mod N, so neighbouring faces share
    their rung instead of doubling it.  The N rungs are pairwise distinct,
    no vertex is added, and every edge that the call adds runs between two
    vertices of the two rings. *)
Theorem bridge_verts_band (bm : BMesh) (v1 v2 : list nat) :
  length v1 = length v2 ->
  3 <= length v1 ->
  verts_of bm (v1 ++ v2) ->
  (forall q, q ∈ quadwise_cyclic v1 v2 -> face_exists bm q = false) ->
  exists fs es bm',
    bridge_verts v1 v2 bm = (Ret (mkBridge fs es), bm') /\
    verts bm' = verts bm /\
    NoDup es /\
    (forall e p, length (edges bm) <= e -> edges bm' !! e = Some p ->
       p.1 ∈ v1 ++ v2 /\ p.2 ∈ v1 ++ v2) /\
    forall i, i < length v1 ->
      exists f g fc gc e,
        fs !! i = Some f /\ fs !! ((i + 1) mod length v1) = Some g /\
        faces bm' !! f = Some fc /\ faces bm' !! g = Some gc /\
        f_edges fc !! 3 = Some e /\ f_edges gc !! 1 = Some e /\
        es !! ((i + 1) mod length v1) = Some e.
Proof.
  intros Hlen Hn Hring Hfresh.
  destruct (bridge_verts_run bm v1 v2 Hlen Hn Hring Hfresh)
    as (fcs & new & es & Hrun & Hfcs & Hes & Hnew).
  pose proof (Forall2_length _ _ _ Hfcs) as Hlfcs.
  pose proof (Forall2_length _ _ _ Hes) as Hles.
  rewrite length_quadwise_cyclic in Hlfcs by done.
  destruct Hring as [Hnd Hlive].
  apply NoDup_app in Hnd as (Hnda & Hdisj & Hndb).
  (* the face at position i, with its four corner edges *)
  assert (Hface : forall i, i < length v1 ->
    exists fc a0 a1 b0 b1 e1 e3,
      fcs !! i = Some fc /\
      v1 !! i = Some a0 /\ v1 !! ((i + 1) mod length v1) = Some a1 /\
      v2 !! i = Some b0 /\ v2 !! ((i + 1) mod length v1) = Some b1 /\
      f_edges fc !! 1 = Some e1 /\ f_edges fc !! 3 = Some e3 /\
      edge_between (edges bm ++ new) e1 (a0, b0) /\
      edge_between (edges bm ++ new) e3 (b1, a1)).
  { intros i Hi.
    destruct (lookup_lt_is_Some_2 fcs i ltac:(lia)) as [fc Hfc].
    destruct (Forall2_lookup_l _ _ _ _ _ Hfcs Hfc) as (q & Hq & Hvs & Hce).
    apply lookup_quadwise_cyclic in Hq
      as (a0 & a1 & b0 & b1 & -> & Ha0 & Ha1 & Hb0 & Hb1).
    pose proof (Forall2_length _ _ _ Hce) as Hl.
    rewrite length_pairwise_cyclic in Hl. cbn in Hl.
    destruct (lookup_lt_is_Some_2 (f_edges fc) 1 ltac:(lia)) as [e1 He1].
    destruct (lookup_lt_is_Some_2 (f_edges fc) 3 ltac:(lia)) as [e3 He3].
    destruct (Forall2_lookup_l _ _ _ _ _ Hce He1) as (p1 & Hp1 & Hb1').
    destruct (Forall2_lookup_l _ _ _ _ _ Hce He3) as (p3 & Hp3 & Hb3').
    cbn in Hp1, Hp3. injection Hp1 as <-. injection Hp3 as <-.
    rewrite <- Hlen in Hb1.
    exists fc, a0, a1, b0, b1, e1, e3. done. }
  exists (seq (length (faces bm)) (length v1)), es, 
    (mkBMesh (verts bm) (edges bm ++ new) (faces bm ++ fcs)).
  split; [done|]. split; [done|]. split; [|split].
  - apply NoDup_alt. intros i j e Hi Hj.
    pose proof (lookup_lt_Some _ _ _ Hi) as Hil.
    pose proof (lookup_lt_Some _ _ _ Hj) as Hjl.
    destruct (Hface i ltac:(lia))
      as (fc & a0 & _ & b0 & _ & e1 & _ & Hfc & Ha0 & _ & Hb0 & _ & He1 & _ & Hbt & _).
    destruct (Hface j ltac:(lia))
      as (gc & c0 & _ & d0 & _ & g1 & _ & Hgc & Hc0 & _ & Hd0 & _ & Hg1 & _ & Hbt' & _).
    pose proof (Forall2_lookup_lr _ _ _ _ _ _ Hes Hfc Hi) as He.
    pose proof (Forall2_lookup_lr _ _ _ _ _ _ Hes Hgc Hj) as Hg.
    cbv beta in He, Hg. rewrite He1 in He. rewrite Hg1 in Hg. injection He as ->. injection Hg as ->.
    apply edge_between_ends in Hbt as (p & Hp & Hpab).
    apply edge_between_ends in Hbt' as (p' & Hp' & Hpcd).
    rewrite Hp in Hp'. injection Hp' as <-. cbn in Hpab, Hpcd.
    assert (a0 = c0) as <-.
    { destruct Hpab as [->| ->], Hpcd as [[= -> ->]|[= -> ->]]; try done;
        exfalso; eapply Hdisj; by eapply list_elem_of_lookup_2. }
    exact (NoDup_lookup _ _ _ _ Hnda Ha0 Hc0).
  - cbn. intros e p Hle Hp. rewrite lookup_app_r in Hp by done.
    rewrite Forall_forall in Hnew. apply Hnew. by eapply list_elem_of_lookup_2.
  - intros i Hi.
    assert (Hj : (i + 1) mod length v1 < length v1) by (apply Nat.mod_upper_bound; lia).
    destruct (Hface i Hi)
      as (fc & a0 & a1 & b0 & b1 & e1 & e3 & Hfc & Ha0 & Ha1 & Hb0 & Hb1 & He1 & He3 & Hbt1 & Hbt3).
    destruct (Hface _ Hj)
      as (gc & c0 & _ & d0 & _ & g1 & _ & Hgc & Hc0 & _ & Hd0 & _ & Hg1 & _ & Hbt & _).
    rewrite Ha1 in Hc0. injection Hc0 as <-.
    rewrite Hb1 in Hd0. injection Hd0 as <-.
    apply edge_between_sym in Hbt. unfold edge_between in Hbt, Hbt3.
    rewrite Hbt3 in Hbt. injection Hbt as <-.
    exists (length (faces bm) + i), (length (faces bm) + (i + 1) mod length v1), fc, gc, e3.
    split; [by apply lookup_seq_lt|]. split; [by apply lookup_seq_lt|].
    cbn [faces]. rewrite !lookup_app_r by lia.
    replace (length (faces bm) + i - length (faces bm)) with i by lia.
    replace (length (faces bm) + (i + 1) mod length v1 - length (faces bm))
      with ((i + 1) mod length v1) by lia.
    repeat split; try done.
    destruct (lookup_lt_is_Some_2 es ((i + 1) mod length v1) ltac:(lia)) as [e He].
    pose proof (Forall2_lookup_lr _ _ _ _ _ _ Hes Hgc He) as He'.
    cbv beta in He'. rewrite Hg1 in He'. by injection He' as ->.
Qed.

Lemma bridge_verts_band_witness :
  length [0; 1; 2] = length [3; 4; 5] /\
  3 <= length [0; 1; 2] /\
  verts_of prism_verts ([0; 1; 2] ++ [3; 4; 5]) /\
  exists fs es bm',
    bridge_verts [0; 1; 2] [3; 4; 5] prism_verts = (Ret (mkBridge fs es), bm') /\
    verts bm' = verts prism_verts /\ NoDup es.
Proof.
  assert (Hlen : length [0; 1; 2] = length [3; 4; 5]) by reflexivity.
  assert (Hn : 3 <= length [0; 1; 2]) by (cbn; lia).
  assert (Hring : verts_of prism_verts ([0; 1; 2] ++ [3; 4; 5])).
  { split; apply (bool_decide_unpack _); vm_compute; exact I. }
  assert (Hfresh : forall q, q ∈ quadwise_cyclic [0; 1; 2] [3; 4; 5] ->
                             face_exists prism_verts q = false).
  { intros q _. reflexivity. }
  split; [exact Hlen|]. split; [exact Hn|]. split; [exact Hring|].
  destruct (bridge_verts_band prism_verts [0; 1; 2] [3; 4; 5] Hlen Hn Hring Hfresh)
    as (fs & es & bm' & Hrun & Hvs & Hnd & _).
  exists fs, es, bm'. split; [exact Hrun|]. split; [exact Hvs|exact Hnd].
Defined.

(** ** Primitives followed by tools *)

Lemma joins_false (a b : nat) (e : nat * nat) :
  (e.1 <> a \/ e.2 <> b) -> (e.1 <> b \/ e.2 <> a) -> joins a b e = false.
Proof.
  intros H1 H2. apply bool_decide_eq_false. destruct e as [c d]. cbn in *.
  intros [[= -> ->]|[= -> ->]]; tauto.
Qed.

Lemma face_exists_fresh (bm : BMesh) (n : nat) (q : list nat) (v : nat) :
  Forall (fun fc => Forall (fun w => w < n) (f_verts fc)) (faces bm) ->
  v ∈ q -> n <= v ->
  face_exists bm q = false.
Proof.
  intros Hcl Hv Hn. unfold face_exists.
  apply not_true_iff_false. intros (fc & Hfc%list_elem_of_In & Hon)%existsb_exists.
  rewrite Forall_forall in Hcl. specialize (Hcl fc Hfc).
  unfold face_on in Hon. apply andb_true_iff in Hon as [_ Hall].
  rewrite forallb_forall in Hall.
  specialize (Hall v (proj1 (list_elem_of_In _ _) Hv)).
  apply bool_decide_eq_true in Hall.
  rewrite Forall_forall in Hcl. specialize (Hcl v Hall). lia.
Qed.

(** X15.  A primitive followed by [make_edges] never raises on a mesh whose
    edges end at vertices of the mesh: [make_rect] then [make_edges] adds
    four vertices and the four sides n-(n+1), (n+1)-(n+2), (n+2)-(n+3),
    (n+3)-n of the rectangle, [make_tri] then [make_edges] three vertices
    and the three sides of the triangle, where n is the number of vertices
    before; the edges returned are the new ones, in order, the vertices
    that existed keep their coordinates, and no face changes. *)
Theorem primitive_ring {A : Arith} (bm : BMesh) (x y z : Q) :
  edges_closed bm ->
  let n := length (verts bm) in
  (exists bm',
     (vs <- make_rect x y z ;; make_edges vs) bm =
       (Ret (seq (length (edges bm)) 4), bm') /\
     length (verts bm') = n + 4 /\
     (forall u, u < n -> verts bm' !! u = verts bm !! u) /\
     edges bm' =
       edges bm ++ [(n, n + 1); (n + 1, n + 2); (n + 2, n + 3); (n + 3, n)] /\
     faces bm' = faces bm) /\
  (exists bm',
     (vs <- make_tri x y z ;; make_edges vs) bm =
       (Ret (seq (length (edges bm)) 3), bm') /\
     length (verts bm') = n + 3 /\
     (forall u, u < n -> verts bm' !! u = verts bm !! u) /\
     edges bm' = edges bm ++ [(n, n + 1); (n + 1, n + 2); (n + 2, n)] /\
     faces bm' = faces bm).
Proof.
  intros Hcl n. unfold edges_closed in Hcl. rewrite Forall_forall in Hcl.
  assert (Hold : forall a b e, e ∈ edges bm -> n <= a -> joins a b e = false).
  { intros a b e He Ha. destruct (Hcl e He).
    pose proof (eq_refl : n = length (verts bm)). apply joins_false; lia. }
  assert (Happ : forall (es : list (nat * nat)) (p e : nat * nat),
            e ∈ es ++ [p] -> e ∈ es \/ e = p).
  { intros es p e [?|?%list_elem_of_singleton]%elem_of_app; auto. }
  split.
  - eexists. split; [|split; [|split; [|split]]]; cycle 1.
    5:{ rewrite (bind_ret_run _ _ _ _ _ (make_rect_run bm x y z)). fold n.
        unfold make_edges.
        change (pairwise_cyclic [n; n + 1; n + 2; n + 3])
          with [(n, n + 1); (n + 1, n + 2); (n + 2, n + 3); (n + 3, n)].
        rewrite mapM_edges_new; [reflexivity|]. cbn. rewrite length_app. cbn. fold n.
        repeat split; try lia; intros e He;
          repeat (apply Happ in He as [He| ->]);
          try (apply Hold; [done|lia]); apply joins_false; cbn; lia. }
    + cbn. rewrite length_app. cbn. by fold n.
    + intros u Hu. cbn. by rewrite lookup_app_l.
    + done.
    + done.
  - eexists. split; [|split; [|split; [|split]]]; cycle 1.
    5:{ rewrite (bind_ret_run _ _ _ _ _ (make_tri_run bm x y z)). fold n.
        unfold make_edges.
        change (pairwise_cyclic [n; n + 1; n + 2])
          with [(n, n + 1); (n + 1, n + 2); (n + 2, n)].
        rewrite mapM_edges_new; [reflexivity|]. cbn. rewrite length_app. cbn. fold n.
        repeat split; try lia; intros e He;
          repeat (apply Happ in He as [He| ->]);
          try (apply Hold; [done|lia]); apply joins_false; cbn; lia. }
    + cbn. rewrite length_app. cbn. by fold n.
    + intros u Hu. cbn. by rewrite lookup_app_l.
    + done.
    + done.
Qed.

Lemma primitive_ring_witness :
  edges_closed rect_ring /\
  fst ((vs <- make_rect (A:=ieee) 2 1 0 ;; make_edges vs) rect_ring) = Ret [4; 5; 6; 7] /\
  fst ((vs <- make_tri (A:=ieee) 2 1 0 ;; make_edges vs) rect_ring) = Ret [4; 5; 6].
Proof.
  assert (Hcl : edges_closed rect_ring).
  { apply (bool_decide_unpack _). vm_compute. exact I. }
  split; [exact Hcl|].
  destruct (primitive_ring (A:=ieee) rect_ring 2 1 0 Hcl)
    as [(bm1 & -> & _) (bm2 & -> & _)].
  split; reflexivity.
Defined.

Lemma bridge_verts_fresh (bm : BMesh) (v1 v2 : list nat) (n : nat) :
  Forall (fun fc => Forall (fun w => w < n) (f_verts fc)) (faces bm) ->
  Forall (fun v => n <= v) v1 \/ Forall (fun v => n <= v) v2 ->
  length v1 = length v2 ->
  3 <= length v1 ->
  verts_of bm (v1 ++ v2) ->
  exists fcs new es,
    bridge_verts v1 v2 bm =
      (Ret (mkBridge (seq (length (faces bm)) (length v1)) es),
       mkBMesh (verts bm) (edges bm ++ new) (faces bm ++ fcs)) /\
    length fcs = length v1 /\ length es = length v1.
Proof.
  intros Hcl Hge Hlen Hn Hring.
  destruct (bridge_verts_run bm v1 v2 Hlen Hn Hring)
    as (fcs & new & es & Hrun & Hfcs & Hes & _).
  { intros q [i Hq]%list_elem_of_lookup.
    apply lookup_quadwise_cyclic in Hq as (a0 & a1 & b0 & b1 & -> & Ha0 & _ & Hb0 & _).
    destruct Hge as [Hge|Hge]; rewrite Forall_forall in Hge.
    - apply (face_exists_fresh bm n _ a0 Hcl).
      + apply list_elem_of_further, list_elem_of_here.
      + apply Hge. by eapply list_elem_of_lookup_2.
    - apply (face_exists_fresh bm n _ b0 Hcl).
      + do 2 apply list_elem_of_further. apply list_elem_of_here.
      + apply Hge. by eapply list_elem_of_lookup_2. }
  exists fcs, new, es. split; [done|].
  apply Forall2_length in Hfcs, Hes.
  rewrite length_quadwise_cyclic in Hfcs by done. lia.
Qed.

Lemma verts_of_fresh (bm : BMesh) (n k : nat) :
  n + k <= length (verts bm) -> verts_of bm (seq n k).
Proof.
  intros H. split; [apply NoDup_seq|].
  apply Forall_forall. intros v Hv%elem_of_seq. lia.
Qed.

(** X16.  Two primitives of the same kind followed by [bridge_verts] never
    raise on a mesh whose faces have their corners at vertices of the mesh:
    two rectangles give eight new vertices, four new faces and four rungs,
    two triangles six new vertices, three new faces and three rungs.  The
    faces returned are the new ones, in order. *)
Theorem primitive_bridge {A : Arith} (bm : BMesh) (x y z x' y' z' : Q) :
  faces_closed bm ->
  (exists es bm',
     (a <- make_rect x y z ;; b <- make_rect x' y' z' ;; bridge_verts a b) bm =
       (Ret (mkBridge (seq (length (faces bm)) 4) es), bm') /\
     length es = 4 /\
     length (verts bm') = length (verts bm) + 8 /\
     length (faces bm') = length (faces bm) + 4) /\
  (exists es bm',
     (a <- make_tri x y z ;; b <- make_tri x' y' z' ;; bridge_verts a b) bm =
       (Ret (mkBridge (seq (length (faces bm)) 3) es), bm') /\
     length es = 3 /\
     length (verts bm') = length (verts bm) + 6 /\
     length (faces bm') = length (faces bm) + 3).
Proof.
  intros Hcl. set (n := length (verts bm)).
  assert (Hn : n = length (verts bm)) by done.
  split.
  - rewrite (bind_ret_run _ _ _ _ _ (make_rect_run bm x y z)).
    erewrite bind_ret_run by apply make_rect_run.
    cbn [verts edges faces]. rewrite length_app. cbn [length]. fold n.
    match goal with |- context [bridge_verts ?a ?b ?m] =>
      destruct (bridge_verts_fresh m a b n) as (fcs & new & es & Hrun & Hfcs & Hes)
    end.
    + exact Hcl.
    + left. repeat constructor; lia.
    + done.
    + cbn. lia.
    + match goal with |- verts_of ?m _ =>
        change (verts_of m
          ([n; n + 1; n + 2; n + 3] ++ [n + 4; n + 4 + 1; n + 4 + 2; n + 4 + 3]))
      end.
      replace ([n; n + 1; n + 2; n + 3] ++ [n + 4; n + 4 + 1; n + 4 + 2; n + 4 + 3])
        with (seq n 8).
      2:{ cbn. repeat (f_equal; try lia). }
      apply verts_of_fresh. cbn. rewrite !length_app. cbn. lia.
    + eexists _, _. split; [exact Hrun|].
      cbn [verts faces length] in *. rewrite !length_app. cbn. lia.
  - rewrite (bind_ret_run _ _ _ _ _ (make_tri_run bm x y z)).
    erewrite bind_ret_run by apply make_tri_run.
    cbn [verts edges faces]. rewrite length_app. cbn [length]. fold n.
    match goal with |- context [bridge_verts ?a ?b ?m] =>
      destruct (bridge_verts_fresh m a b n) as (fcs & new & es & Hrun & Hfcs & Hes)
    end.
    + exact Hcl.
    + left. repeat constructor; lia.
    + done.
    + cbn. lia.
    + match goal with |- verts_of ?m _ =>
        change (verts_of m ([n; n + 1; n + 2] ++ [n + 3; n + 3 + 1; n + 3 + 2]))
      end.
      replace ([n; n + 1; n + 2] ++ [n + 3; n + 3 + 1; n + 3 + 2]) with (seq n 6).
      2:{ cbn. repeat (f_equal; try lia). }
      apply verts_of_fresh. cbn. rewrite !length_app. cbn. lia.
    + eexists _, _. split; [exact Hrun|].
      cbn [verts faces length] in *. rewrite !length_app. cbn. lia.
Qed.

Lemma primitive_bridge_witness :
  faces_closed bm_empty /\
  exists es bm',
    (a <- make_rect (A:=ieee) 2 1 0 ;; b <- make_rect (A:=ieee) 2 1 1 ;;
     bridge_verts a b) bm_empty =
      (Ret (mkBridge [0; 1; 2; 3] es), bm') /\
    length es = 4 /\ length (verts bm') = 8 /\ length (faces bm') = 4.
Proof.
  assert (Hcl : faces_closed bm_empty) by constructor.
  split; [exact Hcl|].
  destruct (primitive_bridge (A:=ieee) bm_empty 2 1 0 2 1 1 Hcl)
    as [(es & bm' & Hrun & Hes & Hvs & Hfs) _].
  exists es, bm'. split; [exact Hrun|]. split; [exact Hes|]. split; [exact Hvs|exact Hfs].
Defined.

(** ** Dangling references *)

Lemma preserves_run {S A} (I : S -> Prop) (m : M S A) (s : S) :
  preserves I m -> I s -> I (snd (m s)).
Proof.
  intros Hm Hs. specialize (Hm s Hs). by destruct (m s) as [[a|e] s'].
Qed.

Lemma preserves_mapM {S A B} (I : S -> Prop) (f : A -> M S B) (xs : list A) :
  (forall x, preserves I (f x)) -> preserves I (mapM f xs).
Proof.
  intros Hf. induction xs as [|x xs IH]; [by apply hoare_ret|].
  cbn [mapM]. apply preserves_bind; [apply Hf|]. intros y.
  apply preserves_bind; [apply IH|]. intros ys. by apply hoare_ret.
Qed.

Lemma preserves_forM_ {S A} (I : S -> Prop) (f : A -> M S unit) (xs : list A) :
  (forall x, preserves I (f x)) -> preserves I (forM_ xs f).
Proof.
  intros Hf. induction xs as [|x xs IH]; [by apply hoare_ret|].
  cbn [forM_]. apply preserves_bind; [apply Hf|]. intros _. apply IH.
Qed.

Lemma bm_closed_grow (vs vs' : list Vector) (es es' : list (nat * nat)) (fs fs' : list BMFace) :
  bm_closed (mkBMesh vs es fs) ->
  length vs <= length vs' ->
  Forall (fun p => p.1 < length vs' /\ p.2 < length vs') es' ->
  Forall (fun fc => Forall (fun v => v < length vs') (f_verts fc) /\
                    Forall (fun e => e < length (es ++ es')) (f_edges fc)) fs' ->
  bm_closed (mkBMesh vs' (es ++ es') (fs ++ fs')).
Proof.
  intros (He & Hf & Hfe) Hle Hes Hfs.
  unfold bm_closed, edges_closed, faces_closed, face_edges_closed in *. cbn in *.
  rewrite !Forall_app. repeat split.
  - eapply Forall_impl; [exact He|]. cbn. intros p [? ?]. lia.
  - done.
  - eapply Forall_impl; [exact Hf|]. cbn. intros fc Hfc.
    eapply Forall_impl; [exact Hfc|]. cbn. lia.
  - eapply Forall_impl; [exact Hfs|]. by intros fc [? ?].
  - eapply Forall_impl; [exact Hfe|]. cbn. intros fc Hfc.
    eapply Forall_impl; [exact Hfc|]. cbn. intros e ?. rewrite length_app. lia.
  - eapply Forall_impl; [exact Hfs|]. by intros fc [? ?].
Qed.

Lemma verts_new_closed {A : Arith} (c : co) : preserves bm_closed (verts_new c).
Proof.
  intros [vs es fs] Hcl. cbn.
  rewrite <- (app_nil_r es), <- (app_nil_r fs).
  apply (bm_closed_grow vs); [done|rewrite length_app; lia|constructor|constructor].
Qed.

Lemma edges_new_closed (p : nat * nat) : preserves bm_closed (edges_new p).
Proof.
  intros [vs es fs] Hcl. unfold edges_new. destruct p as [a b].
  destruct (is_vert _ a && is_vert _ b) eqn:Hab; cbn [negb]; [|done].
  apply andb_true_iff in Hab as [Ha%bool_decide_eq_true Hb%bool_decide_eq_true].
  case_bool_decide; [done|]. case_bool_decide; [done|].
  cbn [verts edges faces] in *. rewrite <- (app_nil_r fs).
  apply (bm_closed_grow vs); [done|lia|by repeat constructor|constructor].
Qed.

Lemma faces_new_closed (q : list nat) : preserves bm_closed (faces_new q).
Proof.
  intros bm Hcl. unfold faces_new. unfold bind at 1, get at 1.
  case_bool_decide; [done|].
  destruct (forallb (is_vert bm) q) eqn:Hlive; cbn [negb]; [|done].
  case_bool_decide; cbn [negb]; [|done].
  destruct (face_exists bm q); [done|].
  destruct (mapM_ensure_edge_between (zip q (rotate 1 q)) bm)
    as (es & new & Hrun & Hes & Hnew).
  unfold bind. rewrite Hrun. cbn.
  rewrite forallb_forall in Hlive.
  assert (Hq : forall v, v ∈ q -> v < length (verts bm)).
  { intros v Hv%list_elem_of_In. specialize (Hlive v Hv).
    by apply bool_decide_eq_true in Hlive. }
  destruct bm as [vs es0 fs]. cbn [verts edges faces] in *.
  apply (bm_closed_grow vs); [done|lia| |].
  - eapply Forall_impl; [exact Hnew|]. cbn.
    intros [a b] [i (? & ? & [= <- <-] & Ha & Hb)%lookup_zip_with_Some]%list_elem_of_lookup.
    cbn. split; apply Hq; [by eapply list_elem_of_lookup_2|].
    apply list_elem_of_lookup_2 in Hb. by apply elem_of_rotate in Hb.
  - repeat constructor; cbn.
    + apply Forall_forall. intros v Hv. by apply Hq.
    + apply Forall_forall. intros e [i He]%list_elem_of_lookup.
      destruct (Forall2_lookup_l _ _ _ _ _ Hes He) as (p & _ & Hp).
      apply find_index_Some in Hp as (p' & Hp' & _).
      by apply lookup_lt_Some in Hp'.
Qed.

Lemma face_edge_closed (f k : nat) : preserves bm_closed (face_edge f k).
Proof.
  apply preserves_pure. intros bm. unfold face_edge, bind, get.
  destruct (faces bm !! f) as [fc|]; [|done]. by destruct (f_edges fc !! k).
Qed.

Lemma set_co_z_closed {A : Arith} (v : nat) (z : Q) :
  preserves bm_closed (set_co_z v z).
Proof.
  intros [vs es fs] Hcl. unfold set_co_z. cbn [verts edges faces].
  destruct (vs !! v) as [c|]; [|done]. cbn.
  rewrite <- (app_nil_r es), <- (app_nil_r fs).
  apply (bm_closed_grow vs); [done|by rewrite length_insert|constructor|constructor].
Qed.

Lemma copy_of_lt (base n : nat) (sel : list nat) (x : nat) :
  x < base -> base + length sel <= n -> copy_of base sel x < n.
Proof.
  intros Hx Hn. unfold copy_of.
  destruct (find_index _ sel) as [i|] eqn:Hf; [|lia].
  apply find_index_Some in Hf as (y & Hy%lookup_lt_Some & _). lia.
Qed.

Lemma length_omap_filter_seq {B} (P : nat -> Prop) `{forall i, Decision (P i)}
    (n : nat) (g : nat -> option B) :
  (forall i, i < n -> is_Some (g i)) ->
  length (omap g (filter P (seq 0 n))) = length (filter P (seq 0 n)).
Proof.
  intros Hg.
  assert (Hall : Forall (fun i => i < n) (filter P (seq 0 n))).
  { apply Forall_forall. intros i [_ Hi%elem_of_seq]%list_elem_of_filter. lia. }
  induction Hall as [|i sel Hi _ IH]; [done|]. cbn.
  destruct (Hg _ Hi) as [c ->]. cbn. by rewrite IH.
Qed.

Lemma ops_duplicate_closed (geom : list BMElem) : preserves bm_closed (ops_duplicate geom).
Proof.
  intros bm Hcl. unfold ops_duplicate.
  destruct (forallb (is_elem bm) geom); cbn [negb]; [|done].
  case_bool_decide; cbn [negb]; [|done].
  assert (Hlv : length (omap (fun v => verts bm !! v) (dup_verts bm geom)) =
                length (dup_verts bm geom)).
  { unfold dup_verts. apply length_omap_filter_seq.
    intros i Hi. by apply lookup_lt_is_Some_2. }
  assert (Hle : length (omap (fun e => prod_map (copy_of (length (verts bm)) (dup_verts bm geom))
                                                (copy_of (length (verts bm)) (dup_verts bm geom))
                                       <$> edges bm !! e) (dup_edges bm geom)) =
                length (dup_edges bm geom)).
  { unfold dup_edges. apply length_omap_filter_seq.
    intros i Hi. apply fmap_is_Some. by apply lookup_lt_is_Some_2. }
  pose proof Hcl as (He & Hf & Hfe).
  unfold edges_closed in He. unfold faces_closed in Hf.
  unfold face_edges_closed in Hfe.
  rewrite Forall_forall in He. rewrite Forall_forall in Hf.
  rewrite Forall_forall in Hfe.
  apply (bm_closed_grow (verts bm)).
  - by destruct bm.
  - rewrite length_app. lia.
  - apply Forall_forall. intros p (e & _ & Hp)%list_elem_of_omap.
    apply fmap_Some in Hp as ([a b] & Hab%list_elem_of_lookup_2 & ->).
    destruct (He _ Hab) as [Ha Hb]. cbn [fst snd prod_map] in *.
    rewrite length_app, Hlv.
    split; apply copy_of_lt; lia.
  - apply Forall_forall. intros fc' (f & _ & Hp)%list_elem_of_omap.
    apply fmap_Some in Hp as (fc & Hfc%list_elem_of_lookup_2 & ->).
    cbn [f_verts f_edges].
    split; apply Forall_forall.
    + intros v (w & -> & Hw)%list_elem_of_fmap. rewrite length_app, Hlv.
      specialize (Hf _ Hfc). rewrite Forall_forall in Hf.
      apply copy_of_lt; [by apply Hf|lia].
    + intros e (e0 & -> & He0)%list_elem_of_fmap. rewrite length_app, Hle.
      specialize (Hfe _ Hfc). rewrite Forall_forall in Hfe.
      apply copy_of_lt; [by apply Hfe|lia].
Qed.

(** X17.  The tools never leave a dangling reference.  If every edge of the
    mesh ends at vertices of the mesh and every face has its corners and
    its sides in the mesh, this is still so after [make_rect], [make_tri],
    [make_edges], [bridge_verts], [duplicate_verts] and [duplicate_edges],
    for every argument and whether the call returns or raises half way. *)
Theorem tools_closed {A : Arith} (bm : BMesh) :
  bm_closed bm ->
  (forall x y z, bm_closed (snd (make_rect x y z bm))) /\
  (forall x y z, bm_closed (snd (make_tri x y z bm))) /\
  (forall vs, bm_closed (snd (make_edges vs bm))) /\
  (forall v1 v2, bm_closed (snd (bridge_verts v1 v2 bm))) /\
  (forall vs z, bm_closed (snd (duplicate_verts vs z bm))) /\
  (forall es z, bm_closed (snd (duplicate_edges es z bm))).
Proof.
  intros Hcl.
  assert (Hz : forall (z : option Q) (vs : list nat), preserves bm_closed
            (match z with
             | Some z => forM_ vs (fun v => set_co_z v z)
             | None => ret tt
             end)).
  { intros [z|] vs; [|by apply hoare_ret].
    apply preserves_forM_. intros v. apply set_co_z_closed. }
  repeat apply conj; intros; apply preserves_run; try done.
  - apply preserves_mapM, verts_new_closed.
  - apply preserves_mapM, verts_new_closed.
  - apply preserves_mapM, edges_new_closed.
  - apply preserves_bind; [apply preserves_mapM, faces_new_closed|]. intros fs.
    apply preserves_bind; [|intros; by apply hoare_ret].
    apply preserves_mapM. intros f. apply face_edge_closed.
  - apply preserves_bind; [apply ops_duplicate_closed|]. intros dup.
    apply preserves_bind; [apply Hz|]. intros _. by apply hoare_ret.
  - apply preserves_bind; [apply ops_duplicate_closed|]. intros dup.
    apply preserves_bind; [apply Hz|]. intros _. by apply hoare_ret.
Qed.

Lemma tools_closed_witness :
  bm_closed rect_ring /\
  fst (make_edges [3; 2; 1; 0] rect_ring) = Raise ValueError /\
  bm_closed (snd (make_edges [3; 2; 1; 0] rect_ring)) /\
  bm_closed (snd (duplicate_edges (A:=ieee) [0; 2] (Some 1%Q) rect_ring)).
Proof.
  assert (Hcl : bm_closed rect_ring).
  { unfold bm_closed. repeat apply conj; apply (bool_decide_unpack _); vm_compute; exact I. }
  split; [exact Hcl|]. split; [reflexivity|].
  destruct (tools_closed (A:=ieee) rect_ring Hcl) as (_ & _ & Hedges & _ & _ & Hdup).
  split; [apply Hedges|apply Hdup].
Defined.

Lemma duplicate_verts_run {A : Arith} (bm : BMesh) (V : list nat) (z : option Q) :
  verts_of bm V ->
  exists new,
    duplicate_verts V z bm =
      (Ret (seq (length (verts bm)) (length V)),
       mkBMesh (verts bm ++ new) (edges bm) (faces bm)) /\
    length new = length V.
Proof.
  intros [Hnd Hlive].
  destruct (ops_duplicate_verts_only bm V Hnd Hlive) as (new & Hrun & Hlen & _).
  unfold duplicate_verts. rewrite (bind_ret_run _ _ _ _ _ Hrun), omap_as_vert.
  destruct z as [z|].
  - exists (with_z (store z) <$> new). split; [|by rewrite length_fmap].
    rewrite <- Hlen.
    by rewrite (bind_ret_run _ _ _ _ _ (forM_set_co_z z new (verts bm) _ _)).
  - by exists new.
Qed.

(** X18.  A ring can always be bridged to its own duplicate.  For a ring V
    of N >= 3 distinct vertices of a mesh whose faces have their corners at
    vertices of the mesh, [duplicate_verts] followed by [bridge_verts] on V
    and the duplicates never raises, with or without a height for the
    duplicates: it returns N new faces, in order, and N rungs, and the mesh
    has N more vertices and N more faces. *)
Theorem duplicate_bridge {A : Arith} (bm : BMesh) (V : list nat) (z : option Q) :
  verts_of bm V ->
  3 <= length V ->
  faces_closed bm ->
  exists es bm',
    (dup <- duplicate_verts V z ;; bridge_verts V dup) bm =
      (Ret (mkBridge (seq (length (faces bm)) (length V)) es), bm') /\
    length es = length V /\
    length (verts bm') = length (verts bm) + length V /\
    length (faces bm') = length (faces bm) + length V.
Proof.
  intros HV Hn Hcl.
  destruct (duplicate_verts_run bm V z HV) as (new & Hrun & Hlen).
  rewrite (bind_ret_run _ _ _ _ _ Hrun).
  destruct HV as [Hnd Hlive]. rewrite Forall_forall in Hlive.
  match goal with |- context [bridge_verts ?a ?b ?m] =>
    destruct (bridge_verts_fresh m a b (length (verts bm)))
      as (fcs & new' & es & Hrun' & Hfcs & Hes)
  end.
  - exact Hcl.
  - right. apply Forall_forall. intros v Hv%elem_of_seq. lia.
  - by rewrite length_seq.
  - done.
  - split.
    + apply NoDup_app. split; [done|]. split; [|apply NoDup_seq].
      intros v Hv Hv'%elem_of_seq. specialize (Hlive v Hv). lia.
    + cbn [verts]. rewrite length_app, Hlen. apply Forall_app. split.
      * apply Forall_forall. intros v Hv. specialize (Hlive v Hv). lia.
      * apply Forall_forall. intros v Hv%elem_of_seq. lia.
  - exists es, (mkBMesh (verts bm ++ new) (edges bm ++ new') (faces bm ++ fcs)).
    split; [exact Hrun'|]. cbn [verts faces]. rewrite !length_app. lia.
Qed.

Lemma duplicate_bridge_witness :
  verts_of rect_ring [0; 1; 2; 3] /\
  3 <= length [0; 1; 2; 3] /\
  faces_closed rect_ring /\
  exists es bm',
    (dup <- duplicate_verts (A:=ieee) [0; 1; 2; 3] (Some 1%Q) ;;
     bridge_verts [0; 1; 2; 3] dup)
      rect_ring = (Ret (mkBridge [0; 1; 2; 3] es), bm') /\
    length es = 4 /\ length (verts bm') = 8 /\ length (faces bm') = 4.
Proof.
  assert (HV : verts_of rect_ring [0; 1; 2; 3]).
  { split; apply (bool_decide_unpack _); vm_compute; exact I. }
  assert (Hn : 3 <= length [0; 1; 2; 3]) by (cbn; lia).
  assert (Hcl : faces_closed rect_ring) by constructor.
  split; [exact HV|]. split; [exact Hn|]. split; [exact Hcl|].
  destruct (duplicate_bridge (A:=ieee) rect_ring [0; 1; 2; 3] (Some 1%Q) HV Hn Hcl)
    as (es & bm' & Hrun & Hes & Hvs & Hfs).
  exists es, bm'. split; [exact Hrun|]. split; [exact Hes|]. split; [exact Hvs|exact Hfs].
Defined.

(** ** [est_curve_length] on an object that is not a curve *)

(** X19.  For an object without modifiers whose data is a mesh,
    [est_curve_length] never returns a length.  It copies the mesh and
    transforms the copy; when the transform raises, that exception leaves
    the function, and otherwise [AttributeError] does, at [curve.splines].
    Either way the copy stays behind in the datablocks under its new name
    (transformed in the second case), and nothing else has changed.  For an
    object without modifiers and without data, the call raises
    [AttributeError] and the scene is unchanged. *)
Theorem est_curve_length_mesh {Geometry Matrix Spline : Type}
    (K : Kernel Geometry Matrix Spline)
    (ob : Object Matrix) (s : Scene Geometry Spline) :
  modifiers ob = [] ->
  let copy := fresh (dom (bpy_data s)) in
  bpy_data s !! copy = None /\
  (ob_data ob = None -> est_curve_length K ob s = (Raise AttributeError, s)) /\
  forall d g,
    ob_data ob = Some d -> bpy_data s !! d = Some (IDMesh g) ->
    est_curve_length K ob s =
      match mesh_transform K (matrix_world ob) g with
      | Ret g' =>
          (Raise AttributeError,
           mkScene (<[copy := IDMesh g']> (bpy_data s)) (temp_meshes s) (bmeshes s))
      | Raise e =>
          (Raise e,
           mkScene (<[copy := IDMesh g]> (bpy_data s)) (temp_meshes s) (bmeshes s))
      end.
Proof.
  intros Hmod copy.
  split; [apply not_elem_of_dom, is_fresh|].
  unfold est_curve_length. rewrite Hmod.
  rewrite bool_decide_eq_false_2 by (by intros H).
  split.
  - intros Hd. unfold bind at 1, ob_datablock at 1. by rewrite Hd.
  - intros d g Hd Hg. unfold bind at 1, ob_datablock at 1. rewrite Hd, Hg.
    unfold bind at 1 2, get at 1, put at 1. cbn [fst snd]. fold copy.
    unfold bind at 1, lift at 1, id_transform at 1.
    destruct (mesh_transform K (matrix_world ob) g) as [g'|e]; [|done].
    unfold bind, get, put, raise. cbn [bpy_data temp_meshes bmeshes].
    by rewrite insert_insert_eq.
Qed.

Lemma est_curve_length_mesh_witness :
  bpy_data scene0 !! "Cube" = Some (IDMesh 12) /\
  fresh (dom (bpy_data scene0)) <> "Cube" /\
  fst (est_curve_length host cube_ob scene0) = Raise AttributeError /\
  bpy_data (snd (est_curve_length host cube_ob scene0)) =
    <[fresh (dom (bpy_data scene0)) := IDMesh 12]> (bpy_data scene0).
Proof.
  assert (Hc : bpy_data scene0 !! "Cube" = Some (IDMesh 12)) by (vm_compute; reflexivity).
  split; [exact Hc|].
  destruct (est_curve_length_mesh host cube_ob scene0 eq_refl) as (Hfresh & _ & Hrun).
  split; [intros Heq; rewrite Heq in Hfresh; congruence|].
  rewrite (Hrun "Cube" 12 eq_refl Hc). cbn. split; reflexivity.
Defined.
